(** * osearch: searching an Obsidian vault for Alfred

    A shallow embedding of [osearch.go] (the variant that reads the vault
    registry) and of its sibling without registry lookup, together with the
    properties of the text-processing seam: title and URL construction,
    front truncation, the two result-shaping loops and the serialisation of
    the result set.

    Go strings are byte sequences: they are modelled as [list ascii].  Go's
    [int] is a 64-bit two's-complement integer: it is modelled as [Z] with
    the wrap-around of every arithmetic operation written out.  A slice
    expression that is out of range panics: slicing returns [option]. *)

From Stdlib Require Import ZArith Ascii String Lia.
From stdpp Require Import gmap strings list.

Local Open Scope Z_scope.

(** ** Bytes, strings and machine integers *)

Abbreviation gostring := (list ascii).

(** A string literal of the source, as bytes. *)
Definition str (s : string) : gostring := String.list_ascii_of_string s.

Definition byte_val (c : ascii) : Z := Z.of_N (N_of_ascii c).

Definition min_int : Z := - 2 ^ 63.
Definition max_int : Z := 2 ^ 63 - 1.

(** Two's-complement wrap-around of a mathematical integer into [int]. *)
Definition wrap (z : Z) : Z := (z + 2 ^ 63) mod 2 ^ 64 - 2 ^ 63.

Definition int_add (a b : Z) : Z := wrap (a + b).
Definition int_sub (a b : Z) : Z := wrap (a - b).

Definition in_int (z : Z) : Prop := min_int <= z <= max_int.

(** [len(s)] *)
Definition len {A} (s : list A) : Z := Z.of_nat (length s).

(** The strings a Go program can hold: their length is an [int]. *)
Definition go_string (s : gostring) : Prop := len s <= max_int.

(** [s[lo:hi]]; out of range is a run-time panic. *)
Definition slice (s : gostring) (lo hi : Z) : option gostring :=
  if (0 <=? lo) && (lo <=? hi) && (hi <=? len s)
  then Some (take (Z.to_nat (hi - lo)) (drop (Z.to_nat lo) s))
  else None.

(** [s[lo:]] *)
Definition slice_from (s : gostring) (lo : Z) : option gostring :=
  slice s lo (len s).

(** ** The [strings] package *)

(** [strings.HasPrefix(s, prefix)] *)
Fixpoint strings_HasPrefix (s prefix : gostring) : bool :=
  match prefix, s with
  | [], _ => true
  | _ :: _, [] => false
  | p :: prefix', c :: s' =>
      if decide (c = p) then strings_HasPrefix s' prefix' else false
  end.

(** [strings.HasSuffix(s, suffix)]:
    [len(s) >= len(suffix) && s[len(s)-len(suffix):] == suffix] *)
Definition strings_HasSuffix (s suffix : gostring) : bool :=
  (len suffix <=? len s) &&
  bool_decide (drop (length s - length suffix) s = suffix).

(** Position of the first instance of [substr] in [s], if any. *)
Fixpoint index_of (s substr : gostring) : option nat :=
  if strings_HasPrefix s substr then Some 0%nat
  else match s with
       | [] => None
       | _ :: s' => S <$> index_of s' substr
       end.

(** Position of the last instance of [substr] in [s], if any. *)
Fixpoint last_index_of (s substr : gostring) : option nat :=
  match s with
  | [] => if strings_HasPrefix [] substr then Some 0%nat else None
  | _ :: s' =>
      match last_index_of s' substr with
      | Some i => Some (S i)
      | None => if strings_HasPrefix s substr then Some 0%nat else None
      end
  end.

Definition found (o : option nat) : Z :=
  match o with Some i => Z.of_nat i | None => -1 end.

(** [strings.Index(s, substr)]: the index of the first instance, or -1. *)
Definition strings_Index (s substr : gostring) : Z := found (index_of s substr).

(** [strings.LastIndex(s, substr)]: the index of the last instance, or -1. *)
Definition strings_LastIndex (s substr : gostring) : Z :=
  found (last_index_of s substr).

(** [p] occurs in [s] at byte offset [i]. *)
Definition occurs_at (s p : gostring) (i : nat) : Prop :=
  (i <= length s)%nat /\ p `prefix_of` drop i s.

(** [b] is the offset of the last byte [c] of [s] before offset [cut]. *)
Definition last_before (s : gostring) (c : ascii) (cut b : nat) : Prop :=
  (b < cut)%nat /\ s !! b = Some c /\
  forall j, (b < j < cut)%nat -> s !! j <> Some c.

(** ** Titles *)

(** [[
func withoutMd(filename string) string {
	if strings.HasSuffix(filename, ".md") {
		return filename[0 : len(filename)-3]
	}
	return filename
}
]] *)
Definition withoutMd (filename : gostring) : option gostring :=
  if strings_HasSuffix filename (str ".md")
  then slice filename 0 (int_sub (len filename) 3)
  else Some filename.

(** ** Truncation from the front *)

(** [[
func fruncate(s string, p string, n int, m int) string {
	index := strings.Index(s, p)
	if index > n {
		max := index - n
		min := max - m
		breakIndex := strings.LastIndex(s[0:max], " ")
		if breakIndex > 0 && breakIndex >= min {
			return s[breakIndex+1:]
		}
		return s[max:]
	}
	return s
}
]] *)
Definition fruncate (s p : gostring) (n m : Z) : option gostring :=
  let index := strings_Index s p in
  if n <? index then
    let max := int_sub index n in
    let min := int_sub max m in
    head ← slice s 0 max;
    let breakIndex := strings_LastIndex head (str " ") in
    if (0 <? breakIndex) && (min <=? breakIndex)
    then slice_from s (int_add breakIndex 1)
    else slice_from s max
  else Some s.

(** ** The [net/url] package: path-segment escaping *)

Definition between (lo : Z) (c : ascii) (hi : Z) : bool :=
  (lo <=? byte_val c) && (byte_val c <=? hi).

(** [c] is one of the bytes of [set]. *)
Definition one_of (c : ascii) (set : string) : bool :=
  existsb (fun d => bool_decide (c = d)) (str set).

(** [shouldEscape(c, encodePathSegment)]: alphanumerics and the marks
    [-_.~] are never escaped; of the reserved bytes [$&+,/:;=?@] a path
    segment escapes only [/ ; , ?]; everything else is escaped. *)
Definition shouldEscape (c : ascii) : bool :=
  if between 97 c 122 || between 65 c 90 || between 48 c 57 then false
  else if one_of c "-_.~" then false
  else if one_of c "$&+,/:;=?@" then one_of c "/;,?"
  else true.

Definition byte_of (z : Z) : ascii := ascii_of_N (Z.to_N z).

(** [upperhex[i]] *)
Definition upperhex (i : Z) : ascii :=
  nth (Z.to_nat i) (str "0123456789ABCDEF") "0"%char.

(** What [escape] writes for one byte of the input:
    ['%'], [upperhex[c>>4]], [upperhex[c&15]] or the byte itself. *)
Definition escape_byte (c : ascii) : gostring :=
  if shouldEscape c
  then ["%"%char; upperhex (Z.shiftr (byte_val c) 4);
        upperhex (Z.land (byte_val c) 15)]
  else [c].

(** [url.PathEscape(s)], that is [escape(s, encodePathSegment)]. *)
Fixpoint url_PathEscape (s : gostring) : gostring :=
  match s with
  | [] => []
  | c :: s' => escape_byte c ++ url_PathEscape s'
  end.

(** [unhex(c)], defined on the bytes for which [ishex(c)] holds. *)
Definition unhex (c : ascii) : option Z :=
  if between 48 c 57 then Some (byte_val c - 48)
  else if between 97 c 102 then Some (byte_val c - 97 + 10)
  else if between 65 c 70 then Some (byte_val c - 65 + 10)
  else None.

(** Percent-decoding, as [url.PathUnescape] does it: ['%'] followed by two
    hexadecimal digits is one byte, a ['%'] followed by anything else is an
    error, every other byte stands for itself. *)
Fixpoint url_PathUnescape (s : gostring) : option gostring :=
  match s with
  | [] => Some []
  | c :: r =>
      if decide (c = "%"%char) then
        match r with
        | h1 :: h2 :: r' =>
            hi ← unhex h1; lo ← unhex h2; t ← url_PathUnescape r';
            Some (byte_of (Z.lor (Z.shiftl hi 4) lo) :: t)
        | _ => None
        end
      else (c ::.) <$> url_PathUnescape r
  end.

(** [[
func asObsidianUrl(path string, vault string) string {
	return fmt.Sprintf("obsidian://open?vault=%s&file=%s", vault, url.PathEscape(path))
}
]] *)
Definition asObsidianUrl (path vault : gostring) : gostring :=
  str "obsidian://open?vault=" ++ vault ++ str "&file=" ++ url_PathEscape path.

(** Number of literal ampersands in a text. *)
Definition count_amp (s : gostring) : nat :=
  length (filter (fun c => c = "&"%char) s).

(** ** The [path/filepath] package *)

(** The reversed path without its trailing separators. *)
Fixpoint strip_separators (rev_path : gostring) : gostring :=
  match rev_path with
  | c :: r => if decide (c = "/"%char) then strip_separators r else rev_path
  | [] => []
  end.

(** The reversed last element: the bytes up to the first separator. *)
Fixpoint until_separator (rev_path : gostring) : gostring :=
  match rev_path with
  | c :: r => if decide (c = "/"%char) then [] else c :: until_separator r
  | [] => []
  end.

(** [filepath.Base(path)] with ['/'] as the separator: the last element of
    the path, trailing separators removed first; ["."] for the empty path
    and ["/"] for a path of separators only. *)
Definition filepath_Base (path : gostring) : gostring :=
  match path with
  | [] => str "."
  | _ =>
      match reverse (until_separator (strip_separators (reverse path))) with
      | [] => str "/"
      | base => base
      end
  end.

(** ** Splitting and joining *)

(** [strings.Split(s, sep)] for a separator of one byte, as at both call
    sites: the substrings between the separators, one more than there are
    separators. *)
Fixpoint strings_Split (s : gostring) (sep : ascii) : list gostring :=
  match s with
  | [] => [[]]
  | c :: s' =>
      if decide (c = sep) then [] :: strings_Split s' sep
      else match strings_Split s' sep with
           | tok :: toks => (c :: tok) :: toks
           | [] => [[c]]
           end
  end.

(** [strings.Join(elems, sep)] *)
Fixpoint strings_Join (elems : list gostring) (sep : gostring) : gostring :=
  match elems with
  | [] => []
  | [e] => e
  | e :: rest => e ++ sep ++ strings_Join rest sep
  end.

(** ** Results *)

(** [[
type AlfredResult struct {
	Type     string `json:"type"`
	Title    string `json:"title"`
	Subtitle string `json:"subtitle"`
	Arg      string `json:"arg"`
}
]] *)
Record AlfredResult := {
  Type_ : gostring;
  Title : gostring;
  Subtitle : gostring;
  Arg : gostring
}.

(** The zero value [AlfredResult{}]. *)
Definition zero_AlfredResult : AlfredResult :=
  {| Type_ := []; Title := []; Subtitle := []; Arg := [] |}.

(** A slice of results: [None] is the nil slice, [Some l] a slice that was
    made or appended to. *)
Abbreviation results_slice := (option (list AlfredResult)).

(** [[
type AlfredResults struct {
	Items []AlfredResult `json:"items"`
}
]] *)
Record AlfredResults := { Items : results_slice }.

(** The elements of a slice. *)
Definition elems (s : results_slice) : list AlfredResult := default [] s.

(** [append(s, x)] *)
Definition append (s : results_slice) (x : AlfredResult) : results_slice :=
  Some (elems s ++ [x]).

(** [l[i] = x]; an index out of range is a run-time panic. *)
Definition store {A} (l : list A) (i : nat) (x : A) : option (list A) :=
  if decide (i < length l)%nat then Some (<[i:=x]> l) else None.

(** ** Filename mode: shaping the output of the file-finder *)

(** [for index, filename := range output { results[index] = filename }] *)
Fixpoint copy_filenames (index : nat) (output results : list gostring)
  : option (list gostring) :=
  match output with
  | [] => Some results
  | filename :: rest =>
      results' ← store results index filename;
      copy_filenames (S index) rest results'
  end.

(** [[
	for index, match := range results {
		if len(match) > 0 {
			alfredResults[index] = AlfredResult{
				Type:  "default",
				Title: withoutMd(filepath.Base(match)),
				Arg:   asObsidianUrl(match, vault),
			}
		}
	}
]] *)
Fixpoint fill_results (vault : gostring) (index : nat) (results : list gostring)
    (alfredResults : list AlfredResult) : option (list AlfredResult) :=
  match results with
  | [] => Some alfredResults
  | match_ :: rest =>
      if 0 <? len match_ then
        title ← withoutMd (filepath_Base match_);
        alfredResults' ←
          store alfredResults index
            {| Type_ := str "default"; Title := title; Subtitle := [];
               Arg := asObsidianUrl match_ vault |};
        fill_results vault (S index) rest alfredResults'
      else fill_results vault (S index) rest alfredResults
  end.

(** The body of [findMatchingFiles] from the point where the file-finder has
    returned [out]; [None] is a run-time panic.
[[
	output := strings.Split(string(out), "\000")
	results := make([]string, len(output))
	for index, filename := range output { ... }
	alfredResults := make([]AlfredResult, len(results))
	for index, match := range results { ... }
	return AlfredResults{Items: alfredResults}
]] *)
Definition findMatchingFiles_shape (out vault : gostring) : option AlfredResults :=
  let output := strings_Split out "000"%char in
  results ← copy_filenames 0 output (replicate (length output) []);
  alfredResults ←
    fill_results vault 0 results (replicate (length results) zero_AlfredResult);
  Some {| Items := Some alfredResults |}.

(** What filename mode stores for one token of the file-finder's output:
    nothing for the empty token (the slot keeps its zero value), the item of
    the path otherwise. *)
Definition token_item (vault token : gostring) (item : AlfredResult) : Prop :=
  match token with
  | [] => item = zero_AlfredResult
  | _ =>
      Type_ item = str "default" /\
      withoutMd (filepath_Base token) = Some (Title item) /\
      Subtitle item = [] /\
      Arg item = asObsidianUrl token vault
  end.

(** ** How a run ends *)

(** A computation of the program returns, or ends the process through
    [log.Fatal]/[log.Fatalf] with a message, or panics at run time. *)
Inductive outcome (A : Type) : Type :=
  | Done (a : A)
  | Fatal (msg : gostring)
  | Panic.
Arguments Done {A} a.
Arguments Fatal {A} msg.
Arguments Panic {A}.

#[global] Instance outcome_ret : MRet outcome := @Done.

#[global] Instance outcome_bind : MBind outcome :=
  fun A B (f : A -> outcome B) (m : outcome A) =>
    match m with
    | Done a => f a
    | Fatal msg => Fatal msg
    | Panic => Panic
    end.

(** A pure helper that can only panic, run inside the program. *)
Definition run_time {A} (o : option A) : outcome A :=
  match o with
  | Some a => Done a
  | None => Panic
  end.

(** ** Content mode: shaping the output of the content search *)

(** [[
type RipGrepResult struct {
	Type string `json:"type"`
	Data struct {
		Path struct {
			Text string `json:"text"`
		} `json:"path"`
		Lines struct {
			Text string `json:"text"`
		} `json:"lines"`
	} `json:"data"`
}
]] *)
Record RipGrepResult := {
  Rg_Type : gostring;
  Data_Path_Text : gostring;
  Data_Lines_Text : gostring
}.

(** The zero value of [var rgr RipGrepResult]. *)
Definition zero_RipGrepResult : RipGrepResult :=
  {| Rg_Type := []; Data_Path_Text := []; Data_Lines_Text := [] |}.

(** The variables the loop of [grepMatchingFiles] updates. [rgr] is declared
    once, outside the loop, and every line is decoded into it. *)
Record GrepState := {
  results : results_slice;
  rgr : RipGrepResult;
  alreadyFound : gmap gostring bool
}.

Definition grep_init : GrepState :=
  {| results := None; rgr := zero_RipGrepResult; alreadyFound := ∅ |}.

Section ContentMode.

  (** [json.Unmarshal([]byte(line), &rgr)] of the standard library: from the
      line and the value [rgr] holds, the value it holds afterwards, or
      [None] for [err != nil].  Decoding into a variable that already holds
      a value keeps the fields the line does not mention. *)
Variable json_Unmarshal : gostring -> RipGrepResult -> option RipGrepResult.

Variables searchTerm vault : gostring.

  (** One iteration of
[[
	for _, line := range lines {
		if !strings.HasPrefix(line, "{") {
			continue
		}
		err := json.Unmarshal([]byte(line), &rgr)
		if err != nil {
			log.Fatalf("could not parse %s", line)
		}
		if rgr.Type == "match" {
			filename := rgr.Data.Path.Text
			_, ok := alreadyFound[filename]
			if ok {
				continue
			}
			result := AlfredResult{
				Type:     "default",
				Title:    withoutMd(filepath.Base(filename)),
				Subtitle: fruncate(rgr.Data.Lines.Text, searchTerm, 10, 5),
				Arg:      asObsidianUrl(filename, vault),
			}
			results = append(results, result)
			alreadyFound[filename] = true
		}
	}
]] *)
Definition grep_step (line : gostring) (st : GrepState) : outcome GrepState :=
    if negb (strings_HasPrefix line (str "{")) then Done st
    else
      match json_Unmarshal line (rgr st) with
      | None => Fatal (str "could not parse " ++ line)
      | Some rgr' =>
          if bool_decide (Rg_Type rgr' = str "match") then
            let filename := Data_Path_Text rgr' in
            match alreadyFound st !! filename with
            | Some _ =>
                Done {| results := results st; rgr := rgr';
                        alreadyFound := alreadyFound st |}
            | None =>
                title ← run_time (withoutMd (filepath_Base filename));
                subtitle ← run_time (fruncate (Data_Lines_Text rgr') searchTerm 10 5);
                let result :=
                  {| Type_ := str "default"; Title := title; Subtitle := subtitle;
                     Arg := asObsidianUrl filename vault |} in
                Done {| results := append (results st) result; rgr := rgr';
                        alreadyFound := <[filename := true]> (alreadyFound st) |}
            end
          else
            Done {| results := results st; rgr := rgr';
                    alreadyFound := alreadyFound st |}
      end.

Fixpoint grep_loop (lines : list gostring) (st : GrepState) : outcome GrepState :=
    match lines with
    | [] => Done st
    | line :: rest => st' ← grep_step line st; grep_loop rest st'
    end.

  (** The body of [grepMatchingFiles] from the point where the content
      search has returned [out].
[[
	lines := strings.Split(string(out), "\n")
	var results []AlfredResult
	var rgr RipGrepResult
	alreadyFound := make(map[string]bool)
	for _, line := range lines { ... }
	return AlfredResults{Items: results}
]] *)
Definition grepMatchingFiles_shape (out : gostring) : outcome AlfredResults :=
    st ← grep_loop (strings_Split out "010"%char) grep_init;
    Done {| Items := results st |}.

  (** The values [rgr] takes, in order, as the lines that start with ['{']
      are decoded one after the other, starting from [r]; [None] when one of
      them does not decode. *)
Fixpoint decoded (lines : list gostring) (r : RipGrepResult)
    : option (list RipGrepResult) :=
    match lines with
    | [] => Some []
    | line :: rest =>
        if negb (strings_HasPrefix line (str "{")) then decoded rest r
        else r' ← json_Unmarshal line r; (r' ::.) <$> decoded rest r'
    end.

  (** The match records of a stream. *)
Definition match_records (lines : list gostring) : option (list RipGrepResult) :=
    filter (fun r => Rg_Type r = str "match") <$> decoded lines zero_RipGrepResult.

  (** A result item is built from a match record. *)
Definition built_from (record : RipGrepResult) (item : AlfredResult) : Prop :=
    Type_ item = str "default" /\
    withoutMd (filepath_Base (Data_Path_Text record)) = Some (Title item) /\
    fruncate (Data_Lines_Text record) searchTerm 10 5 = Some (Subtitle item) /\
    Arg item = asObsidianUrl (Data_Path_Text record) vault.

End ContentMode.

(** The first record of every path, in the order of first occurrence. *)
Fixpoint first_per_path (records : list RipGrepResult) : list RipGrepResult :=
  match records with
  | [] => []
  | r :: rest =>
      r :: filter (fun r' => Data_Path_Text r' <> Data_Path_Text r)
             (first_per_path rest)
  end.


(** ** The [encoding/json] and [unicode/utf8] packages: writing strings *)

Definition RuneError : Z := 65533.

(** The table [first] of [unicode/utf8] for a leading byte of a multi-byte
    sequence: the length of the sequence and the range accepted for its
    second byte; [None] for a byte that cannot lead. *)
Definition utf8_first (b : Z) : option (nat * Z * Z) :=
  if b <? 194 then None
  else if b <=? 223 then Some (2%nat, 128, 191)
  else if b =? 224 then Some (3%nat, 160, 191)
  else if b <=? 236 then Some (3%nat, 128, 191)
  else if b =? 237 then Some (3%nat, 128, 159)
  else if b <=? 239 then Some (3%nat, 128, 191)
  else if b =? 240 then Some (4%nat, 144, 191)
  else if b <=? 243 then Some (4%nat, 128, 191)
  else if b =? 244 then Some (4%nat, 128, 143)
  else None.

Definition continuation (c : ascii) : bool := between 128 c 191.

(** [utf8.DecodeRuneInString(s)]: the first rune of [s] and its width in
    bytes; [(RuneError, 1)] for a byte sequence that is not UTF-8. *)
Definition utf8_DecodeRune (s : gostring) : Z * nat :=
  match s with
  | [] => (RuneError, 0%nat)
  | s0 :: t =>
      if byte_val s0 <? 128 then (byte_val s0, 1%nat)
      else
        match utf8_first (byte_val s0) with
        | None => (RuneError, 1%nat)
        | Some (sz, lo, hi) =>
            if (length s <? sz)%nat then (RuneError, 1%nat)
            else
              match t with
              | [] => (RuneError, 1%nat)
              | s1 :: t1 =>
                  if negb (between lo s1 hi) then (RuneError, 1%nat)
                  else if (sz <=? 2)%nat then
                    (Z.lor (Z.shiftl (Z.land (byte_val s0) 31) 6)
                           (Z.land (byte_val s1) 63), 2%nat)
                  else
                    match t1 with
                    | [] => (RuneError, 1%nat)
                    | s2 :: t2 =>
                        if negb (continuation s2) then (RuneError, 1%nat)
                        else if (sz <=? 3)%nat then
                          (Z.lor (Z.lor (Z.shiftl (Z.land (byte_val s0) 15) 12)
                                        (Z.shiftl (Z.land (byte_val s1) 63) 6))
                                 (Z.land (byte_val s2) 63), 3%nat)
                        else
                          match t2 with
                          | [] => (RuneError, 1%nat)
                          | s3 :: _ =>
                              if negb (continuation s3) then (RuneError, 1%nat)
                              else
                                (Z.lor (Z.lor (Z.lor
                                   (Z.shiftl (Z.land (byte_val s0) 7) 18)
                                   (Z.shiftl (Z.land (byte_val s1) 63) 12))
                                   (Z.shiftl (Z.land (byte_val s2) 63) 6))
                                   (Z.land (byte_val s3) 63), 4%nat)
                          end
                    end
              end
        end
  end.

(** [hex[i]] of [encoding/json] *)
Definition hex (i : Z) : ascii :=
  nth (Z.to_nat i) (str "0123456789abcdef") "0"%char.

Definition quote : ascii := "034"%char.
Definition backslash : ascii := "092"%char.
Definition newline : ascii := "010"%char.

(** [htmlSafeSet[b]]: the ASCII bytes written as they are when HTML escaping
    is on, which it is for [Marshal] and [MarshalIndent]: all from the space
    up, except the quote, the backslash and [& < >]. *)
Definition htmlSafeSet (b : ascii) : bool :=
  between 32 b 127 &&
  negb (bool_decide (b = quote) || bool_decide (b = backslash) || one_of b "&<>").

(** What [appendString] writes for one byte below [utf8.RuneSelf]. [safe]
    is the set of bytes written as they are,
    [htmlSafeSet[b] || (!escapeHTML && safeSet[b])] in the source. Releases
    of Go before 1.22 have no case for the backspace and the form feed and
    write them as [\u0008] and [\u000c]. *)
Definition json_escape_ascii (safe : ascii -> bool) (b : ascii) : gostring :=
  if safe b then [b]
  else if bool_decide (b = backslash) || bool_decide (b = quote) then [backslash; b]
  else if bool_decide (b = "008"%char) then [backslash; "b"%char]
  else if bool_decide (b = "012"%char) then [backslash; "f"%char]
  else if bool_decide (b = "010"%char) then [backslash; "n"%char]
  else if bool_decide (b = "013"%char) then [backslash; "r"%char]
  else if bool_decide (b = "009"%char) then [backslash; "t"%char]
  else [backslash; "u"%char; "0"%char; "0"%char;
        hex (Z.shiftr (byte_val b) 4); hex (Z.land (byte_val b) 15)].

(** The loop of [appendString] over the bytes of [src]. [pending] counts the
    bytes that remain of a rune the loop has already decoded, which it
    either copies ([copy]) or has replaced by an escape. *)
Fixpoint json_string_body (safe : ascii -> bool) (pending : nat) (copy : bool)
    (src : gostring) : gostring :=
  match src with
  | [] => []
  | b :: rest =>
      match pending with
      | S k => (if copy then [b] else []) ++ json_string_body safe k copy rest
      | O =>
          if byte_val b <? 128 then
            json_escape_ascii safe b ++ json_string_body safe 0 true rest
          else
            let '(c, size) := utf8_DecodeRune src in
            if (c =? RuneError) && (size =? 1)%nat then
              backslash :: str "ufffd" ++ json_string_body safe 0 true rest
            else if (c =? 8232) || (c =? 8233) then
              backslash :: str "u202" ++ [hex (Z.land c 15)]
                ++ json_string_body safe (size - 1) false rest
            else b :: json_string_body safe (size - 1) true rest
      end
  end.

(** A Go string as a JSON string literal. *)
Definition json_string (safe : ascii -> bool) (s : gostring) : gostring :=
  quote :: json_string_body safe 0 true s ++ [quote].

(** One [AlfredResult], as [MarshalIndent(_, "", "  ")] lays it out at depth
    two of the document. *)
Definition json_item (safe : ascii -> bool) (r : AlfredResult) : gostring :=
  str "{" ++ newline :: str "      " ++ json_string safe (str "type") ++ str ": "
    ++ json_string safe (Type_ r) ++ str "," ++
  newline :: str "      " ++ json_string safe (str "title") ++ str ": "
    ++ json_string safe (Title r) ++ str "," ++
  newline :: str "      " ++ json_string safe (str "subtitle") ++ str ": "
    ++ json_string safe (Subtitle r) ++ str "," ++
  newline :: str "      " ++ json_string safe (str "arg") ++ str ": "
    ++ json_string safe (Arg r) ++
  newline :: str "    " ++ str "}".

(** The elements of a non-empty array at depth one: each on a line of its
    own, a comma after all but the last. *)
Fixpoint json_items (safe : ascii -> bool) (l : list AlfredResult) : gostring :=
  match l with
  | [] => []
  | [r] => newline :: str "    " ++ json_item safe r
  | r :: rest =>
      newline :: str "    " ++ json_item safe r ++ str "," ++ json_items safe rest
  end.

(** The value of the field [Items]: [null] for the nil slice, [[]] for an
    empty one. *)
Definition json_array (safe : ascii -> bool) (items : results_slice) : gostring :=
  match items with
  | None => str "null"
  | Some [] => str "[]"
  | Some l => str "[" ++ json_items safe l ++ newline :: str "  " ++ str "]"
  end.

(** The indented document for a value of type [AlfredResults]. *)
Definition json_document (safe : ascii -> bool) (results : AlfredResults) : gostring :=
  str "{" ++ newline :: str "  " ++ json_string safe (str "items") ++ str ": "
    ++ json_array safe (Items results) ++ newline :: str "}".

(** [json.MarshalIndent(results, "", "  ")] for a value of type
    [AlfredResults]: HTML escaping is on; it cannot fail on this type. *)
Definition json_MarshalIndent (results : AlfredResults) : gostring :=
  json_document htmlSafeSet results.

(** [strings.Replace(s, old, new, -1)] for a non-empty [old]: every
    non-overlapping instance of [old], from the left, becomes [new].
    [skip] counts the bytes that remain of the instance being replaced. *)
Fixpoint replace_from (skip : nat) (s old new : gostring) : gostring :=
  match s with
  | [] => []
  | c :: rest =>
      match skip with
      | S k => replace_from k rest old new
      | O =>
          if strings_HasPrefix s old
          then new ++ replace_from (length old - 1) rest old new
          else c :: replace_from 0 rest old new
      end
  end.

Definition strings_Replace (s old new : gostring) : gostring :=
  replace_from 0 s old new.

(** The end of [main]: what is written on standard output for a result set.
[[
	jsonResults, _ := json.MarshalIndent(results, "", "  ")
	// unescape the stupid ampersand
	jsonResults = []byte(strings.Replace(string(jsonResults), "\\u0026", "&", -1))
	fmt.Println(string(jsonResults))
]] *)
Definition print_results (results : AlfredResults) : gostring :=
  strings_Replace (json_MarshalIndent results) (backslash :: str "u0026") (str "&")
    ++ [newline].

(** ** The process and its surroundings *)

(** [[
type ObsidianVault struct {
	Path string `json:"path"`
	Ts   int    `json:"ts"`
	Open bool   `json:"open"`
}
]] *)
Record ObsidianVault := { Path : gostring; Ts : Z; Open : bool }.

(** [[
type ObsidianConfig struct {
	Vaults map[string]ObsidianVault `json:"vaults"`
}
]] *)
Record ObsidianConfig := { Vaults : gmap gostring ObsidianVault }.

(** What the operating system answers during one run. *)
Record World := {
  (** [os.UserHomeDir()], the error dropped *)
  UserHomeDir : gostring;
  (** [ioutil.ReadFile(name)]; [None] for an error *)
  ReadFile : gostring -> option gostring;
  (** [os.Chdir(dir)] succeeds *)
  Chdir : gostring -> bool;
  (** [exec.Command(argv...).Output()] in a working directory: the captured
      standard output and the error, if any *)
  Output : gostring -> list gostring -> gostring * option gostring;
  (** the order in which [range] visits the entries of the map, which the
      language does not fix *)
  range_Vaults : gmap gostring ObsidianVault -> list (gostring * ObsidianVault)
}.

(** The steps of a run that reach outside the process. *)
Inductive Event :=
  | EvReadFile (name : gostring)
  | EvChdir (dir : gostring)
  | EvExec (argv : list gostring).

(** A part of the program: the steps it took and how it ended. *)
Definition prog (A : Type) : Type := list Event * outcome A.

Definition pure {A} (o : outcome A) : prog A := ([], o).

Definition and_then {A B} (m : prog A) (k : A -> prog B) : prog B :=
  match m with
  | (t, Done a) => (t ++ (k a).1, (k a).2)
  | (t, Fatal msg) => (t, Fatal msg)
  | (t, Panic) => (t, Panic)
  end.

Notation "'do' x <- m ; k" := (and_then m (fun x => k))
  (at level 10, x pattern, m at level 100, k at level 200).

(** The command line after [flag.Parse()]. *)
Record Invocation := {
  program : gostring;          (** [os.Args[0]] *)
  grepMode : bool;             (** [-grep] *)
  vaultName : gostring;        (** [-vault] *)
  vaultPath : gostring;        (** [-path] *)
  Args : list gostring         (** [flag.Args()] *)
}.

(** The two variants of the program: [osearch.go], which looks the default
    vault up in the registry of the application, and its sibling, which
    takes both from the command line. *)
Inductive Variant := WithRegistry | FlagsOnly.

Section Program.

  (** Of the standard library: [filepath.Join] and the two instances of
      [json.Unmarshal]. *)
Variable filepath_Join : gostring -> gostring -> gostring.
Variable json_Unmarshal : gostring -> RipGrepResult -> option RipGrepResult.
Variable json_Unmarshal_config : gostring -> option ObsidianConfig.

Variable w : World.

  (** [[
func expandHome(filename string) string {
	if strings.HasPrefix(filename, "~/") {
		dir, _ := os.UserHomeDir()
		return filepath.Join(dir, filename[2:])
	}
	return filename
}
]] *)
Definition expandHome (filename : gostring) : option gostring :=
    if strings_HasPrefix filename (str "~/")
    then rest ← slice_from filename 2; Some (filepath_Join (UserHomeDir w) rest)
    else Some filename.

  (** [os.Chdir(directory)], fatal when it fails. *)
Definition chdir (directory : gostring) : prog unit :=
    ([EvChdir directory],
     if Chdir w directory then Done tt
     else Fatal (str "no such directory " ++ directory)).

Definition fd_argv (v : Variant) (searchTerm : gostring) : list gostring :=
    match v with
    | WithRegistry => [str "/usr/local/bin/fd"; str "-0"; str "--type=f"; searchTerm]
    | FlagsOnly =>
        [str "/usr/local/bin/fd"; str "-0"; str "--type=f"; str "--glob"; searchTerm]
    end.

Definition rg_argv (v : Variant) (searchTerm : gostring) : list gostring :=
    match v with
    | WithRegistry =>
        [str "/usr/local/bin/rg"; str "--json"; str "--ignore-case"; str "--sortr";
         str "modified"; searchTerm]
    | FlagsOnly =>
        [str "/usr/local/bin/rg"; str "--json"; str "--sortr"; str "modified";
         searchTerm]
    end.

  (** [findMatchingFiles]: change directory, run the file-finder (any error
      of it is fatal), shape its output. *)
Definition findMatchingFiles (v : Variant) (searchTerm directory vault : gostring)
    : prog AlfredResults :=
    do _ <- chdir directory;
    do out <- ([EvExec (fd_argv v searchTerm)],
               match Output w directory (fd_argv v searchTerm) with
               | (out, None) => Done out
               | (_, Some err) => Fatal err
               end);
    pure (run_time (findMatchingFiles_shape out vault)).

  (** [grepMatchingFiles]: change directory, run the content search (its
      error is dropped), shape its output. *)
Definition grepMatchingFiles (v : Variant) (searchTerm directory vault : gostring)
    : prog AlfredResults :=
    do _ <- chdir directory;
    do out <- ([EvExec (rg_argv v searchTerm)],
               Done (Output w directory (rg_argv v searchTerm)).1);
    pure (grepMatchingFiles_shape json_Unmarshal searchTerm vault out).

  (** [[
func getDefaults(obsidianConfig string) (string, string) {
	content, err := ioutil.ReadFile(obsidianConfig)
	if err != nil {
		log.Fatalf("could not open %s", obsidianConfig)
	}
	var result ObsidianConfig
	err = json.Unmarshal(content, &result)
	if err != nil {
		log.Fatalf("Could not parse %s", content)
	}
	for vaultId, vault := range result.Vaults {
		if vault.Open {
			return vaultId, vault.Path
		}
	}
	return "", ""
}
]] *)
Definition getDefaults (obsidianConfig : gostring) : prog (gostring * gostring) :=
    do content <- ([EvReadFile obsidianConfig],
                   match ReadFile w obsidianConfig with
                   | Some content => Done content
                   | None => Fatal (str "could not open " ++ obsidianConfig)
                   end);
    do result <- pure (match json_Unmarshal_config content with
                       | Some result => Done result
                       | None => Fatal (str "Could not parse " ++ content)
                       end);
    pure (Done
      match List.find (fun entry => Open entry.2) (range_Vaults w (Vaults result)) with
      | Some (vaultId, vault) => (vaultId, Path vault)
      | None => ([], [])
      end).

Definition ObsidianConfigFile : gostring :=
    str "~/Library/Application Support/obsidian/obsidian.json".

Definition usage (inv : Invocation) : gostring :=
    str "Usage: " ++ program inv
      ++ str " [--grep] --vault vaultname --path vaultpath searchterm".

  (** What [main] does once the vault name and the vault path are settled:
      the same in both variants. *)
Definition search_and_print (v : Variant) (inv : Invocation)
      (vaultName vaultPath : gostring) : prog gostring :=
    do searchTerm <- pure (if 1 <=? len (Args inv)
                           then Done (strings_Join (Args inv) (str " "))
                           else Fatal (usage inv));
    do directory <- pure (run_time (expandHome vaultPath));
    do results <- (if grepMode inv
                   then grepMatchingFiles v searchTerm directory vaultName
                   else findMatchingFiles v searchTerm directory vaultName);
    pure (Done (print_results results)).

  (** [main] of [osearch.go]; the value is what the run writes on standard
      output.
[[
	const ObsidianConfigFile = "~/Library/Application Support/obsidian/obsidian.json"
	defaultVault, defaultPath := getDefaults(expandHome(ObsidianConfigFile))
	if len(vaultName) == 0 {
		vaultName = defaultVault
	}
	if len(vaultPath) == 0 {
		vaultPath = defaultPath
	}
]] *)
Definition main (inv : Invocation) : prog gostring :=
    do config <- pure (run_time (expandHome ObsidianConfigFile));
    do defaults <- getDefaults config;
    let vaultName := if len (vaultName inv) =? 0 then defaults.1 else vaultName inv in
    let vaultPath := if len (vaultPath inv) =? 0 then defaults.2 else vaultPath inv in
    search_and_print WithRegistry inv vaultName vaultPath.

  (** [main] of the variant without registry lookup.
[[
	if len(vaultName) == 0 {
		log.Fatal("vault name must be specified with --vault")
	}
	if len(vaultPath) == 0 {
		log.Fatal("vault path must be specified with --path")
	}
]] *)
Definition main_flags_only (inv : Invocation) : prog gostring :=
    do _ <- pure (if len (vaultName inv) =? 0
                  then Fatal (str "vault name must be specified with --vault")
                  else Done tt);
    do _ <- pure (if len (vaultPath inv) =? 0
                  then Fatal (str "vault path must be specified with --path")
                  else Done tt);
    search_and_print FlagsOnly inv (vaultName inv) (vaultPath inv).

End Program.

(** The records of [records] that the loop turns into items when it starts
    with the paths of [seen] already found. *)
Fixpoint unseen (seen : gmap gostring bool) (records : list RipGrepResult)
  : list RipGrepResult :=
  match records with
  | [] => []
  | r :: rest =>
      match seen !! Data_Path_Text r with
      | Some _ => unseen seen rest
      | None => r :: unseen (<[Data_Path_Text r := true]> seen) rest
      end
  end.

(** The text of a record is within what a Go string holds. *)
Definition go_record (r : RipGrepResult) : Prop :=
  go_string (Data_Path_Text r) /\ go_string (Data_Lines_Text r).

(** ** A sample run, for the examples *)

(** A message of the content search, as it prints them with [--json]. *)
Definition rg_message (type path text : string) : gostring :=
  let q s := quote :: str s ++ [quote] in
  str "{" ++ q "type" ++ str ":" ++ q type ++ str "," ++ q "data" ++ str ":{"
    ++ q "path" ++ str ":{" ++ q "text" ++ str ":" ++ q path ++ str "},"
    ++ q "lines" ++ str ":{" ++ q "text" ++ str ":" ++ q text ++ str "}}}".

Definition sample_messages : list (string * string * string) :=
  [ ("begin", "notes/cats.md", "");
    ("match", "notes/cats.md", "all the facts we know about cats");
    ("match", "notes/cats.md", "more about cats");
    ("end", "notes/cats.md", "");
    ("match", "pets.md", "dogs, cats and a parrot") ]%string.

(** A decoder that knows the sample messages and fails on every other line. *)
Definition sample_Unmarshal (line : gostring) (r : RipGrepResult)
  : option RipGrepResult :=
  match List.find (fun m => bool_decide (rg_message m.1.1 m.1.2 m.2 = line))
          sample_messages with
  | Some m =>
      Some {| Rg_Type := str m.1.1; Data_Path_Text := str m.1.2;
              Data_Lines_Text := str m.2 |}
  | None => None
  end.

(** The sample messages, one per line, after a line that is not a message. *)
Definition sample_stream : gostring :=
  str "rg: some warning" ++ [newline] ++
  foldr (fun m out => rg_message m.1.1 m.1.2 m.2 ++ newline :: out) []
    sample_messages.

(** A machine on which the directory [/vaults/work] exists, every command
    prints [stdout], and the registry file holds [config] when it is there. *)
Definition sample_world (stdout : gostring) (config : option gostring) : World :=
  {| UserHomeDir := str "/Users/me";
     ReadFile := fun _ => config;
     Chdir := fun dir => bool_decide (dir = str "/vaults/work");
     Output := fun _ _ => (stdout, None);
     range_Vaults := map_to_list |}.

Definition sample_Join (dir rest : gostring) : gostring := dir ++ str "/" ++ rest.

(** A registry in which no vault is open. *)
Definition sample_config (content : gostring) : option ObsidianConfig :=
  Some {| Vaults := {[ str "work" :=
            {| Path := str "/vaults/work"; Ts := 1; Open := false |} ]} |}.

(** ** What a valid JSON document is *)

(** The grammar of RFC 8259 as a pushdown recogniser over the bytes of a
    text, with the unescaped characters of a string required to be
    well-formed UTF-8. *)
Inductive Container := InObject | InArray.

Inductive Mode :=
  | BeginValue                       (** a value is expected *)
  | BeginValueOrClose                (** after ['[']: a value or [']'] *)
  | BeginKeyOrClose                  (** after ['{']: a key or ['}'] *)
  | BeginKey                         (** after [','] in an object: a key *)
  | AfterKey                         (** after a key: [':'] *)
  | AfterValue                       (** after a value *)
  | InString (key : bool)            (** inside a string *)
  | InUtf8 (key : bool) (k : nat) (lo hi : Z)
      (** inside a string, [k] bytes of a UTF-8 sequence missing, the next
          one between [lo] and [hi] *)
  | InEscape (key : bool)            (** after a backslash *)
  | InHex (key : bool) (n : nat)     (** [n] hexadecimal digits missing *)
  | InLiteral (rest : gostring)      (** inside [true], [false] or [null] *)
  | NumMinus | NumZero | NumInt | NumDot | NumFrac | NumE | NumESign | NumExp.

Definition is_ws (c : ascii) : bool :=
  bool_decide (c = " "%char) || bool_decide (c = "009"%char)
  || bool_decide (c = "010"%char) || bool_decide (c = "013"%char).

Definition is_digit (c : ascii) : bool := between 48 c 57.

Definition is_hex_digit (c : ascii) : bool :=
  between 48 c 57 || between 97 c 102 || between 65 c 70.

Definition is_exp (c : ascii) : bool :=
  bool_decide (c = "e"%char) || bool_decide (c = "E"%char).

Definition begin_value (c : ascii) (stk : list Container)
  : option (Mode * list Container) :=
  if bool_decide (c = quote) then Some (InString false, stk)
  else if bool_decide (c = "{"%char) then Some (BeginKeyOrClose, InObject :: stk)
  else if bool_decide (c = "["%char) then Some (BeginValueOrClose, InArray :: stk)
  else if bool_decide (c = "-"%char) then Some (NumMinus, stk)
  else if bool_decide (c = "0"%char) then Some (NumZero, stk)
  else if between 49 c 57 then Some (NumInt, stk)
  else if bool_decide (c = "t"%char) then Some (InLiteral (str "rue"), stk)
  else if bool_decide (c = "f"%char) then Some (InLiteral (str "alse"), stk)
  else if bool_decide (c = "n"%char) then Some (InLiteral (str "ull"), stk)
  else None.

Definition after_value (c : ascii) (stk : list Container)
  : option (Mode * list Container) :=
  if is_ws c then Some (AfterValue, stk)
  else
    match stk with
    | InObject :: stk' =>
        if bool_decide (c = ","%char) then Some (BeginKey, stk)
        else if bool_decide (c = "}"%char) then Some (AfterValue, stk')
        else None
    | InArray :: stk' =>
        if bool_decide (c = ","%char) then Some (BeginValue, stk)
        else if bool_decide (c = "]"%char) then Some (AfterValue, stk')
        else None
    | [] => None
    end.

Definition json_step (st : Mode * list Container) (c : ascii)
  : option (Mode * list Container) :=
  let '(m, stk) := st in
  match m with
  | BeginValue => if is_ws c then Some st else begin_value c stk
  | BeginValueOrClose =>
      if is_ws c then Some st
      else if bool_decide (c = "]"%char) then
        match stk with InArray :: stk' => Some (AfterValue, stk') | _ => None end
      else begin_value c stk
  | BeginKeyOrClose =>
      if is_ws c then Some st
      else if bool_decide (c = "}"%char) then
        match stk with InObject :: stk' => Some (AfterValue, stk') | _ => None end
      else if bool_decide (c = quote) then Some (InString true, stk)
      else None
  | BeginKey =>
      if is_ws c then Some st
      else if bool_decide (c = quote) then Some (InString true, stk)
      else None
  | AfterKey =>
      if is_ws c then Some st
      else if bool_decide (c = ":"%char) then Some (BeginValue, stk)
      else None
  | AfterValue => after_value c stk
  | InString key =>
      if bool_decide (c = quote) then Some (if key then AfterKey else AfterValue, stk)
      else if bool_decide (c = backslash) then Some (InEscape key, stk)
      else if byte_val c <? 32 then None
      else if byte_val c <? 128 then Some st
      else
        match utf8_first (byte_val c) with
        | Some (sz, lo, hi) => Some (InUtf8 key (sz - 1) lo hi, stk)
        | None => None
        end
  | InUtf8 key k lo hi =>
      if between lo c hi then
        match k with
        | 0%nat => None
        | 1%nat => Some (InString key, stk)
        | S k' => Some (InUtf8 key k' 128 191, stk)
        end
      else None
  | InEscape key =>
      if bool_decide (c = quote) || bool_decide (c = backslash) || one_of c "/bfnrt"
      then Some (InString key, stk)
      else if bool_decide (c = "u"%char) then Some (InHex key 4, stk)
      else None
  | InHex key n =>
      if is_hex_digit c then
        match n with
        | 0%nat => None
        | 1%nat => Some (InString key, stk)
        | S n' => Some (InHex key n', stk)
        end
      else None
  | InLiteral rest =>
      match rest with
      | [d] => if bool_decide (c = d) then Some (AfterValue, stk) else None
      | d :: rest' => if bool_decide (c = d) then Some (InLiteral rest', stk) else None
      | [] => None
      end
  | NumMinus =>
      if bool_decide (c = "0"%char) then Some (NumZero, stk)
      else if between 49 c 57 then Some (NumInt, stk)
      else None
  | NumZero =>
      if bool_decide (c = "."%char) then Some (NumDot, stk)
      else if is_exp c then Some (NumE, stk)
      else after_value c stk
  | NumInt =>
      if is_digit c then Some (NumInt, stk)
      else if bool_decide (c = "."%char) then Some (NumDot, stk)
      else if is_exp c then Some (NumE, stk)
      else after_value c stk
  | NumDot => if is_digit c then Some (NumFrac, stk) else None
  | NumFrac =>
      if is_digit c then Some (NumFrac, stk)
      else if is_exp c then Some (NumE, stk)
      else after_value c stk
  | NumE =>
      if bool_decide (c = "+"%char) || bool_decide (c = "-"%char)
      then Some (NumESign, stk)
      else if is_digit c then Some (NumExp, stk)
      else None
  | NumESign => if is_digit c then Some (NumExp, stk) else None
  | NumExp => if is_digit c then Some (NumExp, stk) else after_value c stk
  end.

(** The recogniser over a text, from a state; [None] once a byte was not
    accepted. *)
Fixpoint json_run (s : gostring) (st : option (Mode * list Container))
  : option (Mode * list Container) :=
  match s with
  | [] => st
  | c :: s' => json_run s' (st ≫= fun st => json_step st c)
  end.

(** The text is one JSON value, with white space around it at most. *)
Definition json_valid (s : gostring) : bool :=
  match json_run s (Some (BeginValue, [])) with
  | Some (AfterValue, []) | Some (NumZero, []) | Some (NumInt, [])
  | Some (NumFrac, []) | Some (NumExp, []) => true
  | _ => false
  end.

(** ** The serialised result set after the replacement *)

(** The escaped ampersand, [&]. *)
Definition amp_escape : gostring := backslash :: str "u0026".

(** The replacement [main] applies to the serialised text. *)
Abbreviation unamp s := (replace_from 0 s amp_escape (str "&")).

(** [p] occurs nowhere in [s]. *)
Definition free_of (p s : gostring) : Prop := forall i, ~ occurs_at s p i.

(** No text of the item contains the six bytes of the escaped ampersand. *)
Definition clean_item (r : AlfredResult) : Prop :=
  free_of amp_escape (Type_ r) /\ free_of amp_escape (Title r) /\
  free_of amp_escape (Subtitle r) /\ free_of amp_escape (Arg r).

(** The bytes written as they are in the text that is expected on standard
    output: those of [htmlSafeSet], and the ampersand. *)
Definition amp_safe (b : ascii) : bool :=
  htmlSafeSet b || bool_decide (b = "&"%char).

(** The document as a sequence of pieces: fixed text of the layout, and
    the strings that are written as JSON string literals. *)
Inductive piece :=
  | Layout (text : gostring)
  | Literal (s : gostring).

Definition piece_text (safe : ascii -> bool) (p : piece) : gostring :=
  match p with
  | Layout text => text
  | Literal s => json_string safe s
  end.

Fixpoint render (safe : ascii -> bool) (ps : list piece) : gostring :=
  match ps with
  | [] => []
  | p :: ps' => piece_text safe p ++ render safe ps'
  end.

Definition item_pieces (r : AlfredResult) : list piece :=
  [ Layout (str "{" ++ newline :: str "      "); Literal (str "type");
    Layout (str ": "); Literal (Type_ r);
    Layout (str "," ++ newline :: str "      "); Literal (str "title");
    Layout (str ": "); Literal (Title r);
    Layout (str "," ++ newline :: str "      "); Literal (str "subtitle");
    Layout (str ": "); Literal (Subtitle r);
    Layout (str "," ++ newline :: str "      "); Literal (str "arg");
    Layout (str ": "); Literal (Arg r);
    Layout (newline :: str "    " ++ str "}") ].

Fixpoint items_pieces (l : list AlfredResult) : list piece :=
  match l with
  | [] => []
  | [r] => Layout (newline :: str "    ") :: item_pieces r
  | r :: rest =>
      Layout (newline :: str "    ") :: item_pieces r
        ++ Layout (str ",") :: items_pieces rest
  end.

Definition array_pieces (items : results_slice) : list piece :=
  match items with
  | None => [Layout (str "null")]
  | Some [] => [Layout (str "[]")]
  | Some l => Layout (str "[") :: items_pieces l ++ [Layout (newline :: str "  " ++ str "]")]
  end.

Definition document_pieces (results : AlfredResults) : list piece :=
  Layout (str "{" ++ newline :: str "  ") :: Literal (str "items")
    :: Layout (str ": ") :: array_pieces (Items results)
    ++ [Layout (newline :: str "}")].

(** A piece the replacement of the escaped ampersand cannot damage. *)
Definition piece_clean (p : piece) : Prop :=
  match p with
  | Layout text => Forall (fun c => c <> backslash) text
  | Literal s => free_of amp_escape s
  end.

(** The mode of the recogniser after a string literal read in mode [m]. *)
Definition after_literal (m : Mode) : option Mode :=
  match m with
  | BeginValue | BeginValueOrClose => Some AfterValue
  | BeginKey | BeginKeyOrClose => Some AfterKey
  | _ => None
  end.

(** The recogniser over pieces: it reads the layout, and takes a literal
    for a string. *)
Fixpoint run_pieces (ps : list piece) (st : option (Mode * list Container))
  : option (Mode * list Container) :=
  match ps with
  | [] => st
  | Layout text :: ps' => run_pieces ps' (json_run text st)
  | Literal _ :: ps' =>
      run_pieces ps'
        (st ≫= fun st => (fun m => (m, st.2)) <$> after_literal st.1)
  end.

(** The next [k] bytes of [src] continue a UTF-8 sequence: the first lies
    between [lo] and [hi], the others are continuation bytes. *)
Fixpoint conts (k : nat) (lo hi : Z) (src : gostring) : Prop :=
  match k with
  | O => True
  | S k' =>
      match src with
      | [] => False
      | b :: rest =>
          between lo b hi = true /\ 128 <= byte_val b /\ conts k' 128 191 rest
      end
  end.

(** The bytes a safe set may hold: printable ASCII other than the quote and
    the backslash. *)
Definition safe_ok (safe : ascii -> bool) : Prop :=
  forall b, safe b = true ->
    between 32 b 127 = true /\ b <> quote /\ b <> backslash.

(** ** Notions for the properties of a whole run *)

(** How often the byte [c] occurs in [s]. *)
Definition count_byte (c : ascii) (s : gostring) : nat :=
  length (filter (fun d => d = c) s).

(** What the file-finder prints with [-0] for a list of paths: every path
    followed by a null byte. *)
Definition print0 (paths : list gostring) : gostring :=
  concat (map (fun path => path ++ ["000"%char]) paths).

(** The items stand one to one for the paths: kind, title and target. *)
Definition items_of_paths (vault : gostring) (paths : list gostring)
    (items : list AlfredResult) : Prop :=
  Forall2 (fun path item =>
             Type_ item = str "default" /\
             withoutMd (filepath_Base path) = Some (Title item) /\
             Arg item = asObsidianUrl path vault) paths items.

(** What every iteration of the loop of [grepMatchingFiles] keeps: the
    results hold one item per path of [alreadyFound], in the order in which
    the paths were found, and the slice is nil as long as no path was
    found. *)
Definition grep_invariant (vault : gostring) (paths : list gostring)
    (st : GrepState) : Prop :=
  NoDup paths /\
  items_of_paths vault paths (elems (results st)) /\
  (forall path, path ∈ paths <-> is_Some (alreadyFound st !! path)) /\
  (results st = None <-> paths = []).

(** The document printed for the nil slice. *)
Definition null_document : gostring :=
  str "{" ++ newline :: str "  " ++ quote :: str "items" ++ quote :: str ": null"
    ++ newline :: str "}" ++ [newline].

(** No byte of the text is a backslash. *)
Definition no_backslash_in (s : gostring) : Prop :=
  Forall (fun c => c <> backslash) s.

(** A machine like [sample_world] without a registry, on which every command
    prints [stdout] and then fails with [err]. *)
Definition failing_world (stdout err : gostring) : World :=
  {| UserHomeDir := str "/Users/me";
     ReadFile := fun _ => None;
     Chdir := fun dir => bool_decide (dir = str "/vaults/work");
     Output := fun _ _ => (stdout, Some err);
     range_Vaults := map_to_list |}.

(** A registry with two vaults, the second one open. *)
Definition open_registry : ObsidianConfig :=
  {| Vaults :=
    {[ str "a1" := {| Path := str "/vaults/old"; Ts := 1; Open := false |};
       str "b2" := {| Path := str "/vaults/work"; Ts := 2; Open := true |} ]} |}.

Definition open_config (content : gostring) : option ObsidianConfig :=
  Some open_registry.

(** The registry file on the sample machine. *)
Definition sample_registry : gostring :=
  str "/Users/me/Library/Application Support/obsidian/obsidian.json".

(** A command line of the sample runs. *)
Definition sample_invocation (grep : bool) (name path : string)
    (args : list string) : Invocation :=
  {| program := str "osearch"; grepMode := grep; vaultName := str name;
     vaultPath := str path; Args := str <$> args |}.

(** * Properties *)

(** ** Machine integers and slices *)

Lemma wrap_in_int z : in_int z -> wrap z = z.
Proof.
  unfold in_int, wrap, min_int, max_int. intros Hz.
  rewrite Z.mod_small; lia.
Qed.

Lemma len_nonneg {A} (s : list A) : 0 <= len s.
Proof. unfold len. lia. Qed.

Lemma len_app {A} (s t : list A) : len (s ++ t) = len s + len t.
Proof. unfold len. rewrite length_app. lia. Qed.

Lemma slice_Some s lo hi :
  0 <= lo -> lo <= hi -> hi <= len s ->
  slice s lo hi = Some (take (Z.to_nat (hi - lo)) (drop (Z.to_nat lo) s)).
Proof.
  intros H1 H2 H3. unfold slice.
  rewrite (proj2 (Z.leb_le _ _) H1), (proj2 (Z.leb_le _ _) H2),
    (proj2 (Z.leb_le _ _) H3). reflexivity.
Qed.

Lemma slice_prefix s (k : nat) :
  (k <= length s)%nat -> slice s 0 (Z.of_nat k) = Some (take k s).
Proof.
  intros Hk. rewrite slice_Some; unfold len; try lia.
  rewrite Z.sub_0_r, Nat2Z.id. reflexivity.
Qed.

Lemma slice_from_Some s (k : nat) :
  (k <= length s)%nat -> slice_from s (Z.of_nat k) = Some (drop k s).
Proof.
  intros Hk. unfold slice_from. rewrite slice_Some; unfold len; try lia.
  rewrite Nat2Z.id. f_equal. apply take_ge. rewrite length_drop. lia.
Qed.

(** ** The [strings] package against its documentation *)

Lemma strings_HasPrefix_spec s p :
  strings_HasPrefix s p = true <-> p `prefix_of` s.
Proof.
  revert s. induction p as [|c p IH]; intros [|d s]; simpl.
  - split; [intros _; apply prefix_nil | reflexivity].
  - split; [intros _; apply prefix_nil | reflexivity].
  - split; [discriminate | intros Hp; apply prefix_nil_inv in Hp; discriminate].
  - destruct (decide (d = c)) as [Heq|Hne]; [subst d|].
    + rewrite IH. split; [apply prefix_cons | apply prefix_cons_inv_2].
    + split; [discriminate | intros Hp; apply prefix_cons_inv_1 in Hp; congruence].
Qed.

Lemma strings_HasPrefix_false s p :
  strings_HasPrefix s p = false <-> ~ p `prefix_of` s.
Proof.
  rewrite <- strings_HasPrefix_spec. destruct (strings_HasPrefix s p); split; congruence.
Qed.

Lemma occurs_at_0 s p : occurs_at s p 0 <-> p `prefix_of` s.
Proof. unfold occurs_at. simpl. split; [tauto | split; [lia | assumption]]. Qed.

Lemma occurs_at_S c s p i : occurs_at (c :: s) p (S i) <-> occurs_at s p i.
Proof. unfold occurs_at. simpl. split; intros [H1 H2]; split; try lia; assumption. Qed.

Lemma index_of_nil p :
  index_of [] p = if strings_HasPrefix [] p then Some 0%nat else None.
Proof. reflexivity. Qed.

Lemma index_of_cons c s p :
  index_of (c :: s) p =
  if strings_HasPrefix (c :: s) p then Some 0%nat else S <$> index_of s p.
Proof. reflexivity. Qed.

Lemma index_of_Some s p i :
  index_of s p = Some i ->
  occurs_at s p i /\ forall j, (j < i)%nat -> ~ occurs_at s p j.
Proof.
  revert i. induction s as [|c s IH]; intros i.
  - rewrite index_of_nil.
    destruct (strings_HasPrefix [] p) eqn:Hp; [|discriminate].
    intros [= <-]. split; [|lia].
    apply occurs_at_0, strings_HasPrefix_spec, Hp.
  - rewrite index_of_cons. destruct (strings_HasPrefix (c :: s) p) eqn:Hp.
    + intros [= <-]. split; [|lia].
      apply occurs_at_0, strings_HasPrefix_spec, Hp.
    + destruct (index_of s p) as [k|] eqn:Hk; simpl; [|discriminate].
      intros [= <-]. destruct (IH k eq_refl) as [H1 H2]. split.
      * apply occurs_at_S, H1.
      * intros [|j] Hj.
        -- rewrite occurs_at_0. apply strings_HasPrefix_false, Hp.
        -- rewrite occurs_at_S. apply H2. lia.
Qed.

Lemma index_of_None s p : index_of s p = None -> forall i, ~ occurs_at s p i.
Proof.
  induction s as [|c s IH].
  - rewrite index_of_nil.
    destruct (strings_HasPrefix [] p) eqn:Hp; [discriminate|].
    intros _ i [Hi Hpre]. simpl in Hi. assert (i = 0)%nat as -> by lia.
    apply strings_HasPrefix_false in Hp. apply Hp, Hpre.
  - rewrite index_of_cons.
    destruct (strings_HasPrefix (c :: s) p) eqn:Hp; [discriminate|].
    destruct (index_of s p) eqn:Hk; simpl; [discriminate|].
    intros _ [|i].
    + rewrite occurs_at_0. apply strings_HasPrefix_false, Hp.
    + rewrite occurs_at_S. apply IH. reflexivity.
Qed.

(** [strings.Index] returns the first offset at which [p] occurs, and -1
    exactly when [p] occurs nowhere. *)
Lemma strings_Index_first s p (i : nat) :
  strings_Index s p = Z.of_nat i <->
  occurs_at s p i /\ forall j, (j < i)%nat -> ~ occurs_at s p j.
Proof.
  unfold strings_Index. split.
  - destruct (index_of s p) as [k|] eqn:Hk; simpl; [|lia].
    intros Hi. apply Nat2Z.inj in Hi. subst k. apply index_of_Some, Hk.
  - intros [H1 H2]. destruct (index_of s p) as [k|] eqn:Hk; simpl.
    + apply index_of_Some in Hk as [K1 K2].
      destruct (Nat.lt_trichotomy k i) as [Hlt|[->|Hlt]]; [|reflexivity|].
      * exfalso. apply (H2 k Hlt K1).
      * exfalso. apply (K2 i Hlt H1).
    + exfalso. apply (index_of_None _ _ Hk i H1).
Qed.

Lemma strings_Index_absent s p :
  strings_Index s p = -1 <-> forall i, ~ occurs_at s p i.
Proof.
  unfold strings_Index. split.
  - destruct (index_of s p) as [k|] eqn:Hk; simpl; [lia|].
    intros _. apply index_of_None, Hk.
  - intros H. destruct (index_of s p) as [k|] eqn:Hk; simpl; [|reflexivity].
    apply index_of_Some in Hk as [K1 _]. exfalso. apply (H k K1).
Qed.

Lemma strings_Index_range s p : -1 <= strings_Index s p <= len s.
Proof.
  unfold strings_Index. destruct (index_of s p) as [k|] eqn:Hk; simpl.
  - apply index_of_Some in Hk as [[K1 _] _]. unfold len. lia.
  - pose proof (len_nonneg s). lia.
Qed.

Example fruncate_fox :
  fruncate (str "The quick brown fox jumps over the lazy dog") (str "lazy") 10 5
  = Some (str " over the lazy dog").
Proof. vm_compute. reflexivity. Qed.

Lemma last_index_of_nil p :
  last_index_of [] p = if strings_HasPrefix [] p then Some 0%nat else None.
Proof. reflexivity. Qed.

Lemma last_index_of_cons c s p :
  last_index_of (c :: s) p =
  match last_index_of s p with
  | Some i => Some (S i)
  | None => if strings_HasPrefix (c :: s) p then Some 0%nat else None
  end.
Proof. reflexivity. Qed.

Lemma last_index_of_Some s p i :
  last_index_of s p = Some i ->
  occurs_at s p i /\ forall j, (i < j)%nat -> ~ occurs_at s p j.
Proof.
  revert i. induction s as [|c s IH]; intros i.
  - rewrite last_index_of_nil.
    destruct (strings_HasPrefix [] p) eqn:Hp; [|discriminate].
    intros [= <-]. split.
    + apply occurs_at_0, strings_HasPrefix_spec, Hp.
    + intros j Hj [Hlen _]. simpl in Hlen. lia.
  - rewrite last_index_of_cons.
    destruct (last_index_of s p) as [k|] eqn:Hk.
    + intros [= <-]. destruct (IH k eq_refl) as [H1 H2]. split.
      * apply occurs_at_S, H1.
      * intros [|j] Hj; [lia|]. rewrite occurs_at_S. apply H2. lia.
    + destruct (strings_HasPrefix (c :: s) p) eqn:Hp; [|discriminate].
      intros [= <-]. split.
      * apply occurs_at_0, strings_HasPrefix_spec, Hp.
      * intros [|j] Hj; [lia|]. rewrite occurs_at_S.
        clear IH Hp. revert j Hj. induction s as [|d s IHs]; intros j Hj.
        -- rewrite last_index_of_nil in Hk.
           destruct (strings_HasPrefix [] p) eqn:Hp; [discriminate|].
           intros [Hlen Hpre]. simpl in Hlen. assert (j = 0)%nat as -> by lia.
           apply strings_HasPrefix_false in Hp. apply Hp, Hpre.
        -- rewrite last_index_of_cons in Hk.
           destruct (last_index_of s p) eqn:Hk'; [discriminate|].
           destruct (strings_HasPrefix (d :: s) p) eqn:Hp; [discriminate|].
           destruct j as [|j].
           ++ rewrite occurs_at_0. apply strings_HasPrefix_false, Hp.
           ++ rewrite occurs_at_S. apply IHs; [reflexivity | lia].
Qed.

Lemma last_index_of_None s p :
  last_index_of s p = None -> forall i, ~ occurs_at s p i.
Proof.
  induction s as [|c s IH].
  - rewrite last_index_of_nil.
    destruct (strings_HasPrefix [] p) eqn:Hp; [discriminate|].
    intros _ i [Hi Hpre]. simpl in Hi. assert (i = 0)%nat as -> by lia.
    apply strings_HasPrefix_false in Hp. apply Hp, Hpre.
  - rewrite last_index_of_cons.
    destruct (last_index_of s p) eqn:Hk; [discriminate|].
    destruct (strings_HasPrefix (c :: s) p) eqn:Hp; [discriminate|].
    intros _ [|i].
    + rewrite occurs_at_0. apply strings_HasPrefix_false, Hp.
    + rewrite occurs_at_S. apply IH. reflexivity.
Qed.

(** [strings.LastIndex] returns the last offset at which [p] occurs, and -1
    exactly when [p] occurs nowhere. *)
Lemma strings_LastIndex_last s p (i : nat) :
  strings_LastIndex s p = Z.of_nat i <->
  occurs_at s p i /\ forall j, (i < j)%nat -> ~ occurs_at s p j.
Proof.
  unfold strings_LastIndex. split.
  - destruct (last_index_of s p) as [k|] eqn:Hk; simpl; [|lia].
    intros Hi. apply Nat2Z.inj in Hi. subst k. apply last_index_of_Some, Hk.
  - intros [H1 H2]. destruct (last_index_of s p) as [k|] eqn:Hk; simpl.
    + apply last_index_of_Some in Hk as [K1 K2].
      destruct (Nat.lt_trichotomy k i) as [Hlt|[->|Hlt]]; [|reflexivity|].
      * exfalso. apply (K2 i Hlt H1).
      * exfalso. apply (H2 k Hlt K1).
    + exfalso. apply (last_index_of_None _ _ Hk i H1).
Qed.

Lemma strings_LastIndex_absent s p :
  strings_LastIndex s p = -1 <-> forall i, ~ occurs_at s p i.
Proof.
  unfold strings_LastIndex. split.
  - destruct (last_index_of s p) as [k|] eqn:Hk; simpl; [lia|].
    intros _. apply last_index_of_None, Hk.
  - intros H. destruct (last_index_of s p) as [k|] eqn:Hk; simpl; [|reflexivity].
    apply last_index_of_Some in Hk as [K1 _]. exfalso. apply (H k K1).
Qed.

(** A one-byte pattern occurs exactly where that byte is. *)
Lemma occurs_at_byte s c i : occurs_at s [c] i <-> s !! i = Some c.
Proof.
  unfold occurs_at. revert i. induction s as [|d s IH]; intros i.
  - rewrite drop_nil. split.
    + intros [_ Hp]. apply prefix_nil_inv in Hp. discriminate.
    + rewrite lookup_nil. discriminate.
  - destruct i as [|i]; simpl.
    + split.
      * intros [_ Hp]. apply prefix_cons_inv_1 in Hp. congruence.
      * intros [= ->]. split; [lia|]. apply prefix_cons, prefix_nil.
    + rewrite <- IH. split; intros [H1 H2]; split; try lia; assumption.
Qed.

Lemma strings_LastIndex_byte_range s c :
  -1 <= strings_LastIndex s [c] < len s.
Proof.
  unfold strings_LastIndex. destruct (last_index_of s [c]) as [k|] eqn:Hk; simpl.
  - apply last_index_of_Some in Hk as [K1 _]. apply occurs_at_byte in K1.
    apply lookup_lt_Some in K1. unfold len. lia.
  - pose proof (len_nonneg s). lia.
Qed.

Lemma strings_LastIndex_take s c (cut b : nat) :
  (cut <= length s)%nat ->
  strings_LastIndex (take cut s) [c] = Z.of_nat b <-> last_before s c cut b.
Proof.
  intros Hcut. rewrite strings_LastIndex_last. unfold last_before.
  rewrite occurs_at_byte. split.
  - intros [H1 H2].
    assert (b < cut)%nat as Hb.
    { apply lookup_lt_Some in H1. rewrite length_take in H1. lia. }
    split; [exact Hb|]. split.
    + rewrite lookup_take_lt in H1 by exact Hb. exact H1.
    + intros j Hj Hs. apply (H2 j); [lia|]. apply occurs_at_byte.
      rewrite lookup_take_lt by lia. exact Hs.
  - intros (Hb & H1 & H2). split.
    + rewrite lookup_take_lt by exact Hb. exact H1.
    + intros j Hj Ho. apply occurs_at_byte in Ho.
      assert (j < cut)%nat as Hjc.
      { apply lookup_lt_Some in Ho. rewrite length_take in Ho. lia. }
      rewrite lookup_take_lt in Ho by exact Hjc. apply (H2 j); [lia | exact Ho].
Qed.

Lemma strings_LastIndex_take_absent s c (cut : nat) :
  (cut <= length s)%nat ->
  strings_LastIndex (take cut s) [c] = -1 <-> forall b, ~ last_before s c cut b.
Proof.
  intros Hcut. split.
  - intros H b Hb. apply strings_LastIndex_take in Hb; [lia | exact Hcut].
  - intros H. pose proof (strings_LastIndex_byte_range (take cut s) c) as Hr.
    destruct (Z.eq_dec (strings_LastIndex (take cut s) [c]) (-1)) as [|Hne];
      [assumption|].
    exfalso. apply (H (Z.to_nat (strings_LastIndex (take cut s) [c]))).
    apply strings_LastIndex_take; [exact Hcut | lia].
Qed.

(** ** [fruncate] *)

(** The one computation of [fruncate] when the term lies further than [n]
    bytes into the line: no slice is out of range and no subtraction wraps. *)
Lemma fruncate_far s p n m (i : nat) :
  go_string s -> 0 <= n -> 0 <= m <= max_int ->
  strings_Index s p = Z.of_nat i -> n < Z.of_nat i ->
  let cut := (i - Z.to_nat n)%nat in
  let b := strings_LastIndex (take cut s) (str " ") in
  fruncate s p n m =
  Some (drop (if (0 <? b) && (Z.of_nat cut - m <=? b)
              then Z.to_nat (b + 1) else cut) s).
Proof.
  intros Hs Hn Hm Hidx Hlt cut b.
  pose proof (strings_Index_range s p) as Hr. rewrite Hidx in Hr.
  unfold go_string in Hs.
  assert (Z.of_nat cut = Z.of_nat i - n) as Hcut by (unfold cut; lia).
  assert (cut <= length s)%nat as Hcl by (unfold len in Hr; lia).
  unfold fruncate. rewrite Hidx.
  rewrite (proj2 (Z.ltb_lt _ _) Hlt).
  unfold int_sub. rewrite (wrap_in_int (Z.of_nat i - n))
    by (unfold in_int, min_int, max_int in *; lia).
  rewrite (wrap_in_int (Z.of_nat i - n - m))
    by (unfold in_int, min_int, max_int in *; lia).
  rewrite <- Hcut. rewrite slice_prefix by exact Hcl. simpl.
  pose proof (strings_LastIndex_byte_range (take cut s) " "%char) as Hb.
  change (strings_LastIndex (take cut s) [" "%char]) with b in Hb |- *.
  unfold len in Hb. rewrite length_take in Hb.
  clearbody b. clearbody cut.
  destruct ((0 <? b) && (Z.of_nat cut - m <=? b)) eqn:Hc.
  - unfold int_add. rewrite wrap_in_int
      by (unfold in_int, min_int, max_int in *; lia).
    apply andb_true_iff in Hc as [Hc _]. apply Z.ltb_lt in Hc.
    rewrite <- (Z2Nat.id (b + 1)) at 1 by lia.
    apply slice_from_Some. lia.
  - apply slice_from_Some. exact Hcl.
Qed.

Lemma strings_HasSuffix_spec s suffix :
  strings_HasSuffix s suffix = true <-> suffix `suffix_of` s.
Proof.
  unfold strings_HasSuffix, len.
  rewrite andb_true_iff, Z.leb_le, bool_decide_eq_true. split.
  - intros [Hlen Hd]. exists (take (length s - length suffix) s).
    rewrite <- Hd at 2. symmetry. apply take_drop.
  - intros [k ->]. rewrite length_app. split; [lia|].
    replace (length k + length suffix - length suffix)%nat with (length k) by lia.
    apply drop_app_length.
Qed.

(** On the configured policy [fruncate] never slices out of range. *)
Lemma fruncate_total s p :
  go_string s -> exists r, fruncate s p 10 5 = Some r.
Proof.
  intros Hgo. destruct (Z.ltb_spec 10 (strings_Index s p)) as [Hlt|Hge].
  - pose proof (strings_Index_range s p) as Hr.
    pose proof (fruncate_far s p 10 5 (Z.to_nat (strings_Index s p)) Hgo
                  ltac:(lia) ltac:(unfold max_int; lia) ltac:(lia) ltac:(lia)) as Hf.
    cbv zeta in Hf. eexists. exact Hf.
  - exists s. unfold fruncate. rewrite (proj2 (Z.ltb_ge _ _) Hge). reflexivity.
Qed.

(** ** Titles: [withoutMd] *)

Lemma withoutMd_md base :
  go_string (base ++ str ".md") -> withoutMd (base ++ str ".md") = Some base.
Proof.
  intros Hgo. unfold withoutMd.
  rewrite (proj2 (strings_HasSuffix_spec _ _)) by (exists base; reflexivity).
  unfold go_string in Hgo. rewrite len_app in *. change (len (str ".md")) with 3 in *.
  pose proof (len_nonneg base) as Hb.
  unfold int_sub. rewrite wrap_in_int
    by (unfold in_int, min_int, max_int in *; lia).
  replace (len base + 3 - 3) with (Z.of_nat (length base)) by (unfold len; lia).
  rewrite slice_prefix by (rewrite length_app; lia).
  f_equal. apply take_app_length.
Qed.

Lemma withoutMd_other filename :
  ~ str ".md" `suffix_of` filename -> withoutMd filename = Some filename.
Proof.
  intros Hno. unfold withoutMd.
  destruct (strings_HasSuffix filename (str ".md")) eqn:Hs; [|reflexivity].
  apply strings_HasSuffix_spec in Hs. contradiction.
Qed.

(** C7. A base filename that ends in ".md" loses exactly these three trailing
    bytes; any other base filename is the title unchanged. *)
Theorem withoutMd_title (filename : gostring) :
  go_string filename ->
  (forall base, filename = base ++ str ".md" -> withoutMd filename = Some base) /\
  (~ str ".md" `suffix_of` filename -> withoutMd filename = Some filename).
Proof.
  intros Hgo. split.
  - intros base ->. apply withoutMd_md, Hgo.
  - apply withoutMd_other.
Qed.

Lemma withoutMd_title_witness :
  withoutMd (str "Notes.md") = Some (str "Notes") /\
  withoutMd (str "plan.txt") = Some (str "plan.txt").
Proof.
  split.
  - apply (proj1 (withoutMd_title (str "Notes.md") ltac:(vm_compute; congruence))).
    reflexivity.
  - apply (proj2 (withoutMd_title (str "plan.txt") ltac:(vm_compute; congruence))).
    intros [k Hk]. apply (f_equal (@rev ascii)) in Hk.
    rewrite rev_app_distr in Hk. discriminate Hk.
Defined.

(** ** Truncation: [fruncate] on the configured policy N=10, M=5 *)

(** C8. When the first occurrence of the term is at index 10 or less, or the
    term is absent (index -1), the line is returned unmodified. *)
Theorem fruncate_near_start (s p : gostring) :
  strings_Index s p <= 10 -> fruncate s p 10 5 = Some s.
Proof.
  intros H. unfold fruncate.
  rewrite (proj2 (Z.ltb_ge _ _) H). reflexivity.
Qed.

Lemma fruncate_near_start_witness :
  fruncate (str "the lazy dog sleeps in the sun") (str "lazy") 10 5
  = Some (str "the lazy dog sleeps in the sun") /\
  fruncate (str "nothing to see in this line") (str "zebra") 10 5
  = Some (str "nothing to see in this line").
Proof.
  split; apply fruncate_near_start; vm_compute; congruence.
Defined.

(** C1, as stated, fails on a line that starts with a space: the claim
    accepts the space at position 0 as the break, the code does not. *)
Lemma fruncate_leading_space_counterexample :
  let s := str " Introduction: term" in
  let p := str "term" in
  strings_Index s p = 15 /\
  last_before s " " (15 - 10) 0 /\
  (15 - 10 - 5 <= 0)%Z /\
  fruncate s p 10 5 = Some (str "oduction: term") /\
  fruncate s p 10 5 <> Some (drop 1 s).
Proof.
  cbv zeta. split; [reflexivity|]. split.
  - split; [lia|]. split; [reflexivity|].
    intros j Hj. do 5 (destruct j as [|j]; [simpl; try lia; congruence|]). lia.
  - split; [lia|]. split; [reflexivity|]. vm_compute. congruence.
Qed.

(** C1, amended. With the first occurrence of the term at index i > 10 and
    cut = i - 10: the line is cut just after the last space before [cut]
    when that space lies at a position that is at least cut - 5 and is not
    position 0; in every other case it is cut exactly at [cut]. *)
Theorem fruncate_word_break (s p : gostring) (i : nat) :
  go_string s ->
  strings_Index s p = Z.of_nat i ->
  (10 < i)%nat ->
  (forall b, last_before s " " (i - 10) b ->
     (0 < b)%nat -> Z.of_nat (i - 10) - 5 <= Z.of_nat b ->
     fruncate s p 10 5 = Some (drop (S b) s)) /\
  ((forall b, last_before s " " (i - 10) b ->
      b = 0%nat \/ Z.of_nat b < Z.of_nat (i - 10) - 5) ->
   fruncate s p 10 5 = Some (drop (i - 10) s)).
Proof.
  intros Hgo Hidx Hi.
  pose proof (strings_Index_range s p) as Hr. rewrite Hidx in Hr.
  assert (i - 10 <= length s)%nat as Hcl by (unfold len in Hr; lia).
  pose proof (fruncate_far s p 10 5 i Hgo ltac:(lia)
                ltac:(unfold max_int; lia) Hidx ltac:(lia)) as Hf.
  cbv zeta in Hf. change (Z.to_nat 10) with 10%nat in Hf.
  change (str " ") with [" "%char] in Hf.
  split.
  - intros b Hb Hpos Hwin.
    apply (strings_LastIndex_take s " " (i - 10) b Hcl) in Hb.
    rewrite Hb in Hf. rewrite Hf.
    rewrite (proj2 (Z.ltb_lt _ _)) by lia.
    rewrite (proj2 (Z.leb_le _ _)) by lia. simpl.
    do 2 f_equal. lia.
  - intros Hnone. rewrite Hf.
    destruct (decide (strings_LastIndex (take (i - 10) s) [" "%char] = -1))
      as [Habs|Hfound].
    + rewrite Habs. reflexivity.
    + pose proof (strings_LastIndex_byte_range (take (i - 10) s) " "%char) as Hb.
      set (z := strings_LastIndex (take (i - 10) s) [" "%char]) in *.
      assert (z = Z.of_nat (Z.to_nat z)) as Hz by lia.
      apply (strings_LastIndex_take s " " (i - 10) _ Hcl) in Hz.
      destruct (Hnone _ Hz) as [H0|Hfar].
      * rewrite (proj2 (Z.ltb_ge 0 z)) by lia. reflexivity.
      * rewrite (proj2 (Z.leb_gt _ z)) by lia. rewrite andb_false_r. reflexivity.
Qed.

Lemma fruncate_word_break_witness :
  fruncate (str "alpha beta gamma delta epsilon") (str "epsilon") 10 5
  = Some (str "gamma delta epsilon") /\
  fruncate (str "The quick brown fox jumps over the lazy dog") (str "lazy") 10 5
  = Some (str " over the lazy dog").
Proof.
  split.
  - apply (proj1 (fruncate_word_break
                    (str "alpha beta gamma delta epsilon") (str "epsilon") 23
                    ltac:(vm_compute; congruence) eq_refl ltac:(lia)) 10%nat).
    + split; [simpl; lia|]. split; [reflexivity|].
      intros j Hj. simpl in Hj.
      assert (j = 11 \/ j = 12)%nat as [-> | ->] by lia; simpl; congruence.
    + lia.
    + simpl. lia.
  - apply (proj2 (fruncate_word_break
                    (str "The quick brown fox jumps over the lazy dog")
                    (str "lazy") 35
                    ltac:(vm_compute; congruence) eq_refl ltac:(lia))).
    intros b (Hb & Hsp & Hlast). right. simpl in *.
    destruct (decide (b <= 19)%nat) as [|Hgt]; [lia|].
    exfalso.
    assert (b = 20 \/ b = 21 \/ b = 22 \/ b = 23 \/ b = 24)%nat
      as [-> | [-> | [-> | [-> | ->]]]] by lia; simpl in Hsp; congruence.
Defined.

(** C10. For non-negative [n] and [m], [fruncate] returns a suffix of the
    line, never longer than the line, and the first occurrence of the term
    lies wholly inside the returned suffix. *)
Theorem fruncate_suffix (s p : gostring) (n m : Z) :
  go_string s -> 0 <= n -> 0 <= m <= max_int ->
  exists r, fruncate s p n m = Some r /\
    r `suffix_of` s /\ (length r <= length s)%nat /\
    forall i : nat, strings_Index s p = Z.of_nat i ->
      exists k : nat, (k <= i)%nat /\ r = drop k s /\ occurs_at r p (i - k).
Proof.
  intros Hgo Hn Hm.
  assert (forall k i : nat, strings_Index s p = Z.of_nat i -> (k <= i)%nat ->
            occurs_at (drop k s) p (i - k)) as Hocc.
  { intros k i Hidx Hk. apply strings_Index_first in Hidx as [[Hlen Hpre] _].
    split.
    - rewrite length_drop. lia.
    - rewrite drop_drop. replace (k + (i - k))%nat with i by lia. exact Hpre. }
  destruct (Z.ltb_spec n (strings_Index s p)) as [Hlt|Hge].
  - pose proof (strings_Index_range s p) as Hr.
    set (i := Z.to_nat (strings_Index s p)).
    assert (strings_Index s p = Z.of_nat i) as Hidx by (unfold i; lia).
    pose proof (fruncate_far s p n m i Hgo Hn Hm Hidx ltac:(lia)) as Hf.
    cbv zeta in Hf.
    pose proof (strings_LastIndex_byte_range
                  (take (i - Z.to_nat n) s) " "%char) as Hb.
    change [" "%char] with (str " ") in Hb.
    unfold len in Hb. rewrite length_take in Hb.
    set (b := strings_LastIndex (take (i - Z.to_nat n) s) (str " ")) in *.
    set (k := if (0 <? b) && (Z.of_nat (i - Z.to_nat n) - m <=? b)
              then Z.to_nat (b + 1) else (i - Z.to_nat n)%nat) in *.
    assert (k <= i)%nat as Hk.
    { unfold k. destruct ((0 <? b) && _); lia. }
    exists (drop k s). split; [exact Hf|]. split; [apply suffix_drop|].
    split; [rewrite length_drop; lia|].
    intros i' Hi'. assert (i' = i) as -> by lia.
    exists k. split; [exact Hk|]. split; [reflexivity|].
    apply Hocc; assumption.
  - exists s. split.
    { unfold fruncate. rewrite (proj2 (Z.ltb_ge _ _) Hge). reflexivity. }
    split; [reflexivity|]. split; [lia|].
    intros i Hidx. exists 0%nat. split; [lia|]. split; [reflexivity|].
    apply (Hocc 0%nat i Hidx). lia.
Qed.

Lemma fruncate_suffix_witness :
  exists r, fruncate (str "alpha beta gamma delta epsilon") (str "epsilon") 3 4
            = Some r /\
    r `suffix_of` str "alpha beta gamma delta epsilon" /\
    (length r <= length (str "alpha beta gamma delta epsilon"))%nat /\
    forall i : nat,
      strings_Index (str "alpha beta gamma delta epsilon") (str "epsilon")
      = Z.of_nat i ->
      exists k : nat, (k <= i)%nat /\
        r = drop k (str "alpha beta gamma delta epsilon") /\
        occurs_at r (str "epsilon") (i - k).
Proof.
  apply (fruncate_suffix (str "alpha beta gamma delta epsilon") (str "epsilon") 3 4).
  - vm_compute. congruence.
  - lia.
  - unfold max_int. lia.
Defined.

(** ** URLs: [asObsidianUrl] *)

Lemma unescape_escape_byte c rest :
  url_PathUnescape (escape_byte c ++ rest) = (c ::.) <$> url_PathUnescape rest.
Proof.
  destruct c as [[] [] [] [] [] [] [] []]; reflexivity.
Qed.

Example url_PathEscape_common :
  url_PathEscape (str "daily notes/R&D #1 (draft)?.md")
  = str "daily%20notes%2FR&D%20%231%20%28draft%29%3F.md".
Proof. vm_compute. reflexivity. Qed.

Lemma url_PathEscape_cons c s :
  url_PathEscape (c :: s) = escape_byte c ++ url_PathEscape s.
Proof. reflexivity. Qed.

Lemma url_PathUnescape_PathEscape path :
  url_PathUnescape (url_PathEscape path) = Some path.
Proof.
  induction path as [|c path IH]; [reflexivity|].
  rewrite url_PathEscape_cons, unescape_escape_byte, IH. reflexivity.
Qed.

Lemma count_amp_app s t : count_amp (s ++ t) = (count_amp s + count_amp t)%nat.
Proof. unfold count_amp. rewrite filter_app, length_app. reflexivity. Qed.

Lemma count_amp_escape_byte c : count_amp (escape_byte c) = count_amp [c].
Proof. destruct c as [[] [] [] [] [] [] [] []]; vm_compute; reflexivity. Qed.

Lemma count_amp_PathEscape path : count_amp (url_PathEscape path) = count_amp path.
Proof.
  induction path as [|c path IH]; [reflexivity|].
  rewrite url_PathEscape_cons, count_amp_app, count_amp_escape_byte, IH.
  change (c :: path) with ([c] ++ path). rewrite count_amp_app. reflexivity.
Qed.

Lemma escape_byte_encoded c :
  Forall (fun d => shouldEscape d = false \/ d = "%"%char) (escape_byte c).
Proof.
  assert (forallb (fun d => negb (shouldEscape d) || bool_decide (d = "%"%char))
            (escape_byte c) = true) as H
    by (destruct c as [[] [] [] [] [] [] [] []]; vm_compute; reflexivity).
  rewrite forallb_forall in H. apply Forall_forall. intros d Hd.
  apply list_elem_of_In, H in Hd. apply orb_true_iff in Hd as [Hd|Hd].
  - left. apply negb_true_iff, Hd.
  - right. apply bool_decide_eq_true in Hd. exact Hd.
Qed.

(** C2, as stated, fails: [url.PathEscape] leaves ['&'] unescaped in a path
    segment and the vault identifier is written into the URL as it is, so
    a path or a vault with an ampersand gives a second literal ['&'], a vault
    with a space appears with the space, and a vault with a bare ['%'] makes
    a URL that does not percent-decode. *)
Lemma asObsidianUrl_counterexample :
  count_amp (asObsidianUrl (str "R&D.md") (str "work")) = 2%nat /\
  count_amp (asObsidianUrl (str "Notes.md") (str "Q&A")) = 2%nat /\
  asObsidianUrl (str "Notes.md") (str "my vault")
  = str "obsidian://open?vault=my vault&file=Notes.md" /\
  url_PathUnescape (asObsidianUrl (str "Notes.md") (str "100%")) = None.
Proof. repeat split; vm_compute; reflexivity. Qed.

(** C2, amended. The URL is the fixed prefix, the vault identifier as it is,
    the separator [&file=] and the path-segment escaping of the path. The
    escaped path is percent-encoded (every byte is one that path-segment
    escaping leaves alone, or ['%']) and percent-decodes back to the path.
    The vault identifier is not encoded. The URL has one literal ['&'] more
    than the vault identifier and the path have together, hence exactly one
    when neither contains an ampersand. *)
Theorem asObsidianUrl_encoding (path vault : gostring) :
  asObsidianUrl path vault
  = str "obsidian://open?vault=" ++ vault ++ str "&file=" ++ url_PathEscape path /\
  Forall (fun d => shouldEscape d = false \/ d = "%"%char) (url_PathEscape path) /\
  url_PathUnescape (url_PathEscape path) = Some path /\
  count_amp (asObsidianUrl path vault)
  = (1 + count_amp vault + count_amp path)%nat.
Proof.
  split; [reflexivity|]. split; [|split].
  - induction path as [|c path IH]; [constructor|].
    rewrite url_PathEscape_cons. apply Forall_app. split; [apply escape_byte_encoded | exact IH].
  - apply url_PathUnescape_PathEscape.
  - unfold asObsidianUrl. rewrite !count_amp_app, count_amp_PathEscape.
    assert (count_amp (str "obsidian://open?vault=") = 0%nat) as ->
      by (vm_compute; reflexivity).
    assert (count_amp (str "&file=") = 1%nat) as -> by (vm_compute; reflexivity).
    lia.
Qed.

(** ** Filename mode *)

Example strings_Split_nul :
  strings_Split (str "Notes.md" ++ "000"%char :: str "plan.txt" ++ ["000"%char])
    "000"%char
  = [str "Notes.md"; str "plan.txt"; []].
Proof. vm_compute. reflexivity. Qed.

(** C3 on the output the file-finder really gives: every path is followed by
    a null byte, so the last token is empty, and the result list has a third,
    zero-valued item for it, with kind [""] instead of ["default"]. *)
Theorem findMatchingFiles_trailing_nul :
  findMatchingFiles_shape
    (str "Notes.md" ++ "000"%char :: str "plan.txt" ++ ["000"%char]) (str "work")
  = Some {| Items := Some
      [ {| Type_ := str "default"; Title := str "Notes"; Subtitle := [];
           Arg := str "obsidian://open?vault=work&file=Notes.md" |};
        {| Type_ := str "default"; Title := str "plan.txt"; Subtitle := [];
           Arg := str "obsidian://open?vault=work&file=plan.txt" |};
        {| Type_ := []; Title := []; Subtitle := []; Arg := [] |} ] |}.
Proof. vm_compute. reflexivity. Qed.

(** No output at all still gives one (zero-valued) item. *)
Example findMatchingFiles_no_output :
  findMatchingFiles_shape [] (str "work") = Some {| Items := Some [zero_AlfredResult] |}.
Proof. vm_compute. reflexivity. Qed.

Lemma length_strip_separators r : (length (strip_separators r) <= length r)%nat.
Proof.
  induction r as [|c r IH]; simpl; [lia|]. destruct (decide _); simpl; lia.
Qed.

Lemma length_until_separator r : (length (until_separator r) <= length r)%nat.
Proof.
  induction r as [|c r IH]; simpl; [lia|]. destruct (decide _); simpl; lia.
Qed.

Lemma length_filepath_Base path :
  (length (filepath_Base path) <= Nat.max 1 (length path))%nat.
Proof.
  destruct path as [|c path]; [simpl; lia|]. unfold filepath_Base.
  pose proof (length_until_separator (strip_separators (reverse (c :: path)))) as H1.
  pose proof (length_strip_separators (reverse (c :: path))) as H2.
  rewrite length_reverse in H2.
  destruct (reverse (until_separator _)) as [|d base] eqn:Hb.
  - simpl. lia.
  - rewrite <- Hb, length_reverse. lia.
Qed.

Lemma go_string_filepath_Base path : go_string path -> go_string (filepath_Base path).
Proof.
  unfold go_string, len, max_int. intros H.
  pose proof (length_filepath_Base path). lia.
Qed.

(** [withoutMd] never slices out of range. *)
Lemma withoutMd_total filename :
  go_string filename -> exists title, withoutMd filename = Some title.
Proof.
  intros Hgo. destruct (strings_HasSuffix filename (str ".md")) eqn:Hs.
  - apply strings_HasSuffix_spec in Hs as [base ->].
    exists base. apply withoutMd_md, Hgo.
  - exists filename. unfold withoutMd. rewrite Hs. reflexivity.
Qed.

Lemma copy_filenames_spec output pre :
  copy_filenames (length pre) output (pre ++ replicate (length output) [])
  = Some (pre ++ output).
Proof.
  revert pre. induction output as [|f output IH]; intros pre; simpl.
  - rewrite app_nil_r. reflexivity.
  - unfold store. rewrite decide_True by (rewrite length_app; simpl; lia).
    simpl. rewrite insert_app_r_alt by lia. rewrite Nat.sub_diag. simpl.
    specialize (IH (pre ++ [f])). rewrite length_app in IH. simpl in IH.
    rewrite Nat.add_1_r in IH. rewrite <- app_assoc in IH. simpl in IH.
    rewrite IH, <- app_assoc. reflexivity.
Qed.

Lemma fill_results_spec vault results pre :
  Forall go_string results ->
  exists items,
    fill_results vault (length pre) results
      (pre ++ replicate (length results) zero_AlfredResult)
    = Some (pre ++ items) /\
    Forall2 (token_item vault) results items.
Proof.
  intros Hgo. revert pre. induction Hgo as [|tok results Htok Hgo IH]; intros pre.
  - exists []. split; [simpl; rewrite app_nil_r; reflexivity | constructor].
  - cbn [fill_results length replicate].
    destruct tok as [|c tok].
    + destruct (IH (pre ++ [zero_AlfredResult])) as (items & Hf & Hall).
      exists (zero_AlfredResult :: items). split; [|constructor; [reflexivity|exact Hall]].
      change (0 <? len []) with false. cbv iota.
      rewrite length_app, Nat.add_1_r, <- app_assoc in Hf. simpl in Hf.
      rewrite Hf, <- app_assoc. reflexivity.
    + destruct (withoutMd_total (filepath_Base (c :: tok))
                  (go_string_filepath_Base _ Htok)) as [title Ht].
      set (item := {| Type_ := str "default"; Title := title; Subtitle := [];
                      Arg := asObsidianUrl (c :: tok) vault |}).
      destruct (IH (pre ++ [item])) as (items & Hf & Hall).
      exists (item :: items). split.
      * assert ((0 <? len (c :: tok)) = true) as -> by (apply Z.ltb_lt; unfold len; simpl; lia).
        rewrite Ht. cbn [mbind option_bind]. fold item.
        unfold store. rewrite decide_True by (rewrite length_app; simpl; lia).
        cbn [mbind option_bind].
        rewrite insert_app_r_alt by lia. rewrite Nat.sub_diag. cbn [insert list_insert].
        rewrite length_app, Nat.add_1_r, <- app_assoc in Hf. simpl in Hf.
        rewrite Hf, <- app_assoc. reflexivity.
      * constructor; [|exact Hall]. unfold token_item. simpl. tauto.
Qed.

Lemma strings_Split_cons c s sep :
  strings_Split (c :: s) sep =
  if decide (c = sep) then [] :: strings_Split s sep
  else match strings_Split s sep with
       | tok :: toks => (c :: tok) :: toks
       | [] => [[c]]
       end.
Proof. reflexivity. Qed.

Lemma strings_Split_length s sep :
  Forall (fun tok => (length tok <= length s)%nat) (strings_Split s sep).
Proof.
  induction s as [|c s IH]; [constructor; [simpl; lia | constructor]|].
  rewrite strings_Split_cons. destruct (decide (c = sep)).
  - constructor; [simpl; lia|].
    eapply Forall_impl; [exact IH|]. simpl. intros; lia.
  - destruct (strings_Split s sep) as [|tok toks];
      [constructor; [simpl; lia | constructor]|].
    inversion IH as [|? ? Htok Htoks]; subst. constructor; [simpl; lia|].
    eapply Forall_impl; [exact Htoks|]. simpl. intros; lia.
Qed.

Lemma strings_Split_go_string s sep :
  go_string s -> Forall go_string (strings_Split s sep).
Proof.
  intros Hgo. eapply Forall_impl; [apply strings_Split_length|].
  unfold go_string, len in *. simpl. intros; lia.
Qed.

(** Filename mode gives one item per token of the output split at the null
    bytes, in the order of the tokens: the item of the path for a non-empty
    token, a zero-valued item for an empty token. *)
Lemma findMatchingFiles_shape_items out vault :
  go_string out ->
  exists items,
    findMatchingFiles_shape out vault = Some {| Items := Some items |} /\
    Forall2 (token_item vault) (strings_Split out "000"%char) items.
Proof.
  intros Hgo. unfold findMatchingFiles_shape.
  pose proof (copy_filenames_spec (strings_Split out "000"%char) []) as Hc.
  simpl in Hc. rewrite Hc. cbn [mbind option_bind].
  destruct (fill_results_spec vault (strings_Split out "000"%char) []
              (strings_Split_go_string _ _ Hgo)) as (items & Hf & Hall).
  simpl in Hf. rewrite Hf. cbn [mbind option_bind].
  exists items. split; [reflexivity | exact Hall].
Qed.

(** ** Serialisation *)

Example print_results_two :
  print_results {| Items := Some
    [ {| Type_ := str "default"; Title := str "R&D"; Subtitle := [];
         Arg := str "obsidian://open?vault=work&file=R&D.md" |} ] |}
  = str "{
  " ++ json_string htmlSafeSet (str "items") ++ str ": [
    {
      " ++ quote :: str "type" ++ quote :: str ": " ++ quote :: str "default" ++ quote :: str ",
      " ++ quote :: str "title" ++ quote :: str ": " ++ quote :: str "R&D" ++ quote :: str ",
      " ++ quote :: str "subtitle" ++ quote :: str ": " ++ quote :: quote :: str ",
      " ++ quote :: str "arg" ++ quote :: str ": " ++ quote :: str "obsidian://open?vault=work&file=R&D.md" ++ quote :: str "
    }
  ]
}
".
Proof. vm_compute. reflexivity. Qed.

(** ** Content mode *)

Lemma filter_filter_implied {A} (P Q : A -> Prop)
    `{forall x, Decision (P x)} `{forall x, Decision (Q x)} (l : list A) :
  (forall x, P x -> Q x) -> filter P (filter Q l) = filter P l.
Proof.
  intros HPQ. induction l as [|x l IH]; [reflexivity|].
  rewrite (filter_cons Q). destruct (decide (Q x)) as [Hq|Hq].
  - rewrite !filter_cons. destruct (decide (P x)); rewrite IH; reflexivity.
  - rewrite filter_cons. rewrite decide_False by (intros Hp; apply Hq, HPQ, Hp).
    exact IH.
Qed.


Lemma filter_insert_seen (seen : gmap gostring bool) path (l : list RipGrepResult) :
  filter (fun r => <[path := true]> seen !! Data_Path_Text r = None) l
  = filter (fun r => seen !! Data_Path_Text r = None)
      (filter (fun r => Data_Path_Text r <> path) l).
Proof.
  induction l as [|x l IH]; [reflexivity|].
  rewrite (filter_cons (fun r => Data_Path_Text r <> path)), filter_cons.
  destruct (decide (Data_Path_Text x <> path)) as [Hne|Heq].
  - rewrite filter_cons. rewrite lookup_insert_ne by congruence.
    destruct (decide (seen !! Data_Path_Text x = None)); rewrite IH; reflexivity.
  - apply dec_stable in Heq. rewrite Heq, lookup_insert_eq.
    rewrite decide_False by discriminate. exact IH.
Qed.

(** Starting with no path found, the loop keeps the first record per path. *)
Lemma unseen_first_per_path seen records :
  unseen seen records
  = filter (fun r => seen !! Data_Path_Text r = None) (first_per_path records).
Proof.
  revert seen. induction records as [|r records IH]; intros seen; [reflexivity|].
  cbn [unseen first_per_path]. rewrite filter_cons.
  destruct (seen !! Data_Path_Text r) as [b|] eqn:Hseen.
  - rewrite decide_False by discriminate. rewrite IH.
    symmetry. apply filter_filter_implied. intros x Hx Heq.
    rewrite Heq in Hx. congruence.
  - rewrite decide_True by reflexivity. f_equal. rewrite IH.
    apply filter_insert_seen.
Qed.

Lemma unseen_empty records : unseen ∅ records = first_per_path records.
Proof.
  rewrite unseen_first_per_path.
  induction (first_per_path records) as [|x l IH]; [reflexivity|].
  rewrite filter_cons, decide_True by apply lookup_empty. rewrite IH. reflexivity.
Qed.


Section ContentModeProperties.

Variable json_Unmarshal : gostring -> RipGrepResult -> option RipGrepResult.
Variables searchTerm vault : gostring.

Lemma grep_step_skip line st :
  strings_HasPrefix line (str "{") = false ->
  grep_step json_Unmarshal searchTerm vault line st = Done st.
Proof. intros H. unfold grep_step. rewrite H. reflexivity. Qed.

Lemma grep_step_fatal line st :
  strings_HasPrefix line (str "{") = true ->
  json_Unmarshal line (rgr st) = None ->
  grep_step json_Unmarshal searchTerm vault line st
  = Fatal (str "could not parse " ++ line).
Proof. intros H1 H2. unfold grep_step. rewrite H1, H2. reflexivity. Qed.

Lemma grep_step_other line st r :
  strings_HasPrefix line (str "{") = true ->
  json_Unmarshal line (rgr st) = Some r ->
  Rg_Type r <> str "match" ->
  grep_step json_Unmarshal searchTerm vault line st
  = Done {| results := results st; rgr := r; alreadyFound := alreadyFound st |}.
Proof.
  intros H1 H2 H3. unfold grep_step. rewrite H1, H2. simpl.
  rewrite bool_decide_eq_false_2 by exact H3. reflexivity.
Qed.

Lemma grep_step_seen line st r b :
  strings_HasPrefix line (str "{") = true ->
  json_Unmarshal line (rgr st) = Some r ->
  Rg_Type r = str "match" ->
  alreadyFound st !! Data_Path_Text r = Some b ->
  grep_step json_Unmarshal searchTerm vault line st
  = Done {| results := results st; rgr := r; alreadyFound := alreadyFound st |}.
Proof.
  intros H1 H2 H3 H4. unfold grep_step. rewrite H1, H2. simpl.
  rewrite bool_decide_eq_true_2 by exact H3. rewrite H4. reflexivity.
Qed.

Lemma grep_step_new line st r :
  strings_HasPrefix line (str "{") = true ->
  json_Unmarshal line (rgr st) = Some r ->
  Rg_Type r = str "match" ->
  alreadyFound st !! Data_Path_Text r = None ->
  go_record r ->
  exists item,
    built_from searchTerm vault r item /\
    grep_step json_Unmarshal searchTerm vault line st
    = Done {| results := append (results st) item; rgr := r;
              alreadyFound := <[Data_Path_Text r := true]> (alreadyFound st) |}.
Proof.
  intros H1 H2 H3 H4 [Hp Hl].
  destruct (withoutMd_total _ (go_string_filepath_Base _ Hp)) as [title Ht].
  destruct (fruncate_total _ searchTerm Hl) as [subtitle Hs].
  exists {| Type_ := str "default"; Title := title; Subtitle := subtitle;
            Arg := asObsidianUrl (Data_Path_Text r) vault |}.
  split; [repeat split; assumption|].
  unfold grep_step. rewrite H1, H2. simpl.
  rewrite bool_decide_eq_true_2 by exact H3. rewrite H4, Ht, Hs. reflexivity.
Qed.

Lemma grep_loop_cons line rest st :
  grep_loop json_Unmarshal searchTerm vault (line :: rest) st
  = grep_step json_Unmarshal searchTerm vault line st
    ≫= grep_loop json_Unmarshal searchTerm vault rest.
Proof. reflexivity. Qed.

Lemma grep_loop_app before after st :
  grep_loop json_Unmarshal searchTerm vault (before ++ after) st
  = grep_loop json_Unmarshal searchTerm vault before st
    ≫= grep_loop json_Unmarshal searchTerm vault after.
Proof.
  revert st. induction before as [|line before IH]; intros st; [reflexivity|].
  rewrite <- app_comm_cons, !grep_loop_cons.
  destruct (grep_step json_Unmarshal searchTerm vault line st); try reflexivity.
  apply IH.
Qed.

(** The loop, from any state: it ends normally when every line that starts
    with ['{'] decodes, and it has appended one item for every match record
    whose path was not found before, built from the first such record. *)
Lemma grep_loop_spec lines st records :
  decoded json_Unmarshal lines (rgr st) = Some records ->
  Forall go_record (filter (fun r => Rg_Type r = str "match") records) ->
  exists st' items,
    grep_loop json_Unmarshal searchTerm vault lines st = Done st' /\
    Forall2 (built_from searchTerm vault)
      (unseen (alreadyFound st)
         (filter (fun r => Rg_Type r = str "match") records)) items /\
    results st' = match items with
                  | [] => results st
                  | _ => Some (elems (results st) ++ items)
                  end.
Proof.
  revert st records. induction lines as [|line lines IH]; intros st records Hdec Hgo.
  - injection Hdec as <-. exists st, []. repeat split. constructor.
  - cbn [decoded] in Hdec. rewrite grep_loop_cons.
    destruct (strings_HasPrefix line (str "{")) eqn:Hpre; cbn [negb] in Hdec.
    2:{ rewrite grep_step_skip by exact Hpre. apply IH; assumption. }
    destruct (json_Unmarshal line (rgr st)) as [r|] eqn:Hun; [|discriminate].
    cbn [mbind option_bind] in Hdec.
    destruct (decoded json_Unmarshal lines r) as [records'|] eqn:Hdec';
      [|discriminate].
    injection Hdec as <-. rewrite filter_cons in Hgo |- *.
    destruct (decide (Rg_Type r = str "match")) as [Hm|Hm].
    + inversion Hgo as [|? ? Hr Hgo']; subst. cbn [unseen].
      destruct (alreadyFound st !! Data_Path_Text r) as [b|] eqn:Hseen.
      * rewrite (grep_step_seen _ _ _ _ Hpre Hun Hm Hseen).
        apply (IH {| results := results st; rgr := r;
                     alreadyFound := alreadyFound st |}); assumption.
      * destruct (grep_step_new _ _ _ Hpre Hun Hm Hseen Hr) as (item & Hb & ->).
        destruct (IH {| results := append (results st) item; rgr := r;
                        alreadyFound := <[Data_Path_Text r := true]> (alreadyFound st) |}
                    records' Hdec' Hgo') as (st' & items & Hloop & Hall & Hres).
        exists st', (item :: items). split; [exact Hloop|].
        split; [constructor; assumption|].
        rewrite Hres. unfold append, elems. simpl.
        destruct items; [reflexivity|]. rewrite <- app_assoc. reflexivity.
    + rewrite (grep_step_other _ _ _ Hpre Hun Hm).
      apply (IH {| results := results st; rgr := r;
                   alreadyFound := alreadyFound st |}); assumption.
Qed.

End ContentModeProperties.

Lemma asObsidianUrl_inj path path' vault :
  asObsidianUrl path vault = asObsidianUrl path' vault -> path = path'.
Proof.
  unfold asObsidianUrl. intros H.
  do 3 apply app_inv_head in H.
  apply (f_equal url_PathUnescape) in H.
  rewrite !url_PathUnescape_PathEscape in H. congruence.
Qed.



Example sample_items :
  grepMatchingFiles_shape sample_Unmarshal (str "cats") (str "work") sample_stream
  = Done {| Items := Some
      [ {| Type_ := str "default"; Title := str "cats";
           Subtitle := str "know about cats";
           Arg := str "obsidian://open?vault=work&file=notes%2Fcats.md" |};
        {| Type_ := str "default"; Title := str "pets";
           Subtitle := str "dogs, cats and a parrot";
           Arg := str "obsidian://open?vault=work&file=pets.md" |} ] |}.
Proof. vm_compute. reflexivity. Qed.


Lemma and_then_Done {A B} (a : A) (k : A -> prog B) :
  and_then (pure (Done a)) k = k a.
Proof. unfold and_then, pure. destruct (k a). reflexivity. Qed.

Lemma and_then_step {A B} (t : list Event) (a : A) (k : A -> prog B) :
  and_then (t, Done a) k = (t ++ (k a).1, (k a).2).
Proof. reflexivity. Qed.

(** C9. With the content search run and its output split into lines, at any
    line the loop reaches: a line that does not start with ['{'] leaves
    results, record and found paths as they are, without error; a line that
    starts with ['{'] and does not decode ends the program in
    [log.Fatalf("could not parse %s", line)], with nothing written on
    standard output; a line that decodes to a type other than ["match"]
    changes neither the results nor the found paths, without error. *)
Theorem content_stream_lines
    (filepath_Join : gostring -> gostring -> gostring)
    (json_Unmarshal : gostring -> RipGrepResult -> option RipGrepResult)
    (w : World) (v : Variant) (inv : Invocation)
    (vaultName vaultPath directory : gostring)
    (before after : list gostring) (line : gostring) (st : GrepState) :
  let searchTerm := strings_Join (Args inv) (str " ") in
  grepMode inv = true ->
  1 <= len (Args inv) ->
  expandHome filepath_Join w vaultPath = Some directory ->
  Chdir w directory = true ->
  strings_Split (Output w directory (rg_argv v searchTerm)).1 newline
  = before ++ line :: after ->
  grep_loop json_Unmarshal searchTerm vaultName before grep_init = Done st ->
  (strings_HasPrefix line (str "{") = false ->
   grep_step json_Unmarshal searchTerm vaultName line st = Done st) /\
  (strings_HasPrefix line (str "{") = true ->
   json_Unmarshal line (rgr st) = None ->
   search_and_print filepath_Join json_Unmarshal w v inv vaultName vaultPath
   = ([EvChdir directory; EvExec (rg_argv v searchTerm)],
      Fatal (str "could not parse " ++ line))) /\
  (forall r,
     strings_HasPrefix line (str "{") = true ->
     json_Unmarshal line (rgr st) = Some r ->
     Rg_Type r <> str "match" ->
     grep_step json_Unmarshal searchTerm vaultName line st
     = Done {| results := results st; rgr := r; alreadyFound := alreadyFound st |}).
Proof.
  intros searchTerm Hmode Hargs Hhome Hcd Hsplit Hloop.
  split; [apply grep_step_skip|]. split; [|intros r; apply grep_step_other].
  intros Hpre Hun. unfold search_and_print.
  rewrite (proj2 (Z.leb_le _ _) Hargs), Hhome, Hmode.
  cbn [run_time]. rewrite !and_then_Done.
  unfold grepMatchingFiles, chdir. rewrite Hcd.
  fold searchTerm. rewrite !and_then_step.
  unfold grepMatchingFiles_shape. change "010"%char with newline.
  rewrite Hsplit, grep_loop_app, Hloop. cbn [mbind outcome_bind].
  rewrite grep_loop_cons, (grep_step_fatal _ _ _ _ _ Hpre Hun). reflexivity.
Qed.

Lemma content_stream_lines_witness :
  search_and_print sample_Join sample_Unmarshal
    (sample_world (str "{truncated" ++ newline :: sample_stream) None) WithRegistry
    {| program := str "osearch"; grepMode := true; vaultName := str "work";
       vaultPath := str "/vaults/work"; Args := [str "cats"] |}
    (str "work") (str "/vaults/work")
  = ([EvChdir (str "/vaults/work"); EvExec (rg_argv WithRegistry (str "cats"))],
     Fatal (str "could not parse {truncated")).
Proof.
  pose proof (content_stream_lines sample_Join sample_Unmarshal
    (sample_world (str "{truncated" ++ newline :: sample_stream) None) WithRegistry
    {| program := str "osearch"; grepMode := true; vaultName := str "work";
       vaultPath := str "/vaults/work"; Args := [str "cats"] |}
    (str "work") (str "/vaults/work") (str "/vaults/work")
    [] (tail (strings_Split (str "{truncated" ++ newline :: sample_stream) newline))
    (str "{truncated") grep_init) as H.
  cbv zeta in H.
  apply H.
  - reflexivity.
  - vm_compute. congruence.
  - vm_compute. reflexivity.
  - vm_compute. reflexivity.
  - vm_compute. reflexivity.
  - reflexivity.
  - vm_compute. reflexivity.
  - vm_compute. reflexivity.
Defined.

(** ** Input resolution *)

(** Without registry lookup a missing vault name or vault path is fatal, the
    message names the flag, and nothing was searched. *)
Lemma main_flags_only_missing
    (filepath_Join : gostring -> gostring -> gostring)
    (json_Unmarshal : gostring -> RipGrepResult -> option RipGrepResult)
    (w : World) (inv : Invocation) :
  (vaultName inv = [] ->
   main_flags_only filepath_Join json_Unmarshal w inv
   = ([], Fatal (str "vault name must be specified with --vault"))) /\
  (vaultName inv <> [] -> vaultPath inv = [] ->
   main_flags_only filepath_Join json_Unmarshal w inv
   = ([], Fatal (str "vault path must be specified with --path"))).
Proof.
  unfold main_flags_only. split.
  - intros ->. reflexivity.
  - intros Hname ->. destruct (vaultName inv) as [|c name]; [contradiction|].
    reflexivity.
Qed.

Lemma len_0 {A} (s : list A) : (len s =? 0) = true -> s = [].
Proof. intros H. apply Z.eqb_eq in H. destruct s; [reflexivity | discriminate]. Qed.

(** With the registry read and no vault open in it, [osearch.go] goes on to
    the search with the vault name and the vault path of the command line,
    empty or not: there is no test of either. *)
Lemma main_registry_no_open_vault
    (filepath_Join : gostring -> gostring -> gostring)
    (json_Unmarshal : gostring -> RipGrepResult -> option RipGrepResult)
    (json_Unmarshal_config : gostring -> option ObsidianConfig)
    (w : World) (inv : Invocation) (config content : gostring)
    (result : ObsidianConfig) :
  expandHome filepath_Join w ObsidianConfigFile = Some config ->
  ReadFile w config = Some content ->
  json_Unmarshal_config content = Some result ->
  Forall (fun entry => Open entry.2 = false) (range_Vaults w (Vaults result)) ->
  main filepath_Join json_Unmarshal json_Unmarshal_config w inv
  = and_then ([EvReadFile config], Done tt)
      (fun _ => search_and_print filepath_Join json_Unmarshal w WithRegistry inv
                  (vaultName inv) (vaultPath inv)).
Proof.
  intros Hhome Hread Hparse Hclosed. unfold main.
  rewrite Hhome. cbn [run_time]. rewrite and_then_Done.
  unfold getDefaults. rewrite Hread, and_then_step, Hparse, and_then_Done.
  cbn [app fst snd].
  assert (List.find (fun entry : gostring * ObsidianVault => Open entry.2)
            (range_Vaults w (Vaults result)) = None) as ->.
  { induction Hclosed as [|entry l He Hl IH]; [reflexivity|].
    cbn [List.find]. rewrite He. exact IH. }
  unfold pure. cbn [app fst snd]. rewrite and_then_step. cbn [app fst snd].
  assert ((if len (vaultName inv) =? 0 then [] else vaultName inv) = vaultName inv)
    as -> by (destruct (len (vaultName inv) =? 0) eqn:H;
              [symmetry; apply len_0, H | reflexivity]).
  assert ((if len (vaultPath inv) =? 0 then [] else vaultPath inv) = vaultPath inv)
    as -> by (destruct (len (vaultPath inv) =? 0) eqn:H;
              [symmetry; apply len_0, H | reflexivity]).
  reflexivity.
Qed.

(** C5 on [osearch.go], with a registry in which no vault is open. Given a
    path and no vault name, the run is not fatal: it reads the registry,
    runs the file-finder and prints items whose URL has an empty vault
    identifier. Given a vault name and no path, the run is fatal only when
    changing to the directory [""] fails, and the message names no missing
    value. *)
Theorem main_registry_without_open_vault :
  main sample_Join sample_Unmarshal sample_config
    (sample_world (str "plan.txt" ++ ["000"%char]) (Some (str "{}")))
    {| program := str "osearch"; grepMode := false; vaultName := [];
       vaultPath := str "/vaults/work"; Args := [str "plan"] |}
  = ([EvReadFile (str "/Users/me/Library/Application Support/obsidian/obsidian.json");
      EvChdir (str "/vaults/work");
      EvExec (fd_argv WithRegistry (str "plan"))],
     Done (print_results {| Items := Some
       [ {| Type_ := str "default"; Title := str "plan.txt"; Subtitle := [];
            Arg := str "obsidian://open?vault=&file=plan.txt" |};
         zero_AlfredResult ] |})) /\
  main sample_Join sample_Unmarshal sample_config
    (sample_world (str "plan.txt" ++ ["000"%char]) (Some (str "{}")))
    {| program := str "osearch"; grepMode := false; vaultName := str "work";
       vaultPath := []; Args := [str "plan"] |}
  = ([EvReadFile (str "/Users/me/Library/Application Support/obsidian/obsidian.json");
      EvChdir []],
     Fatal (str "no such directory ")).
Proof. split; vm_compute; reflexivity. Qed.

Example json_valid_examples :
  json_valid (str "{ }") = true /\
  json_valid (str "[1, -2.5e+3, true, null, [], {}]") = true /\
  json_valid (str "[1,]") = false /\
  json_valid (str "01") = false /\
  json_valid (quote :: backslash :: str "u00e9 " ++ backslash :: str "n" ++ [quote]) = true /\
  json_valid (quote :: backslash :: str "&" ++ [quote]) = false /\
  json_valid [quote; "195"%char; "169"%char; quote] = true /\
  json_valid [quote; "195"%char; quote] = false.
Proof. repeat split; vm_compute; reflexivity. Qed.

Lemma json_string_app safe s X :
  json_string safe s ++ X = quote :: json_string_body safe 0 true s ++ quote :: X.
Proof. unfold json_string. simpl. rewrite <- app_assoc. reflexivity. Qed.

Lemma render_app safe ps qs : render safe (ps ++ qs) = render safe ps ++ render safe qs.
Proof.
  induction ps as [|p ps IH]; [reflexivity|].
  simpl. rewrite IH, app_assoc. reflexivity.
Qed.

Lemma json_item_pieces safe r : json_item safe r = render safe (item_pieces r).
Proof.
  unfold json_item, item_pieces. cbn [render piece_text].
  rewrite app_nil_r. repeat rewrite <- app_assoc. reflexivity.
Qed.

Lemma json_items_pieces safe l : json_items safe l = render safe (items_pieces l).
Proof.
  induction l as [|r l IH]; [reflexivity|].
  destruct l as [|r' l].
  - cbn [json_items items_pieces render piece_text].
    rewrite json_item_pieces. reflexivity.
  - change (json_items safe (r :: r' :: l))
      with (newline :: str "    " ++ json_item safe r ++ str ","
              ++ json_items safe (r' :: l)).
    change (items_pieces (r :: r' :: l))
      with (Layout (newline :: str "    ") :: item_pieces r
              ++ Layout (str ",") :: items_pieces (r' :: l)).
    rewrite IH, json_item_pieces.
    cbn [render piece_text]. rewrite render_app. cbn [render piece_text].
    reflexivity.
Qed.

Lemma json_array_pieces safe items :
  json_array safe items = render safe (array_pieces items).
Proof.
  destruct items as [[|r l]|]; cbn [json_array array_pieces render piece_text].
  - rewrite app_nil_r. reflexivity.
  - rewrite json_items_pieces, render_app. cbn [render piece_text].
    rewrite app_nil_r. reflexivity.
  - rewrite app_nil_r. reflexivity.
Qed.

Lemma json_document_pieces safe results :
  json_document safe results = render safe (document_pieces results).
Proof.
  unfold json_document, document_pieces. cbn [render piece_text].
  rewrite render_app, json_array_pieces. cbn [render piece_text].
  rewrite app_nil_r. repeat rewrite <- app_assoc. reflexivity.
Qed.

(** ** The replacement of the escaped ampersand *)

Lemma strings_HasPrefix_cons c s p ps :
  strings_HasPrefix (c :: s) (p :: ps)
  = if decide (c = p) then strings_HasPrefix s ps else false.
Proof. reflexivity. Qed.

Lemma strings_HasPrefix_nil_r s : strings_HasPrefix s [] = true.
Proof. destruct s; reflexivity. Qed.

Lemma replace_from_S k c rest old new :
  replace_from (S k) (c :: rest) old new = replace_from k rest old new.
Proof. reflexivity. Qed.

Lemma replace_from_0 c rest old new :
  replace_from 0 (c :: rest) old new
  = if strings_HasPrefix (c :: rest) old
    then new ++ replace_from (length old - 1) rest old new
    else c :: replace_from 0 rest old new.
Proof. reflexivity. Qed.


Lemma amp_escape_cons : amp_escape = backslash :: str "u0026".
Proof. reflexivity. Qed.

Lemma unamp_other c X : c <> backslash -> unamp (c :: X) = c :: unamp X.
Proof.
  intros Hc. rewrite replace_from_0, amp_escape_cons, strings_HasPrefix_cons.
  rewrite decide_False by exact Hc. reflexivity.
Qed.

Lemma unamp_layout K X :
  Forall (fun c => c <> backslash) K -> unamp (K ++ X) = K ++ unamp X.
Proof.
  induction 1 as [|c K Hc HK IH]; [reflexivity|].
  rewrite <- !app_comm_cons, unamp_other by exact Hc. rewrite IH. reflexivity.
Qed.

Lemma unamp_backslash X :
  strings_HasPrefix X (str "u0026") = false ->
  unamp (backslash :: X) = backslash :: unamp X.
Proof.
  intros HX. rewrite replace_from_0, amp_escape_cons, strings_HasPrefix_cons.
  rewrite decide_True by reflexivity. rewrite HX. reflexivity.
Qed.

Lemma unamp_amp X : unamp (amp_escape ++ X) = "&"%char :: unamp X.
Proof.
  change (amp_escape ++ X) with (backslash :: (str "u0026" ++ X)).
  rewrite replace_from_0.
  assert (strings_HasPrefix (backslash :: str "u0026" ++ X) amp_escape = true) as ->
    by (apply strings_HasPrefix_spec; exists X; reflexivity).
  reflexivity.
Qed.

(** A text without backslash and ampersand at the start of the replaced text
    was at the start of the text. *)
Lemma unamp_prefix_reflect w rest :
  Forall (fun c => c <> backslash /\ c <> "&"%char) w ->
  strings_HasPrefix (unamp rest) w = true -> strings_HasPrefix rest w = true.
Proof.
  intros Hw. revert rest. induction Hw as [|c0 w [Hb Ha] Hw IH]; intros rest.
  - intros _. apply strings_HasPrefix_nil_r.
  - destruct rest as [|d rest]; [discriminate|].
    rewrite replace_from_0.
    destruct (strings_HasPrefix (d :: rest) amp_escape) eqn:Hp.
    + change (str "&" ++ ?x) with ("&"%char :: x).
      rewrite strings_HasPrefix_cons. rewrite decide_False by congruence.
      discriminate.
    + rewrite !strings_HasPrefix_cons. destruct (decide (d = c0)); [|discriminate].
      apply IH.
Qed.

Lemma free_of_nil p : p <> [] -> free_of p [].
Proof.
  intros Hp i [_ Hpre]. rewrite drop_nil in Hpre.
  apply prefix_nil_inv in Hpre. contradiction.
Qed.

Lemma free_of_cons p c s :
  strings_HasPrefix (c :: s) p = false -> free_of p s -> free_of p (c :: s).
Proof.
  intros Hp Hs [|i].
  - rewrite occurs_at_0. apply strings_HasPrefix_false, Hp.
  - rewrite occurs_at_S. apply Hs.
Qed.

Lemma free_of_tail p c s : free_of p (c :: s) -> free_of p s.
Proof. intros H i Hi. apply (H (S i)). apply occurs_at_S, Hi. Qed.

Lemma free_of_head p c s : free_of p (c :: s) -> strings_HasPrefix (c :: s) p = false.
Proof.
  intros H. apply strings_HasPrefix_false. intros Hp.
  apply (H 0%nat). apply occurs_at_0, Hp.
Qed.

(** After the replacement no escaped ampersand is left, whatever the text. *)
Lemma replace_from_free skip s :
  free_of amp_escape (replace_from skip s amp_escape (str "&")).
Proof.
  revert skip. induction s as [|c s IH]; intros skip.
  - destruct skip; apply free_of_nil; discriminate.
  - destruct skip as [|k]; [|rewrite replace_from_S; apply IH].
    rewrite replace_from_0.
    destruct (strings_HasPrefix (c :: s) amp_escape) eqn:Hp.
    + change (str "&" ++ ?x) with ("&"%char :: x).
      apply free_of_cons; [|apply IH].
      rewrite amp_escape_cons, strings_HasPrefix_cons.
      rewrite decide_False by discriminate. reflexivity.
    + apply free_of_cons; [|apply IH].
      destruct (strings_HasPrefix (c :: unamp s) amp_escape) eqn:Hq; [|reflexivity].
      rewrite amp_escape_cons, strings_HasPrefix_cons in Hq, Hp.
      destruct (decide (c = backslash)); [|discriminate].
      apply unamp_prefix_reflect in Hq; [congruence|].
      repeat constructor; discriminate.
Qed.

(** ** Runes *)

Lemma utf8_first_cases z sz lo hi :
  utf8_first z = Some (sz, lo, hi) ->
  (sz = 2 \/ sz = 3 \/ sz = 4)%nat /\ 128 <= lo.
Proof.
  unfold utf8_first.
  repeat (case_match; try discriminate); intros [= <- <- <-]; split; auto; lia.
Qed.

Lemma between_high lo b hi : 128 <= lo -> between lo b hi = true -> 128 <= byte_val b.
Proof.
  unfold between. intros Hlo H. apply andb_true_iff in H as [H _].
  apply Z.leb_le in H. lia.
Qed.

(** A multi-byte rune the decoder accepts starts with a leading byte of the
    table, and the bytes after it continue the sequence. *)
Lemma utf8_DecodeRune_valid b rest c size :
  128 <= byte_val b ->
  utf8_DecodeRune (b :: rest) = (c, size) ->
  (c =? RuneError) && (size =? 1)%nat = false ->
  exists lo hi,
    utf8_first (byte_val b) = Some (size, lo, hi) /\ (2 <= size)%nat /\
    conts (size - 1) lo hi rest.
Proof.
  intros Hb Hd Hok.
  assert (forall A : Prop, (RuneError, 1%nat) = (c, size) -> A) as Herr.
  { intros A [= <- <-]. discriminate Hok. }
  unfold utf8_DecodeRune in Hd.
  rewrite (proj2 (Z.ltb_ge _ _) Hb) in Hd.
  destruct (utf8_first (byte_val b)) as [[[sz lo] hi]|] eqn:Hf;
    [|exact (Herr _ Hd)].
  destruct (utf8_first_cases _ _ _ _ Hf) as [Hsz Hlo].
  destruct (length (b :: rest) <? sz)%nat; [exact (Herr _ Hd)|].
  destruct rest as [|s1 t1]; [exact (Herr _ Hd)|].
  destruct (between lo s1 hi) eqn:H1; cbn [negb] in Hd; [|exact (Herr _ Hd)].
  pose proof (between_high _ _ _ Hlo H1) as Hs1.
  destruct Hsz as [-> | [-> | ->]]; cbn [Nat.leb] in Hd.
  - injection Hd as <- <-. exists lo, hi. repeat split; auto.
  - destruct t1 as [|s2 t2]; [exact (Herr _ Hd)|].
    destruct (continuation s2) eqn:H2; cbn [negb] in Hd; [|exact (Herr _ Hd)].
    injection Hd as <- <-. exists lo, hi.
    repeat split; auto. apply (between_high 128 _ 191); [lia | exact H2].
  - destruct t1 as [|s2 t2]; [exact (Herr _ Hd)|].
    destruct (continuation s2) eqn:H2; cbn [negb] in Hd; [|exact (Herr _ Hd)].
    destruct t2 as [|s3 t3]; [exact (Herr _ Hd)|].
    destruct (continuation s3) eqn:H3; cbn [negb] in Hd; [|exact (Herr _ Hd)].
    injection Hd as <- <-. exists lo, hi.
    repeat split; auto; apply (between_high 128 _ 191); (lia || assumption).
Qed.

(** ** String literals, byte by byte *)

Lemma json_escape_ascii_safe safe b : safe b = true -> json_escape_ascii safe b = [b].
Proof. intros H. unfold json_escape_ascii. rewrite H. reflexivity. Qed.

Lemma json_escape_ascii_unsafe safe b :
  safe b = false -> json_escape_ascii safe b = json_escape_ascii (fun _ => false) b.
Proof. intros H. unfold json_escape_ascii. rewrite H. reflexivity. Qed.

Lemma json_escape_ascii_backslash b :
  exists t, json_escape_ascii (fun _ => false) b = backslash :: t.
Proof.
  unfold json_escape_ascii. repeat case_match; eexists; reflexivity.
Qed.

(** The replacement leaves every escape alone but the one of the ampersand
    and, for what may follow it, the one of the backslash. *)
Lemma unamp_escape b X :
  b <> "&"%char -> b <> backslash ->
  unamp (json_escape_ascii (fun _ => false) b ++ X)
  = json_escape_ascii (fun _ => false) b ++ unamp X.
Proof.
  intros Ha Hb.
  destruct b as [[] [] [] [] [] [] [] []];
    try (exfalso; apply Ha; reflexivity); try (exfalso; apply Hb; reflexivity);
    vm_compute; reflexivity.
Qed.

(** The recogniser reads what is written for an ASCII byte as part of the
    string. *)
Lemma json_run_escape key stk b :
  byte_val b < 128 ->
  json_run (json_escape_ascii (fun _ => false) b) (Some (InString key, stk))
  = Some (InString key, stk).
Proof.
  intros Hb.
  destruct b as [[] [] [] [] [] [] [] []];
    try (exfalso; vm_compute in Hb; discriminate Hb);
    vm_compute; reflexivity.
Qed.

Lemma json_string_body_pending safe k copy b rest :
  json_string_body safe (S k) copy (b :: rest)
  = (if copy then [b] else []) ++ json_string_body safe k copy rest.
Proof. reflexivity. Qed.

Lemma json_string_body_ascii safe copy b rest :
  byte_val b < 128 ->
  json_string_body safe 0 copy (b :: rest)
  = json_escape_ascii safe b ++ json_string_body safe 0 true rest.
Proof.
  intros Hb. cbn [json_string_body].
  rewrite (proj2 (Z.ltb_lt _ _) Hb). reflexivity.
Qed.

(** What the loop does at a byte that is not ASCII: the replacement rune for
    a byte that starts no rune, the escape of a line or paragraph separator,
    or the bytes of the rune as they are. *)
Lemma json_string_body_high copy b rest :
  128 <= byte_val b ->
  (forall safe, json_string_body safe 0 copy (b :: rest)
     = backslash :: str "ufffd" ++ json_string_body safe 0 true rest) \/
  (exists d k, (d = "8"%char \/ d = "9"%char) /\
     forall safe, json_string_body safe 0 copy (b :: rest)
       = backslash :: str "u202" ++ d :: json_string_body safe k false rest) \/
  (exists size lo hi,
     utf8_first (byte_val b) = Some (size, lo, hi) /\ (2 <= size)%nat /\
     conts (size - 1) lo hi rest /\
     forall safe, json_string_body safe 0 copy (b :: rest)
       = b :: json_string_body safe (size - 1) true rest).
Proof.
  intros Hb. cbn [json_string_body].
  rewrite (proj2 (Z.ltb_ge _ _) Hb).
  destruct (utf8_DecodeRune (b :: rest)) as [c size] eqn:Hd.
  destruct ((c =? RuneError) && (size =? 1)%nat) eqn:Herr.
  - left. reflexivity.
  - destruct (Z.eqb_spec c 8232) as [->|H1]; [|destruct (Z.eqb_spec c 8233) as [->|H2]].
    + right. left. exists "8"%char, (size - 1)%nat. split; [left|]; reflexivity.
    + right. left. exists "9"%char, (size - 1)%nat. split; [right|]; reflexivity.
    + right. right.
      destruct (utf8_DecodeRune_valid _ _ _ _ Hb Hd Herr) as (lo & hi & Hf & Hsz & Hc).
      exists size, lo, hi. repeat split; assumption || reflexivity.
Qed.

(** Safe ASCII bytes at the start of what is written for a string, up to
    and including its closing quote, were at the start of the string. *)
Lemma json_string_body_prefix_reflect safe w rest tail :
  Forall (fun c => safe c = true /\ c <> backslash /\ c <> quote /\ byte_val c < 128) w ->
  strings_HasPrefix (json_string_body safe 0 true rest ++ quote :: tail) w = true ->
  strings_HasPrefix rest w = true.
Proof.
  intros Hw. revert rest.
  induction Hw as [|c0 w (Hs & Hb & Hq & Ha) Hw IH]; intros rest.
  - intros _. apply strings_HasPrefix_nil_r.
  - destruct rest as [|b rest].
    + cbn [json_string_body app]. rewrite strings_HasPrefix_cons.
      rewrite decide_False by congruence. discriminate.
    + destruct (Z.lt_ge_cases (byte_val b) 128) as [Hlt|Hge].
      * rewrite json_string_body_ascii by exact Hlt.
        destruct (safe b) eqn:Hsafe.
        -- rewrite json_escape_ascii_safe by exact Hsafe.
           cbn [app]. rewrite !strings_HasPrefix_cons.
           destruct (decide (b = c0)); [apply IH | discriminate].
        -- rewrite json_escape_ascii_unsafe by exact Hsafe.
           destruct (json_escape_ascii_backslash b) as [t ->].
           cbn [app]. rewrite strings_HasPrefix_cons.
           rewrite decide_False by congruence. discriminate.
      * destruct (json_string_body_high true b rest Hge)
          as [H | [(d & k & _ & H) | (size & lo & hi & _ & _ & _ & H)]];
          rewrite H; cbn [app]; rewrite strings_HasPrefix_cons.
        -- rewrite decide_False by congruence. discriminate.
        -- rewrite decide_False by congruence. discriminate.
        -- rewrite decide_False by (intros ->; lia). discriminate.
Qed.

Lemma htmlSafeSet_facts b :
  htmlSafeSet b = true -> b <> backslash /\ b <> quote /\ b <> "&"%char /\ byte_val b < 128.
Proof.
  destruct b as [[] [] [] [] [] [] [] []]; intros H;
    try (vm_compute in H; discriminate H);
    repeat split; try discriminate; vm_compute; reflexivity.
Qed.

Lemma amp_safe_cases b :
  amp_safe b = htmlSafeSet b \/ (b = "&"%char /\ htmlSafeSet b = false).
Proof.
  unfold amp_safe. destruct (htmlSafeSet b) eqn:Hh; [left; reflexivity|].
  destruct (bool_decide_reflect (b = "&"%char)) as [->|]; [right | left]; auto.
Qed.

Lemma high_not_backslash b : 128 <= byte_val b -> b <> backslash.
Proof. intros H ->. apply H. vm_compute. reflexivity. Qed.

Ltac no_backslash :=
  vm_compute;
  repeat first [apply List.Forall_nil | apply List.Forall_cons; [discriminate|]].

(** On a string without the six bytes of the escaped ampersand, the
    replacement turns what [Marshal] writes for the string into the same
    with every ampersand as it is, and goes on behind the closing quote. *)
Lemma unamp_json_string_body src k copy tail :
  (k = 0%nat \/ copy = false \/ exists lo hi, conts k lo hi src) ->
  free_of amp_escape src ->
  unamp (json_string_body htmlSafeSet k copy src ++ quote :: tail)
  = json_string_body amp_safe k copy src ++ quote :: unamp tail.
Proof.
  revert k copy. induction src as [|b rest IH]; intros k copy Hk Hfree.
  { destruct k; cbn [json_string_body app]; apply unamp_other; discriminate. }
  pose proof (free_of_tail _ _ _ Hfree) as Hrest.
  destruct k as [|k].
  2:{ rewrite !json_string_body_pending.
      destruct Hk as [Hk | [-> | (lo & hi & Hlo & Hhigh & Hc)]]; [discriminate| |].
      - cbn [app]. apply IH; [right; left; reflexivity | exact Hrest].
      - destruct copy.
        + cbn [app]. rewrite unamp_other by (apply high_not_backslash, Hhigh).
          f_equal. apply IH; [|exact Hrest].
          destruct k; [left; reflexivity | right; right; eauto].
        + cbn [app]. apply IH; [right; left; reflexivity | exact Hrest]. }
  destruct (Z.lt_ge_cases (byte_val b) 128) as [Hlt|Hge].
  - rewrite !json_string_body_ascii by exact Hlt.
    rewrite <- !app_assoc.
    rewrite <- (IH 0%nat true) by (auto || exact Hrest).
    destruct (htmlSafeSet b) eqn:Hh.
    + destruct (htmlSafeSet_facts b Hh) as (Hb & _ & _ & _).
      assert (amp_safe b = true) as Ha by (unfold amp_safe; rewrite Hh; reflexivity).
      rewrite (json_escape_ascii_safe htmlSafeSet),
        (json_escape_ascii_safe amp_safe) by assumption.
      cbn [app]. apply unamp_other, Hb.
    + destruct (decide (b = "&"%char)) as [->|Hamp].
      { change (json_escape_ascii htmlSafeSet "&"%char) with amp_escape.
        change (json_escape_ascii amp_safe "&"%char) with ["&"%char].
        apply unamp_amp. }
      assert (amp_safe b = false) as Ha.
      { unfold amp_safe. rewrite Hh, bool_decide_eq_false_2 by exact Hamp.
        reflexivity. }
      rewrite (json_escape_ascii_unsafe htmlSafeSet),
        (json_escape_ascii_unsafe amp_safe) by assumption.
      destruct (decide (b = backslash)) as [->|Hb];
        [|apply unamp_escape; assumption].
      change (json_escape_ascii (fun _ => false) backslash)
        with [backslash; backslash].
      cbn [app]. rewrite unamp_backslash by reflexivity. f_equal.
      apply unamp_backslash.
      destruct (strings_HasPrefix
                  (json_string_body htmlSafeSet 0 true rest ++ quote :: tail)
                  (str "u0026")) eqn:Hp; [|reflexivity].
      apply json_string_body_prefix_reflect in Hp.
      * apply free_of_head in Hfree.
        rewrite amp_escape_cons, strings_HasPrefix_cons in Hfree.
        rewrite decide_True in Hfree by reflexivity. congruence.
      * repeat constructor; try discriminate; vm_compute; reflexivity.
  - destruct (json_string_body_high copy b rest Hge)
      as [H | [(d & k & Hd & H) | (size & lo & hi & _ & Hsz & Hc & H)]];
      rewrite !H.
    + rewrite <- !app_comm_cons, <- !app_assoc.
      rewrite <- (IH 0%nat true) by (auto || exact Hrest).
      rewrite unamp_backslash by reflexivity. reflexivity.
    + rewrite <- !app_comm_cons, <- !app_assoc, <- !app_comm_cons.
      rewrite <- (IH k false) by (auto || exact Hrest).
      rewrite unamp_backslash by reflexivity.
      destruct Hd as [-> | ->]; reflexivity.
    + rewrite <- !app_comm_cons.
      rewrite unamp_other by (apply high_not_backslash, Hge).
      f_equal. apply IH; [|exact Hrest].
      destruct (size - 1)%nat; [left; reflexivity | right; right; eauto].
Qed.

Lemma unamp_render ps X :
  Forall piece_clean ps ->
  unamp (render htmlSafeSet ps ++ X) = render amp_safe ps ++ unamp X.
Proof.
  induction 1 as [|p ps Hp Hps IH]; [reflexivity|].
  cbn [render]. rewrite <- !app_assoc. destruct p as [text|s]; cbn [piece_text].
  - rewrite unamp_layout by exact Hp. rewrite IH. reflexivity.
  - rewrite !json_string_app. rewrite unamp_other by discriminate.
    rewrite unamp_json_string_body by (auto || exact Hp).
    rewrite IH. reflexivity.
Qed.

Lemma free_of_no_backslash s :
  Forall (fun c => c <> backslash) s -> free_of amp_escape s.
Proof.
  induction 1 as [|c s Hc Hs IH]; [apply free_of_nil; discriminate|].
  apply free_of_cons; [|exact IH].
  rewrite amp_escape_cons, strings_HasPrefix_cons.
  rewrite decide_False by exact Hc. reflexivity.
Qed.

Ltac clean_piece :=
  cbn [piece_clean];
  first [ assumption
        | solve [apply free_of_no_backslash; no_backslash]
        | solve [no_backslash] ].

Lemma item_pieces_clean r : clean_item r -> Forall piece_clean (item_pieces r).
Proof.
  intros (H1 & H2 & H3 & H4). unfold item_pieces.
  repeat (apply List.Forall_cons; [clean_piece|]). apply List.Forall_nil.
Qed.

Lemma items_pieces_clean l :
  Forall clean_item l -> Forall piece_clean (items_pieces l).
Proof.
  induction 1 as [|r l Hr Hl IH]; [constructor|].
  destruct l as [|r' l].
  - cbn [items_pieces]. apply List.Forall_cons; [clean_piece|].
    apply item_pieces_clean, Hr.
  - change (items_pieces (r :: r' :: l))
      with (Layout (newline :: str "    ") :: item_pieces r
              ++ Layout (str ",") :: items_pieces (r' :: l)).
    apply List.Forall_cons; [clean_piece|].
    apply Forall_app. split; [apply item_pieces_clean, Hr|].
    apply List.Forall_cons; [clean_piece | exact IH].
Qed.

Lemma document_pieces_clean results :
  Forall clean_item (elems (Items results)) ->
  Forall piece_clean (document_pieces results).
Proof.
  intros H. unfold document_pieces.
  do 3 (apply List.Forall_cons; [clean_piece|]).
  apply Forall_app.
  split; [|apply List.Forall_cons; [clean_piece | apply List.Forall_nil]].
  destruct results as [[[|r l]|]]; cbn [array_pieces Items].
  - apply List.Forall_cons; [clean_piece | apply List.Forall_nil].
  - apply List.Forall_cons; [clean_piece|].
    apply Forall_app. split; [apply items_pieces_clean, H|].
    apply List.Forall_cons; [clean_piece | apply List.Forall_nil].
  - apply List.Forall_cons; [clean_piece | apply List.Forall_nil].
Qed.

(** On a result set without the six bytes of the escaped ampersand in any
    text, what is printed is the document with every ampersand as it is. *)
Lemma print_results_clean results :
  Forall clean_item (elems (Items results)) ->
  print_results results = json_document amp_safe results ++ [newline].
Proof.
  intros H. unfold print_results, strings_Replace, json_MarshalIndent.
  f_equal. rewrite !json_document_pieces.
  rewrite <- (app_nil_r (render htmlSafeSet _)).
  change (backslash :: str "u0026") with amp_escape.
  rewrite unamp_render by (apply document_pieces_clean, H).
  apply app_nil_r.
Qed.

(** ** The recogniser on what is printed *)

Lemma json_run_app a b st : json_run (a ++ b) st = json_run b (json_run a st).
Proof. revert st. induction a as [|c a IH]; intros st; [reflexivity|]. apply IH. Qed.

Lemma json_run_cons c s st :
  json_run (c :: s) st = json_run s (st ≫= fun st => json_step st c).
Proof. reflexivity. Qed.

Lemma json_run_None s : json_run s None = None.
Proof. induction s as [|c s IH]; [reflexivity | exact IH]. Qed.

Lemma json_step_safe safe key stk b :
  safe_ok safe -> safe b = true ->
  json_step (InString key, stk) b = Some (InString key, stk).
Proof.
  intros Hok Hb. destruct (Hok b Hb) as (Hr & Hq & Hs).
  unfold between in Hr. apply andb_true_iff in Hr as [H1 H2].
  apply Z.leb_le in H1, H2. cbn [json_step].
  rewrite !bool_decide_eq_false_2 by assumption.
  rewrite (proj2 (Z.ltb_ge _ _)) by lia.
  rewrite (proj2 (Z.ltb_lt _ _)) by lia. reflexivity.
Qed.

Lemma json_step_lead key stk b size lo hi :
  128 <= byte_val b ->
  utf8_first (byte_val b) = Some (size, lo, hi) ->
  json_step (InString key, stk) b = Some (InUtf8 key (size - 1) lo hi, stk).
Proof.
  intros Hb Hf. cbn [json_step].
  rewrite !bool_decide_eq_false_2
    by (intros ->; apply Hb; vm_compute; reflexivity).
  rewrite !(proj2 (Z.ltb_ge _ _)) by lia.
  rewrite Hf. reflexivity.
Qed.

Lemma json_run_replacement key stk :
  json_run (backslash :: str "ufffd") (Some (InString key, stk))
  = Some (InString key, stk).
Proof. vm_compute. reflexivity. Qed.

Lemma json_run_separator key stk d :
  d = "8"%char \/ d = "9"%char ->
  json_run (backslash :: str "u202" ++ [d]) (Some (InString key, stk))
  = Some (InString key, stk).
Proof. intros [-> | ->]; vm_compute; reflexivity. Qed.

(** What is written for a string keeps the recogniser inside the string. *)
Lemma json_run_string_body safe key stk src :
  safe_ok safe ->
  forall k copy m,
    ((k = 0%nat \/ copy = false) /\ m = InString key) \/
    (copy = true /\ exists k' lo hi,
       k = S k' /\ m = InUtf8 key (S k') lo hi /\ conts (S k') lo hi src) ->
    json_run (json_string_body safe k copy src) (Some (m, stk))
    = Some (InString key, stk).
Proof.
  intros Hok. induction src as [|b rest IH]; intros k copy m Hm.
  { destruct Hm as [[_ ->] | (_ & k' & lo & hi & _ & _ & [])].
    destruct k; reflexivity. }
  destruct k as [|k].
  - destruct Hm as [[_ ->] | (_ & k' & lo & hi & Hk & _)]; [|discriminate].
    destruct (Z.lt_ge_cases (byte_val b) 128) as [Hlt|Hge].
    + rewrite json_string_body_ascii, json_run_app by exact Hlt.
      destruct (safe b) eqn:Hb.
      * rewrite json_escape_ascii_safe by exact Hb.
        rewrite json_run_cons. cbn [mbind option_bind].
        rewrite (json_step_safe safe) by assumption.
        apply IH. left. auto.
      * rewrite json_escape_ascii_unsafe, json_run_escape by assumption.
        apply IH. left. auto.
    + destruct (json_string_body_high copy b rest Hge)
        as [H | [(d & k & Hd & H) | (size & lo & hi & Hf & Hsz & Hc & H)]];
        rewrite H.
      * change (backslash :: str "ufffd" ++ ?x) with ((backslash :: str "ufffd") ++ x).
        rewrite json_run_app, json_run_replacement. apply IH. left. auto.
      * change (backslash :: str "u202" ++ d :: ?x)
          with ((backslash :: str "u202" ++ [d]) ++ x).
        rewrite json_run_app, json_run_separator by exact Hd.
        apply IH. left. auto.
      * rewrite json_run_cons. cbn [mbind option_bind].
        rewrite (json_step_lead _ _ _ _ _ _ Hge Hf).
        apply IH. right. split; [reflexivity|].
        destruct size as [|[|size']]; try lia.
        exists size', lo, hi. repeat split; exact Hc || reflexivity.
  - rewrite json_string_body_pending.
    destruct Hm as [[[Hk | ->] ->] | (-> & k' & lo & hi & [= <-] & -> & Hb & Hhigh & Hc)];
      [discriminate | |].
    + cbn [app]. apply IH. left. auto.
    + cbn [app]. rewrite json_run_cons. cbn [mbind option_bind json_step].
      rewrite Hb. destruct k as [|k''].
      * apply IH. left. auto.
      * apply IH. right. split; [reflexivity|]. exists k'', 128, 191. auto.
Qed.

Lemma json_run_json_string safe s m m' stk :
  safe_ok safe -> after_literal m = Some m' ->
  json_run (json_string safe s) (Some (m, stk)) = Some (m', stk).
Proof.
  intros Hok Hm. unfold json_string.
  rewrite json_run_cons. cbn [mbind option_bind].
  assert (exists key, json_step (m, stk) quote = Some (InString key, stk) /\
                      m' = if key then AfterKey else AfterValue) as (key & -> & ->).
  { destruct m; try discriminate; injection Hm as <-;
      [exists false | exists false | exists true | exists true];
      split; vm_compute; reflexivity. }
  rewrite json_run_app.
  rewrite (json_run_string_body safe key stk s Hok) by (left; auto).
  vm_compute. destruct key; reflexivity.
Qed.

Lemma run_pieces_None ps : run_pieces ps None = None.
Proof.
  induction ps as [|[text|s] ps IH]; [reflexivity| |]; cbn [run_pieces].
  - rewrite json_run_None. exact IH.
  - exact IH.
Qed.

Lemma run_pieces_app ps qs st :
  run_pieces (ps ++ qs) st = run_pieces qs (run_pieces ps st).
Proof.
  revert st. induction ps as [|[text|s] ps IH]; intros st; [reflexivity| |];
    cbn [app run_pieces]; apply IH.
Qed.

(** The recogniser reads the rendering of pieces as it reads the pieces. *)
Lemma json_run_render safe ps st st' :
  safe_ok safe ->
  run_pieces ps st = Some st' -> json_run (render safe ps) st = Some st'.
Proof.
  intros Hok. revert st. induction ps as [|[text|s] ps IH]; intros st Hrun;
    cbn [render piece_text run_pieces] in *.
  - exact Hrun.
  - rewrite json_run_app. apply IH, Hrun.
  - rewrite json_run_app. apply IH.
    destruct st as [[m stk]|]; [|rewrite run_pieces_None in Hrun; discriminate].
    cbn [mbind option_bind fst snd] in Hrun.
    destruct (after_literal m) as [m'|] eqn:Hm;
      [|cbn in Hrun; rewrite run_pieces_None in Hrun; discriminate].
    rewrite (json_run_json_string safe s m m' stk Hok Hm). exact Hrun.
Qed.

Lemma htmlSafeSet_ok : safe_ok htmlSafeSet.
Proof.
  intros b. destruct b as [[] [] [] [] [] [] [] []]; intros H;
    try (vm_compute in H; discriminate H);
    repeat split; try discriminate; vm_compute; reflexivity.
Qed.

Lemma amp_safe_ok : safe_ok amp_safe.
Proof.
  intros b. destruct b as [[] [] [] [] [] [] [] []]; intros H;
    try (vm_compute in H; discriminate H);
    repeat split; try discriminate; vm_compute; reflexivity.
Qed.

Lemma run_item_pieces r m stk :
  m = BeginValue \/ m = BeginValueOrClose ->
  run_pieces (Layout (newline :: str "    ") :: item_pieces r) (Some (m, stk))
  = Some (AfterValue, stk).
Proof. intros [-> | ->]; vm_compute; reflexivity. Qed.

Lemma run_items_pieces l m stk :
  l <> [] -> m = BeginValue \/ m = BeginValueOrClose ->
  run_pieces (items_pieces l) (Some (m, InArray :: stk))
  = Some (AfterValue, InArray :: stk).
Proof.
  revert m. induction l as [|r l IH]; intros m Hl Hm; [contradiction|].
  destruct l as [|r' l].
  - cbn [items_pieces]. apply run_item_pieces, Hm.
  - change (items_pieces (r :: r' :: l))
      with ((Layout (newline :: str "    ") :: item_pieces r)
              ++ Layout (str ",") :: items_pieces (r' :: l)).
    rewrite run_pieces_app, run_item_pieces by exact Hm.
    cbn [run_pieces].
    change (json_run (str ",") (Some (AfterValue, InArray :: stk)))
      with (Some (BeginValue, InArray :: stk)).
    apply IH; [discriminate | left; reflexivity].
Qed.

Lemma run_document_pieces results :
  run_pieces (document_pieces results) (Some (BeginValue, []))
  = Some (AfterValue, []).
Proof.
  unfold document_pieces.
  change (Layout ?a :: Literal ?b :: Layout ?c :: ?x ++ ?y)
    with ([Layout a; Literal b; Layout c] ++ x ++ y).
  rewrite !run_pieces_app.
  replace (run_pieces [Layout (str "{" ++ newline :: str "  ");
                       Literal (str "items"); Layout (str ": ")]
             (Some (BeginValue, [])))
    with (Some (BeginValue, [InObject])) by (vm_compute; reflexivity).
  assert (run_pieces (array_pieces (Items results)) (Some (BeginValue, [InObject]))
          = Some (AfterValue, [InObject])) as ->.
  { destruct results as [[[|r l]|]]; cbn [Items array_pieces].
    - vm_compute. reflexivity.
    - change (Layout ?a :: ?x ++ ?y) with ([Layout a] ++ x ++ y).
      rewrite !run_pieces_app.
      replace (run_pieces [Layout (str "[")] (Some (BeginValue, [InObject])))
        with (Some (BeginValueOrClose, [InArray; InObject]))
        by (vm_compute; reflexivity).
      rewrite run_items_pieces by (discriminate || auto).
      vm_compute. reflexivity.
    - vm_compute. reflexivity. }
  vm_compute. reflexivity.
Qed.

(** Whatever the result set, what [MarshalIndent] returns is a valid JSON
    document, and so is the same document with the ampersands as they are. *)
Lemma json_document_valid safe results :
  safe_ok safe -> json_valid (json_document safe results ++ [newline]) = true.
Proof.
  intros Hok. unfold json_valid.
  rewrite json_run_app, json_document_pieces.
  rewrite (json_run_render safe _ _ _ Hok (run_document_pieces results)).
  vm_compute. reflexivity.
Qed.

Lemma strings_HasPrefix_snoc t c p :
  c ∉ p -> strings_HasPrefix (t ++ [c]) p = true -> strings_HasPrefix t p = true.
Proof.
  revert p. induction t as [|x t IH]; intros [|d p] Hc; try reflexivity.
  - cbn [app]. rewrite strings_HasPrefix_cons.
    rewrite decide_False by (intros ->; apply Hc; left). discriminate.
  - rewrite <- app_comm_cons, !strings_HasPrefix_cons.
    destruct (decide (x = d)); [|discriminate].
    apply IH. intros Hin. apply Hc. right. exact Hin.
Qed.

Lemma free_of_snoc p s c : p <> [] -> c ∉ p -> free_of p s -> free_of p (s ++ [c]).
Proof.
  intros Hp Hc Hs i [Hi Hpre].
  rewrite length_app in Hi. cbn [length] in Hi.
  destruct (decide (i <= length s)%nat) as [Hle|Hgt].
  - rewrite drop_app_le in Hpre by exact Hle.
    apply strings_HasPrefix_spec, strings_HasPrefix_snoc in Hpre; [|exact Hc].
    apply (Hs i). split; [exact Hle | apply strings_HasPrefix_spec, Hpre].
  - rewrite drop_ge in Hpre by (rewrite length_app; cbn [length]; lia).
    apply prefix_nil_inv in Hpre. contradiction.
Qed.

(** C6, as stated, fails. A matched line of a note can hold the six bytes
    of an escaped ampersand; [MarshalIndent] escapes its backslash, the
    replacement then leaves a backslash before an ampersand, which is no
    escape of JSON: the output is not a valid document, though the document
    was valid before the replacement. And content mode without any match
    prints [null] for the items, not a list. *)
Lemma print_results_counterexample :
  let results := {| Items := Some
    [ {| Type_ := str "default"; Title := str "api";
         Subtitle := str "href=a\u0026b";
         Arg := str "obsidian://open?vault=work&file=api.md" |} ] |} in
  json_valid (json_MarshalIndent results ++ [newline]) = true /\
  json_valid (print_results results) = false /\
  print_results {| Items := None |}
  = str "{" ++ newline :: str "  " ++ quote :: str "items" ++ quote :: str ": null"
      ++ newline :: str "}" ++ [newline].
Proof. cbv zeta. repeat split; vm_compute; reflexivity. Qed.

(** C6, amended. After the replacement no escaped ampersand is left in the
    output, whatever the result set. When no type, title, subtitle or target
    holds the six bytes of an escaped ampersand itself, the output is the
    indented document [{"items": ...}] with every ampersand as it is, the
    items being [null] for the nil slice and else the list of objects with
    the keys type, title, subtitle and arg, and it is a valid JSON
    document. *)
Theorem print_results_json (results : AlfredResults) :
  free_of amp_escape (print_results results) /\
  (Forall clean_item (elems (Items results)) ->
   print_results results = json_document amp_safe results ++ [newline] /\
   json_valid (print_results results) = true).
Proof.
  split.
  - unfold print_results. apply free_of_snoc.
    + discriminate.
    + intros Hin. vm_compute in Hin.
      repeat (apply elem_of_cons in Hin as [Hin|Hin]; [discriminate Hin|]).
      inversion Hin.
    + apply replace_from_free.
  - intros Hclean. rewrite (print_results_clean results Hclean).
    split; [reflexivity|]. apply json_document_valid, amp_safe_ok.
Qed.

Lemma print_results_json_witness :
  let results := {| Items := Some
    [ {| Type_ := str "default"; Title := str "R&D";
         Subtitle := str "budget for R&D <draft>";
         Arg := str "obsidian://open?vault=work&file=R&D.md" |} ] |} in
  print_results results = json_document amp_safe results ++ [newline] /\
  json_valid (print_results results) = true.
Proof.
  cbv zeta. apply print_results_json.
  repeat (apply List.Forall_cons; [|]); [|apply List.Forall_nil].
  repeat split; cbn [Type_ Title Subtitle Arg];
    apply free_of_no_backslash; no_backslash.
Defined.

(** * Further properties: whole runs, edge cases and invariants *)

(** ** Splitting the output of a command *)

Lemma strings_Split_nonempty s sep : strings_Split s sep <> [].
Proof.
  destruct s as [|c s]; [discriminate|].
  rewrite strings_Split_cons.
  destruct (decide (c = sep)); [discriminate|].
  destruct (strings_Split s sep); discriminate.
Qed.

Lemma strings_Join_cons e e' rest sep :
  strings_Join (e :: e' :: rest) sep = e ++ sep ++ strings_Join (e' :: rest) sep.
Proof. reflexivity. Qed.

Lemma count_byte_cons c d s :
  count_byte c (d :: s)
  = if decide (d = c) then S (count_byte c s) else count_byte c s.
Proof.
  unfold count_byte. rewrite filter_cons.
  destruct (decide (d = c)); reflexivity.
Qed.

(** There is one token more than there are separators. *)
Lemma strings_Split_count s sep :
  length (strings_Split s sep) = S (count_byte sep s).
Proof.
  induction s as [|c s IH]; [reflexivity|].
  rewrite strings_Split_cons, count_byte_cons.
  pose proof (strings_Split_nonempty s sep) as Hne.
  destruct (strings_Split s sep) as [|tok toks]; [contradiction|].
  destruct (decide (c = sep)); [cbn [length]; f_equal|]; exact IH.
Qed.

(** X1. [strings.Split] on a one-byte separator loses nothing: joining the
    tokens with the separator gives the text back, no token contains the
    separator, and there is one token more than there are separators in the
    text. So the output of a command is cut exactly at its null bytes (or
    its newlines). *)
Theorem strings_Split_Join (s : gostring) (sep : ascii) :
  strings_Join (strings_Split s sep) [sep] = s /\
  Forall (fun tok => sep ∉ tok) (strings_Split s sep) /\
  length (strings_Split s sep) = S (count_byte sep s).
Proof.
  split; [|split; [|apply strings_Split_count]].
  - induction s as [|c s IH]; [reflexivity|].
    rewrite strings_Split_cons.
    pose proof (strings_Split_nonempty s sep) as Hne.
    destruct (strings_Split s sep) as [|tok toks]; [contradiction|].
    destruct (decide (c = sep)) as [->|Hc].
    + rewrite strings_Join_cons, IH. reflexivity.
    + rewrite <- IH. destruct toks; reflexivity.
  - induction s as [|c s IH].
    { constructor; [apply not_elem_of_nil | constructor]. }
    rewrite strings_Split_cons.
    destruct (decide (c = sep)) as [->|Hc].
    + constructor; [apply not_elem_of_nil | exact IH].
    + destruct (strings_Split s sep) as [|tok toks].
      { constructor; [|constructor].
        intros [Heq|Hin]%elem_of_cons; [congruence | inversion Hin]. }
      inversion IH as [|? ? Htok Htoks]; subst.
      constructor; [|exact Htoks].
      intros [Heq|Hin]%elem_of_cons; [congruence | contradiction].
Qed.

Lemma strings_Split_terminated path rest sep :
  sep ∉ path ->
  strings_Split (path ++ sep :: rest) sep = path :: strings_Split rest sep.
Proof.
  induction path as [|c path IH]; intros Hfree.
  - cbn [app]. rewrite strings_Split_cons, decide_True by reflexivity. reflexivity.
  - rewrite <- app_comm_cons, strings_Split_cons.
    rewrite decide_False by (intros ->; apply Hfree, list_elem_of_here).
    rewrite IH by (intros Hin; apply Hfree, list_elem_of_further, Hin).
    reflexivity.
Qed.

Lemma strings_Split_print0 paths :
  Forall (fun path => "000"%char ∉ path) paths ->
  strings_Split (print0 paths) "000"%char = paths ++ [[]].
Proof.
  induction 1 as [|path paths Hpath _ IH]; [reflexivity|].
  unfold print0 in *. cbn [map concat]. rewrite <- app_assoc.
  cbn [app]. rewrite strings_Split_terminated by exact Hpath.
  rewrite IH. reflexivity.
Qed.

(** ** Filename mode on any output *)

(** X2. When the file-finder prints its paths the way [fd -0] does, every
    path followed by a null byte, filename mode returns the items of the
    paths, in order, and one zero-valued item after them: [n] paths give
    [n + 1] items. *)
Theorem findMatchingFiles_print0 (paths : list gostring) (vault : gostring) :
  Forall (fun path => path <> [] /\ "000"%char ∉ path) paths ->
  go_string (print0 paths) ->
  exists items,
    findMatchingFiles_shape (print0 paths) vault
    = Some {| Items := Some (items ++ [zero_AlfredResult]) |} /\
    items_of_paths vault paths items /\
    Forall (fun item => Subtitle item = []) items.
Proof.
  intros Hpaths Hgo.
  destruct (findMatchingFiles_shape_items (print0 paths) vault Hgo)
    as (items & Hshape & Hitems).
  rewrite strings_Split_print0 in Hitems
    by (eapply Forall_impl; [exact Hpaths | intros ? [_ H]; exact H]).
  apply Forall2_app_inv_l in Hitems as (front & back & Hfront & Hback & ->).
  inversion Hback as [|? last ? ? Hlast Hnil]; subst.
  inversion Hnil; subst. cbn [token_item] in Hlast. subst last.
  exists front. split; [exact Hshape|].
  clear Hshape Hgo Hback Hnil. unfold items_of_paths.
  induction Hfront as [|path item paths' items' Hitem _ IH];
    [split; constructor|].
  inversion Hpaths as [|? ? [Hne _] Hrest]; subst.
  destruct (IH Hrest) as [IHitems IHsub].
  destruct path; [contradiction|].
  destruct Hitem as (Htype & Htitle & Hsub & Harg).
  split; constructor; auto.
Qed.

Lemma findMatchingFiles_print0_witness :
  exists items,
    findMatchingFiles_shape (print0 [str "notes/Plan.md"; str "todo.txt"]) (str "work")
    = Some {| Items := Some (items ++ [zero_AlfredResult]) |} /\
    items_of_paths (str "work") [str "notes/Plan.md"; str "todo.txt"] items /\
    Forall (fun item => Subtitle item = []) items.
Proof.
  apply findMatchingFiles_print0.
  - repeat (apply List.Forall_cons;
            [split; [discriminate | intros Hin; vm_compute in Hin;
               repeat (apply elem_of_cons in Hin as [Hin|Hin]; [discriminate Hin|]);
               inversion Hin] |]).
    apply List.Forall_nil.
  - vm_compute. discriminate.
Defined.

(** X3. Whatever the file-finder prints, filename mode never panics and
    returns a slice that is not nil, with exactly one item more than there
    are null bytes in the output; with no output at all that is one
    zero-valued item. *)
Theorem findMatchingFiles_item_count (out vault : gostring) :
  go_string out ->
  exists items,
    findMatchingFiles_shape out vault = Some {| Items := Some items |} /\
    length items = S (count_byte "000"%char out) /\
    (out = [] -> items = [zero_AlfredResult]).
Proof.
  intros Hgo.
  destruct (findMatchingFiles_shape_items out vault Hgo) as (items & Hshape & Hitems).
  exists items. split; [exact Hshape|]. split.
  - rewrite <- (Forall2_length _ _ _ Hitems). apply strings_Split_count.
  - intros ->. cbn [strings_Split] in Hitems.
    inversion Hitems as [|? item ? ? Hitem Hnil]; subst.
    inversion Hnil; subst. cbn [token_item] in Hitem. subst item. reflexivity.
Qed.

Lemma findMatchingFiles_item_count_witness :
  exists items,
    findMatchingFiles_shape (print0 [str "notes/Plan.md"; str "todo.txt"]) (str "work")
    = Some {| Items := Some items |} /\
    length items = S (count_byte "000"%char (print0 [str "notes/Plan.md"; str "todo.txt"])) /\
    (print0 [str "notes/Plan.md"; str "todo.txt"] = [] -> items = [zero_AlfredResult]).
Proof.
  apply findMatchingFiles_item_count. vm_compute. discriminate.
Defined.

(** ** Content mode: what the loop keeps *)

Section ContentModeInvariant.

Variable json_Unmarshal : gostring -> RipGrepResult -> option RipGrepResult.
Variables searchTerm vault : gostring.

Lemma grep_step_invariant line st st' paths :
  grep_invariant vault paths st ->
  grep_step json_Unmarshal searchTerm vault line st = Done st' ->
  exists more, grep_invariant vault (paths ++ more) st'.
Proof.
  intros (Hnodup & Hitems & Hfound & Hnil) Hstep.
  unfold grep_step in Hstep.
  destruct (negb (strings_HasPrefix line (str "{"))).
  { injection Hstep as <-. exists []. rewrite app_nil_r.
    exact (conj Hnodup (conj Hitems (conj Hfound Hnil))). }
  destruct (json_Unmarshal line (rgr st)) as [r|]; [|discriminate].
  assert (grep_invariant vault (paths ++ [])
            {| results := results st; rgr := r; alreadyFound := alreadyFound st |})
    as Hsame by (rewrite app_nil_r;
                 exact (conj Hnodup (conj Hitems (conj Hfound Hnil)))).
  destruct (bool_decide (Rg_Type r = str "match"));
    [|injection Hstep as <-; exists []; exact Hsame].
  destruct (alreadyFound st !! Data_Path_Text r) eqn:Hseen;
    [injection Hstep as <-; exists []; exact Hsame|].
  destruct (withoutMd (filepath_Base (Data_Path_Text r))) as [title|] eqn:Htitle;
    [|discriminate].
  destruct (fruncate (Data_Lines_Text r) searchTerm 10 5) as [subtitle|];
    [|discriminate].
  cbn in Hstep. injection Hstep as <-.
  exists [Data_Path_Text r]. unfold grep_invariant. cbn [results alreadyFound].
  assert (Data_Path_Text r ∉ paths) as Hnew.
  { intros Hin. apply Hfound in Hin as [b Hb]. congruence. }
  split; [|split; [|split]].
  - apply NoDup_app. split; [exact Hnodup|]. split.
    + intros path Hin [->|H]%elem_of_cons; [contradiction | inversion H].
    + apply NoDup_singleton.
  - unfold append, elems. cbn [default]. apply Forall2_app; [exact Hitems|].
    constructor; [|constructor]. cbn [Type_ Title Arg].
    split; [reflexivity|]. split; [exact Htitle | reflexivity].
  - intros path. rewrite elem_of_app, list_elem_of_singleton, Hfound.
    rewrite lookup_insert_is_Some. split.
    + intros [H| ->]; [|left; reflexivity].
      destruct (decide (Data_Path_Text r = path)); [left|right]; tauto.
    + intros [H|[_ H]]; [right; symmetry; exact H | left; exact H].
  - unfold append. split; [discriminate|].
    intros H. apply app_eq_nil in H as [_ H]. discriminate H.
Qed.

Lemma grep_loop_invariant lines st st' paths :
  grep_invariant vault paths st ->
  grep_loop json_Unmarshal searchTerm vault lines st = Done st' ->
  exists more, grep_invariant vault (paths ++ more) st'.
Proof.
  revert st paths. induction lines as [|line lines IH]; intros st paths Hinv Hloop.
  - injection Hloop as <-. exists []. rewrite app_nil_r. exact Hinv.
  - rewrite grep_loop_cons in Hloop.
    destruct (grep_step json_Unmarshal searchTerm vault line st) as [st1| |] eqn:Hstep;
      [|discriminate..].
    cbn [mbind outcome_bind] in Hloop.
    destruct (grep_step_invariant _ _ _ _ Hinv Hstep) as (more1 & Hinv1).
    destruct (IH _ _ Hinv1 Hloop) as (more2 & Hinv2).
    exists (more1 ++ more2). rewrite app_assoc. exact Hinv2.
Qed.

Lemma grep_loop_skips lines st :
  Forall (fun line => strings_HasPrefix line (str "{") = false) lines ->
  grep_loop json_Unmarshal searchTerm vault lines st = Done st.
Proof.
  induction 1 as [|line lines Hline _ IH]; [reflexivity|].
  rewrite grep_loop_cons, grep_step_skip by exact Hline. exact IH.
Qed.

End ContentModeInvariant.

Lemma grep_invariant_init vault : grep_invariant vault [] grep_init.
Proof.
  split; [apply NoDup_nil_2|]. split; [constructor|]. split; [|tauto].
  intros path. cbn [alreadyFound grep_init]. rewrite lookup_empty. split.
  - intros H. inversion H.
  - intros [b H]. discriminate H.
Qed.

(** X4. Whatever the content search prints and however the lines decode,
    when content mode returns at all its items stand one to one for
    pairwise distinct paths, in the order in which the paths were found:
    every item is of kind ["default"], has the title and the URL of its
    path, no two items share a URL, and the slice is nil exactly when no
    path was found. *)
Theorem grep_items_distinct
    (json_Unmarshal : gostring -> RipGrepResult -> option RipGrepResult)
    (searchTerm vault out : gostring) (results : AlfredResults) :
  grepMatchingFiles_shape json_Unmarshal searchTerm vault out = Done results ->
  exists paths,
    NoDup paths /\
    items_of_paths vault paths (elems (Items results)) /\
    (Items results = None <-> paths = []) /\
    NoDup (Arg <$> elems (Items results)).
Proof.
  unfold grepMatchingFiles_shape. intros Hshape.
  destruct (grep_loop json_Unmarshal searchTerm vault
              (strings_Split out "010"%char) grep_init) as [st| |] eqn:Hloop;
    [|discriminate..].
  cbn [mbind outcome_bind] in Hshape. injection Hshape as <-.
  assert (exists more, grep_invariant vault ([] ++ more) st)
    as (paths & Hnodup & Hitems & _ & Hnil)
    by (eapply grep_loop_invariant; [apply grep_invariant_init | exact Hloop]).
  cbn [app] in *. cbn [Items]. exists paths.
  split; [exact Hnodup|]. split; [exact Hitems|]. split; [exact Hnil|].
  clear Hnil Hloop. revert Hnodup. unfold items_of_paths in Hitems.
  induction Hitems as [|path item paths' items' (_ & _ & Harg) Hrest IH];
    intros Hnodup; [apply NoDup_nil_2|].
  apply NoDup_cons in Hnodup as [Hnotin Hnodup].
  cbn [fmap list_fmap]. apply NoDup_cons. split; [|apply IH, Hnodup].
  intros Hin. apply Hnotin. apply list_elem_of_fmap in Hin as (item' & Heq & Hin).
  clear IH Hnotin Hnodup.
  induction Hrest as [|path' it paths'' items'' (_ & _ & Harg') _ IH];
    [inversion Hin|].
  apply elem_of_cons in Hin as [->|Hin].
  - rewrite Harg, Harg' in Heq. apply asObsidianUrl_inj in Heq as ->.
    apply list_elem_of_here.
  - apply list_elem_of_further, IH, Hin.
Qed.

Lemma grep_items_distinct_witness :
  let results := {| Items := Some
    [ {| Type_ := str "default"; Title := str "cats";
         Subtitle := str "know about cats";
         Arg := str "obsidian://open?vault=work&file=notes%2Fcats.md" |};
      {| Type_ := str "default"; Title := str "pets";
         Subtitle := str "dogs, cats and a parrot";
         Arg := str "obsidian://open?vault=work&file=pets.md" |} ] |} in
  exists paths,
    NoDup paths /\
    items_of_paths (str "work") paths (elems (Items results)) /\
    (Items results = None <-> paths = []) /\
    NoDup (Arg <$> elems (Items results)).
Proof.
  cbv zeta.
  apply (grep_items_distinct sample_Unmarshal (str "cats") (str "work") sample_stream).
  vm_compute. reflexivity.
Defined.

(** ** Texts without a backslash *)

Section Bytes.

Variable P : ascii -> Prop.

Lemma Forall_strings_Split s sep :
  Forall P s -> Forall (Forall P) (strings_Split s sep).
Proof.
  induction 1 as [|c s Hc _ IH]; [repeat constructor|].
  rewrite strings_Split_cons. destruct (decide (c = sep)).
  - constructor; [constructor | exact IH].
  - destruct (strings_Split s sep) as [|tok toks]; [repeat constructor; exact Hc|].
    inversion IH; subst. constructor; [constructor|]; assumption.
Qed.

Lemma Forall_strip_separators r : Forall P r -> Forall P (strip_separators r).
Proof.
  induction 1 as [|c r Hc Hr IH]; [constructor|].
  cbn [strip_separators]. destruct (decide (c = "/"%char)); [exact IH|].
  constructor; assumption.
Qed.

Lemma Forall_until_separator r : Forall P r -> Forall P (until_separator r).
Proof.
  induction 1 as [|c r Hc Hr IH]; [constructor|].
  cbn [until_separator]. destruct (decide (c = "/"%char)); constructor; assumption.
Qed.

Lemma Forall_filepath_Base path :
  P "."%char -> P "/"%char -> Forall P path -> Forall P (filepath_Base path).
Proof.
  intros Hdot Hsep Hpath. unfold filepath_Base.
  destruct path as [|c path]; [repeat constructor; exact Hdot|].
  assert (Forall P (reverse (until_separator (strip_separators (reverse (c :: path))))))
    as Hbase.
  { apply Forall_reverse, Forall_until_separator, Forall_strip_separators,
      Forall_reverse, Hpath. }
  destruct (reverse _); [repeat constructor; exact Hsep | exact Hbase].
Qed.

Lemma Forall_slice s lo hi r : slice s lo hi = Some r -> Forall P s -> Forall P r.
Proof.
  unfold slice. destruct (_ && _); [|discriminate].
  intros [= <-] Hs. apply Forall_take, Forall_drop, Hs.
Qed.

Lemma Forall_withoutMd filename title :
  withoutMd filename = Some title -> Forall P filename -> Forall P title.
Proof.
  unfold withoutMd. destruct (strings_HasSuffix _ _).
  - apply Forall_slice.
  - intros [= <-] H. exact H.
Qed.

Lemma Forall_fruncate s p n m r :
  fruncate s p n m = Some r -> Forall P s -> Forall P r.
Proof.
  unfold fruncate. destruct (n <? strings_Index s p); [|intros [= <-] H; exact H].
  destruct (slice s 0 _) as [head|]; [|discriminate]. cbn [mbind option_bind].
  destruct (_ && _); unfold slice_from; apply Forall_slice.
Qed.

End Bytes.

Lemma url_PathEscape_no_backslash path : no_backslash_in (url_PathEscape path).
Proof.
  induction path as [|c path IH]; [constructor|].
  rewrite url_PathEscape_cons. apply Forall_app. split; [|exact IH].
  eapply Forall_impl; [apply escape_byte_encoded|].
  intros d [Hd| ->]; [|discriminate].
  intros ->. vm_compute in Hd. discriminate Hd.
Qed.

Lemma asObsidianUrl_no_backslash path vault :
  no_backslash_in vault -> no_backslash_in (asObsidianUrl path vault).
Proof.
  intros Hvault. unfold asObsidianUrl, no_backslash_in.
  rewrite !Forall_app. split; [no_backslash|]. split; [exact Hvault|].
  split; [no_backslash | apply url_PathEscape_no_backslash].
Qed.

Lemma clean_item_no_backslash item :
  no_backslash_in (Type_ item) -> no_backslash_in (Title item) ->
  no_backslash_in (Subtitle item) -> no_backslash_in (Arg item) ->
  clean_item item.
Proof. intros. repeat split; apply free_of_no_backslash; assumption. Qed.

Lemma valid_when_clean results :
  Forall clean_item (elems (Items results)) ->
  json_valid (print_results results) = true.
Proof.
  intros Hclean. rewrite (print_results_clean results Hclean).
  apply json_document_valid, amp_safe_ok.
Qed.

(** Filename mode on an output and a vault identifier without a backslash:
    what is printed for its result is a valid JSON document. *)
Lemma findMatchingFiles_shape_valid out vault :
  go_string out -> no_backslash_in out -> no_backslash_in vault ->
  exists results,
    findMatchingFiles_shape out vault = Some results /\
    json_valid (print_results results) = true.
Proof.
  intros Hgo Hout Hvault.
  destruct (findMatchingFiles_shape_items out vault Hgo) as (items & Hshape & Hitems).
  exists {| Items := Some items |}. split; [exact Hshape|].
  apply valid_when_clean. cbn [Items elems default].
  pose proof (Forall_strings_Split _ out "000"%char Hout) as Htokens.
  clear Hshape.
  induction Hitems as [|token item tokens items' Hitem _ IH]; [constructor|].
  inversion Htokens as [|? ? Htoken Hrest]; subst.
  constructor; [|apply IH, Hrest].
  destruct token as [|c token]; cbn [token_item] in Hitem.
  - subst item. apply clean_item_no_backslash; constructor.
  - destruct Hitem as (Htype & Htitle & Hsub & Harg).
    apply clean_item_no_backslash.
    + rewrite Htype. no_backslash.
    + eapply Forall_withoutMd; [exact Htitle|].
      apply Forall_filepath_Base; [discriminate.. | exact Htoken].
    + rewrite Hsub. constructor.
    + rewrite Harg. apply asObsidianUrl_no_backslash, Hvault.
Qed.

Lemma Forall_first_per_path (Q : RipGrepResult -> Prop) records :
  Forall Q records -> Forall Q (first_per_path records).
Proof.
  induction 1 as [|r records Hr _ IH]; [constructor|].
  cbn [first_per_path]. constructor; [exact Hr|].
  apply Forall_forall. intros r' [_ Hin]%list_elem_of_filter.
  exact (proj1 (Forall_forall _ _) IH r' Hin).
Qed.

(** The items of a stream that decodes: those of the first record of every
    path. *)
Lemma grepMatchingFiles_shape_items json_Unmarshal searchTerm vault out records :
  match_records json_Unmarshal (strings_Split out newline) = Some records ->
  Forall go_record records ->
  exists items,
    grepMatchingFiles_shape json_Unmarshal searchTerm vault out
    = Done {| Items := match items with [] => None | _ => Some items end |} /\
    Forall2 (built_from searchTerm vault) (first_per_path records) items.
Proof.
  unfold match_records. intros Hrec Hgo.
  destruct (decoded json_Unmarshal (strings_Split out newline) zero_RipGrepResult)
    as [all|] eqn:Hdec; [|discriminate].
  injection Hrec as <-.
  destruct (grep_loop_spec json_Unmarshal searchTerm vault _ grep_init all Hdec Hgo)
    as (st' & items & Hloop & Hall & Hres).
  cbn [alreadyFound grep_init] in Hall. rewrite unseen_empty in Hall.
  exists items. split; [|exact Hall].
  unfold grepMatchingFiles_shape. change "010"%char with newline.
  rewrite Hloop. cbn [mbind outcome_bind]. rewrite Hres.
  destruct items; reflexivity.
Qed.

(** Content mode on a stream that decodes to records without a backslash in
    path and line, for a vault identifier without one: what is printed for
    its result is a valid JSON document. *)
Lemma grepMatchingFiles_shape_valid json_Unmarshal searchTerm vault out records :
  match_records json_Unmarshal (strings_Split out newline) = Some records ->
  Forall go_record records ->
  Forall (fun r => no_backslash_in (Data_Path_Text r) /\
                   no_backslash_in (Data_Lines_Text r)) records ->
  no_backslash_in vault ->
  exists results,
    grepMatchingFiles_shape json_Unmarshal searchTerm vault out = Done results /\
    json_valid (print_results results) = true.
Proof.
  intros Hrec Hgo Hclean Hvault.
  destruct (grepMatchingFiles_shape_items _ searchTerm vault _ _ Hrec Hgo)
    as (items & Hshape & Hitems).
  eexists. split; [exact Hshape|].
  apply valid_when_clean.
  assert (elems (match items with [] => None | _ => Some items end) = items) as Helems
    by (destruct items; reflexivity).
  cbn [Items]. rewrite Helems. clear Helems Hshape.
  apply Forall_first_per_path in Hclean.
  induction Hitems as [|r item rs items' (Htype & Htitle & Hsub & Harg) _ IH];
    [constructor|].
  inversion Hclean as [|? ? [Hpath Hlines] Hrest]; subst.
  constructor; [|apply IH, Hrest].
  apply clean_item_no_backslash.
  - rewrite Htype. no_backslash.
  - eapply Forall_withoutMd; [exact Htitle|].
    apply Forall_filepath_Base; [discriminate.. | exact Hpath].
  - eapply Forall_fruncate; [exact Hsub | exact Hlines].
  - rewrite Harg. apply asObsidianUrl_no_backslash, Hvault.
Qed.

(** ** The steps of a run and how it ends *)

Lemma len_positive {A} (s : list A) : s <> [] -> (1 <=? len s) = true.
Proof.
  intros H. apply Z.leb_le. destruct s; [contradiction|].
  unfold len. cbn [length]. lia.
Qed.

Lemma len_not_0 {A} (s : list A) : s <> [] -> (len s =? 0) = false.
Proof.
  intros H. apply Z.eqb_neq. destruct s; [contradiction|].
  unfold len. cbn [length]. lia.
Qed.

Lemma and_then_trace {A B} (m : prog A) (k : A -> prog B) :
  (and_then m k).1
  = m.1 ++ match m.2 with Done a => (k a).1 | _ => [] end.
Proof. destruct m as [t [a| |]]; cbn; rewrite ?app_nil_r; reflexivity. Qed.

Lemma and_then_pure {A B} (m : prog A) (f : A -> outcome B) :
  (and_then m (fun a => pure (f a))).1 = m.1.
Proof. rewrite and_then_trace. destruct m.2; cbn; apply app_nil_r. Qed.

Lemma find_cases {A} (P : A -> bool) (l : list A) :
  (exists x, List.find P l = Some x /\ x ∈ l /\ P x = true) \/
  (List.find P l = None /\ forall x, x ∈ l -> P x = false).
Proof.
  induction l as [|y l [(x & Hfind & Hin & Hx)|[Hfind Hnone]]]; cbn [List.find].
  - right. split; [reflexivity|]. intros x H. inversion H.
  - destruct (P y) eqn:Hy.
    + left. exists y. split; [reflexivity|]. split; [apply list_elem_of_here | exact Hy].
    + left. exists x. split; [exact Hfind|].
      split; [apply list_elem_of_further, Hin | exact Hx].
  - destruct (P y) eqn:Hy.
    + left. exists y. split; [reflexivity|]. split; [apply list_elem_of_here | exact Hy].
    + right. split; [exact Hfind|].
      intros x [->|Hin]%elem_of_cons; [exact Hy | apply Hnone, Hin].
Qed.

Section Runs.

Variable filepath_Join : gostring -> gostring -> gostring.
Variable json_Unmarshal : gostring -> RipGrepResult -> option RipGrepResult.
Variable json_Unmarshal_config : gostring -> option ObsidianConfig.
Variable w : World.

(** The steps of either search: the change of directory and, when it
    succeeded, the one command. *)
Lemma findMatchingFiles_trace v searchTerm directory vault :
  (findMatchingFiles w v searchTerm directory vault).1
  = EvChdir directory
      :: if Chdir w directory then [EvExec (fd_argv v searchTerm)] else [].
Proof.
  unfold findMatchingFiles, chdir. rewrite and_then_trace. cbn [fst snd app].
  destruct (Chdir w directory); [|reflexivity].
  rewrite and_then_pure. reflexivity.
Qed.

Lemma grepMatchingFiles_trace v searchTerm directory vault :
  (grepMatchingFiles json_Unmarshal w v searchTerm directory vault).1
  = EvChdir directory
      :: if Chdir w directory then [EvExec (rg_argv v searchTerm)] else [].
Proof.
  unfold grepMatchingFiles, chdir. rewrite and_then_trace. cbn [fst snd app].
  destruct (Chdir w directory); [|reflexivity].
  rewrite and_then_pure. reflexivity.
Qed.

Lemma search_and_print_trace v inv vaultName vaultPath :
  (search_and_print filepath_Join json_Unmarshal w v inv vaultName vaultPath).1
  = match Args inv, expandHome filepath_Join w vaultPath with
    | _ :: _, Some directory =>
        EvChdir directory
          :: if Chdir w directory
             then [EvExec (if grepMode inv
                           then rg_argv v (strings_Join (Args inv) (str " "))
                           else fd_argv v (strings_Join (Args inv) (str " ")))]
             else []
    | _, _ => []
    end.
Proof.
  unfold search_and_print.
  destruct (Args inv) as [|arg args] eqn:Hargs.
  { change (1 <=? len (@nil gostring)) with false. reflexivity. }
  rewrite len_positive by discriminate. rewrite and_then_Done.
  destruct (expandHome filepath_Join w vaultPath) as [directory|];
    cbn [run_time]; [|reflexivity].
  rewrite and_then_Done, and_then_pure.
  destruct (grepMode inv);
    [rewrite grepMatchingFiles_trace | rewrite findMatchingFiles_trace];
    reflexivity.
Qed.

(** With a search term and a directory, [main] runs the search of the mode
    and prints its result. *)
Lemma search_and_print_search v inv vaultName vaultPath directory :
  Args inv <> [] ->
  expandHome filepath_Join w vaultPath = Some directory ->
  search_and_print filepath_Join json_Unmarshal w v inv vaultName vaultPath
  = and_then
      (if grepMode inv
       then grepMatchingFiles json_Unmarshal w v
              (strings_Join (Args inv) (str " ")) directory vaultName
       else findMatchingFiles w v
              (strings_Join (Args inv) (str " ")) directory vaultName)
      (fun results => pure (Done (print_results results))).
Proof.
  intros Hargs Hhome. unfold search_and_print.
  rewrite (len_positive _ Hargs), Hhome. cbn [run_time].
  rewrite !and_then_Done. reflexivity.
Qed.

(** X5. Whatever the machine answers, a run executes a command only in the
    vault: if a command was run at all, the vault path expanded to a
    directory, changing to that directory succeeded just before, a search
    term was given, the command is the one of the mode (the content search
    with [-grep], the file-finder without) with the joined arguments as its
    term, and these two are the only steps of the search. *)
Theorem search_runs_in_vault (v : Variant) (inv : Invocation)
    (vaultName vaultPath : gostring) (argv : list gostring) :
  EvExec argv
    ∈ (search_and_print filepath_Join json_Unmarshal w v inv vaultName vaultPath).1 ->
  exists directory,
    expandHome filepath_Join w vaultPath = Some directory /\
    Chdir w directory = true /\
    Args inv <> [] /\
    argv = (if grepMode inv then rg_argv v (strings_Join (Args inv) (str " "))
            else fd_argv v (strings_Join (Args inv) (str " "))) /\
    (search_and_print filepath_Join json_Unmarshal w v inv vaultName vaultPath).1
    = [EvChdir directory; EvExec argv].
Proof.
  rewrite search_and_print_trace.
  destruct (Args inv) as [|arg args]; [intros H; inversion H|].
  destruct (expandHome filepath_Join w vaultPath) as [directory|];
    [|intros H; inversion H].
  destruct (Chdir w directory) eqn:Hcd.
  - intros [H|H]%elem_of_cons; [discriminate H|].
    apply (proj1 (list_elem_of_singleton _ _)) in H. injection H as ->.
    exists directory.
    split; [reflexivity|]. split; [exact Hcd|]. split; [discriminate|].
    split; reflexivity.
  - intros [H|H]%elem_of_cons; [discriminate H | inversion H].
Qed.

(** X6. In both modes and both variants, when the directory of the vault
    cannot be entered the run ends in
    [log.Fatalf("no such directory %s", directory)] with the expanded
    directory in the message, after the one attempt to change directory: no
    command is run and nothing is printed. *)
Theorem search_without_directory (v : Variant) (inv : Invocation)
    (vaultName vaultPath directory : gostring) :
  Args inv <> [] ->
  expandHome filepath_Join w vaultPath = Some directory ->
  Chdir w directory = false ->
  search_and_print filepath_Join json_Unmarshal w v inv vaultName vaultPath
  = ([EvChdir directory], Fatal (str "no such directory " ++ directory)).
Proof.
  intros Hargs Hhome Hcd.
  rewrite (search_and_print_search _ _ _ _ _ Hargs Hhome).
  unfold grepMatchingFiles, findMatchingFiles, chdir. rewrite Hcd.
  destruct (grepMode inv); reflexivity.
Qed.

(** X7. The two modes treat a failing command differently. When the
    file-finder ends with an error, [findMatchingFiles] ends the run in
    [log.Fatal(err)] and what the command printed is dropped. When the
    content search ends with an error, [grepMatchingFiles] drops the error
    and shapes what was printed. *)
Theorem search_command_error (v : Variant) (searchTerm directory vault : gostring)
    (out err : gostring) :
  Chdir w directory = true ->
  (Output w directory (fd_argv v searchTerm) = (out, Some err) ->
   findMatchingFiles w v searchTerm directory vault
   = ([EvChdir directory; EvExec (fd_argv v searchTerm)], Fatal err)) /\
  (Output w directory (rg_argv v searchTerm) = (out, Some err) ->
   grepMatchingFiles json_Unmarshal w v searchTerm directory vault
   = ([EvChdir directory; EvExec (rg_argv v searchTerm)],
      grepMatchingFiles_shape json_Unmarshal searchTerm vault out)).
Proof.
  intros Hcd. unfold findMatchingFiles, grepMatchingFiles, chdir.
  rewrite Hcd. split; intros ->; reflexivity.
Qed.

(** X8. A filename search that finds its directory and whose file-finder
    succeeds prints exactly one document, after exactly two steps, and the
    document is valid JSON whenever neither the output of the file-finder
    nor the vault identifier contains a backslash. Paths and identifiers
    with ampersands, quotes, angle brackets, control bytes or bytes that
    are not UTF-8 are all covered. *)
Theorem filename_search_prints_json (v : Variant) (inv : Invocation)
    (vaultName vaultPath directory out : gostring) :
  let searchTerm := strings_Join (Args inv) (str " ") in
  grepMode inv = false ->
  Args inv <> [] ->
  expandHome filepath_Join w vaultPath = Some directory ->
  Chdir w directory = true ->
  Output w directory (fd_argv v searchTerm) = (out, None) ->
  go_string out -> no_backslash_in out -> no_backslash_in vaultName ->
  exists text,
    search_and_print filepath_Join json_Unmarshal w v inv vaultName vaultPath
    = ([EvChdir directory; EvExec (fd_argv v searchTerm)], Done text) /\
    json_valid text = true.
Proof.
  intros searchTerm Hmode Hargs Hhome Hcd Hout Hgo Hclean Hvault.
  destruct (findMatchingFiles_shape_valid out vaultName Hgo Hclean Hvault)
    as (results & Hshape & Hvalid).
  exists (print_results results). split; [|exact Hvalid].
  rewrite (search_and_print_search _ _ _ _ _ Hargs Hhome), Hmode.
  fold searchTerm. unfold findMatchingFiles, chdir.
  rewrite Hcd, Hout, !and_then_step, Hshape. reflexivity.
Qed.

(** X9. A content search that finds its directory, on a stream whose
    messages all decode, prints exactly one document, after exactly two
    steps, and the document is valid JSON whenever no path, no matched line
    and not the vault identifier contains a backslash. *)
Theorem content_search_prints_json (v : Variant) (inv : Invocation)
    (vaultName vaultPath directory : gostring) (records : list RipGrepResult) :
  let searchTerm := strings_Join (Args inv) (str " ") in
  grepMode inv = true ->
  Args inv <> [] ->
  expandHome filepath_Join w vaultPath = Some directory ->
  Chdir w directory = true ->
  match_records json_Unmarshal
    (strings_Split (Output w directory (rg_argv v searchTerm)).1 newline)
  = Some records ->
  Forall go_record records ->
  Forall (fun r => no_backslash_in (Data_Path_Text r) /\
                   no_backslash_in (Data_Lines_Text r)) records ->
  no_backslash_in vaultName ->
  exists text,
    search_and_print filepath_Join json_Unmarshal w v inv vaultName vaultPath
    = ([EvChdir directory; EvExec (rg_argv v searchTerm)], Done text) /\
    json_valid text = true.
Proof.
  intros searchTerm Hmode Hargs Hhome Hcd Hrec Hgo Hclean Hvault.
  destruct (grepMatchingFiles_shape_valid _ searchTerm _ _ _ Hrec Hgo Hclean Hvault)
    as (results & Hshape & Hvalid).
  exists (print_results results). split; [|exact Hvalid].
  rewrite (search_and_print_search _ _ _ _ _ Hargs Hhome), Hmode.
  fold searchTerm. unfold grepMatchingFiles, chdir.
  rewrite Hcd, !and_then_step, Hshape. reflexivity.
Qed.

(** X10. A content search whose command prints no line that starts with
    ['{'] (nothing at all, say, as when nothing matches) is not an error:
    the loop leaves the results nil and the run prints the document whose
    items are [null], not an empty list. *)
Theorem grep_without_messages (v : Variant) (inv : Invocation)
    (vaultName vaultPath directory : gostring) :
  let searchTerm := strings_Join (Args inv) (str " ") in
  grepMode inv = true ->
  Args inv <> [] ->
  expandHome filepath_Join w vaultPath = Some directory ->
  Chdir w directory = true ->
  Forall (fun line => strings_HasPrefix line (str "{") = false)
    (strings_Split (Output w directory (rg_argv v searchTerm)).1 newline) ->
  search_and_print filepath_Join json_Unmarshal w v inv vaultName vaultPath
  = ([EvChdir directory; EvExec (rg_argv v searchTerm)], Done null_document).
Proof.
  intros searchTerm Hmode Hargs Hhome Hcd Hlines.
  rewrite (search_and_print_search _ _ _ _ _ Hargs Hhome), Hmode.
  fold searchTerm. unfold grepMatchingFiles, chdir.
  rewrite Hcd, !and_then_step.
  unfold grepMatchingFiles_shape. change "010"%char with newline.
  rewrite grep_loop_skips by exact Hlines. reflexivity.
Qed.

Lemma getDefaults_read config content result :
  ReadFile w config = Some content ->
  json_Unmarshal_config content = Some result ->
  getDefaults json_Unmarshal_config w config
  = ([EvReadFile config],
     Done match List.find (fun entry => Open entry.2)
                  (range_Vaults w (Vaults result)) with
          | Some (vaultId, vault) => (vaultId, Path vault)
          | None => ([], [])
          end).
Proof.
  intros Hread Hparse. unfold getDefaults.
  rewrite Hread, and_then_step, Hparse, and_then_Done. reflexivity.
Qed.

(** X11. [getDefaults] on a registry that can be read and parsed, when
    [range] visits every entry of the map once, in whatever order: the
    defaults are the identifier and the path of a vault of the registry that
    is open, or both empty when no vault is open; and when exactly one
    vault is open they are that vault's, so the order of iteration does not
    show. *)
Theorem getDefaults_open_vault (config content : gostring) (result : ObsidianConfig) :
  ReadFile w config = Some content ->
  json_Unmarshal_config content = Some result ->
  range_Vaults w (Vaults result) ≡ₚ map_to_list (Vaults result) ->
  exists vaultId path,
    getDefaults json_Unmarshal_config w config
    = ([EvReadFile config], Done (vaultId, path)) /\
    ((exists vault, Vaults result !! vaultId = Some vault /\ Open vault = true /\
                    path = Path vault) \/
     (vaultId = [] /\ path = [] /\
      forall id vault, Vaults result !! id = Some vault -> Open vault = false)) /\
    forall id vault,
      Vaults result !! id = Some vault -> Open vault = true ->
      (forall id' vault', Vaults result !! id' = Some vault' -> Open vault' = true ->
                          id' = id) ->
      vaultId = id /\ path = Path vault.
Proof.
  intros Hread Hparse Hrange.
  rewrite (getDefaults_read _ _ _ Hread Hparse).
  assert (forall id vault,
            (id, vault) ∈ range_Vaults w (Vaults result)
            <-> Vaults result !! id = Some vault) as Hin.
  { intros id vault. rewrite Hrange. apply elem_of_map_to_list. }
  destruct (find_cases (fun entry : gostring * ObsidianVault => Open entry.2)
              (range_Vaults w (Vaults result)))
    as [([vaultId vault] & -> & Hentry & Hopen)|[-> Hnone]].
  - exists vaultId, (Path vault). split; [reflexivity|].
    apply Hin in Hentry. split.
    + left. exists vault. split; [exact Hentry|]. split; [exact Hopen | reflexivity].
    + intros id vault' Hid Hopen' Huniq.
      assert (vaultId = id) as -> by (eapply Huniq; [exact Hentry | exact Hopen]).
      split; [reflexivity|]. congruence.
  - exists [], []. split; [reflexivity|]. split.
    + right. split; [reflexivity|]. split; [reflexivity|].
      intros id vault Hid. apply (Hnone (id, vault)), Hin, Hid.
    + intros id vault Hid Hopen _.
      apply Hin in Hid. apply Hnone in Hid. cbn in Hid. congruence.
Qed.

Lemma main_after_defaults inv config defaults :
  expandHome filepath_Join w ObsidianConfigFile = Some config ->
  getDefaults json_Unmarshal_config w config = ([EvReadFile config], Done defaults) ->
  main filepath_Join json_Unmarshal json_Unmarshal_config w inv
  = and_then ([EvReadFile config], Done tt)
      (fun _ => search_and_print filepath_Join json_Unmarshal w WithRegistry inv
                  (if len (vaultName inv) =? 0 then defaults.1 else vaultName inv)
                  (if len (vaultPath inv) =? 0 then defaults.2 else vaultPath inv)).
Proof.
  intros Hhome Hdefaults. unfold main.
  rewrite Hhome. cbn [run_time]. rewrite and_then_Done, Hdefaults.
  rewrite !and_then_step. reflexivity.
Qed.

(** X12. [main] of [osearch.go] reads the registry before it looks at the
    command line: when the registry file cannot be read the run ends in
    [log.Fatalf("could not open %s", file)], when it cannot be parsed in
    [log.Fatalf("Could not parse %s", content)], for every command line,
    also one that gives both the vault and the path and so needs no
    default. Nothing else has happened by then. *)
Theorem main_registry_unusable (inv : Invocation) (config : gostring) :
  expandHome filepath_Join w ObsidianConfigFile = Some config ->
  (ReadFile w config = None ->
   main filepath_Join json_Unmarshal json_Unmarshal_config w inv
   = ([EvReadFile config], Fatal (str "could not open " ++ config))) /\
  (forall content,
     ReadFile w config = Some content ->
     json_Unmarshal_config content = None ->
     main filepath_Join json_Unmarshal json_Unmarshal_config w inv
     = ([EvReadFile config], Fatal (str "Could not parse " ++ content))).
Proof.
  intros Hhome. unfold main. rewrite Hhome. cbn [run_time].
  rewrite and_then_Done. unfold getDefaults. split.
  - intros ->. reflexivity.
  - intros content -> Hparse. rewrite and_then_step, Hparse. reflexivity.
Qed.

(** X13. [main] of [osearch.go] with the registry read: a flag that is
    given wins over the registry, a flag that is left out (or given as the
    empty text) takes the default, each flag on its own; the run is the
    reading of the registry followed by the search with the values so
    settled. *)
Theorem main_flags_before_registry (inv : Invocation) (config : gostring)
    (defaults : gostring * gostring) :
  expandHome filepath_Join w ObsidianConfigFile = Some config ->
  getDefaults json_Unmarshal_config w config = ([EvReadFile config], Done defaults) ->
  let vaultName' := match vaultName inv with [] => defaults.1 | _ => vaultName inv end in
  let vaultPath' := match vaultPath inv with [] => defaults.2 | _ => vaultPath inv end in
  let search := search_and_print filepath_Join json_Unmarshal w WithRegistry inv
                  vaultName' vaultPath' in
  main filepath_Join json_Unmarshal json_Unmarshal_config w inv
  = (EvReadFile config :: search.1, search.2).
Proof.
  intros Hhome Hdefaults. cbv zeta.
  rewrite (main_after_defaults inv config defaults Hhome Hdefaults), and_then_step.
  destruct (vaultName inv), (vaultPath inv); reflexivity.
Qed.

(** X14. Without a search term the run ends in the usage message, which
    names the program, and no search is started. The variant without
    registry gets there without a step outside the process once both flags
    are given; [osearch.go] gets there only after it has read the
    registry. *)
Theorem usage_without_search_term (inv : Invocation) :
  Args inv = [] ->
  (forall v vaultName vaultPath,
     search_and_print filepath_Join json_Unmarshal w v inv vaultName vaultPath
     = ([], Fatal (usage inv))) /\
  (vaultName inv <> [] -> vaultPath inv <> [] ->
   main_flags_only filepath_Join json_Unmarshal w inv = ([], Fatal (usage inv))) /\
  (forall config defaults,
     expandHome filepath_Join w ObsidianConfigFile = Some config ->
     getDefaults json_Unmarshal_config w config
     = ([EvReadFile config], Done defaults) ->
     main filepath_Join json_Unmarshal json_Unmarshal_config w inv
     = ([EvReadFile config], Fatal (usage inv))).
Proof.
  intros Hargs.
  assert (forall v vaultName vaultPath,
     search_and_print filepath_Join json_Unmarshal w v inv vaultName vaultPath
     = ([], Fatal (usage inv))) as Hsearch.
  { intros v name path. unfold search_and_print. rewrite Hargs. reflexivity. }
  split; [exact Hsearch|]. split.
  - intros Hname Hpath. unfold main_flags_only.
    rewrite (len_not_0 _ Hname), (len_not_0 _ Hpath), !and_then_Done.
    apply Hsearch.
  - intros config defaults Hhome Hdefaults.
    rewrite (main_after_defaults inv config defaults Hhome Hdefaults).
    rewrite and_then_step, Hsearch. reflexivity.
Qed.

(** X15. [main] of the variant without registry checks the vault name
    first, then the vault path, each fatal with its own message before any
    step outside the process; with both given the run is the search on
    them; and no run of this variant ever reads a file. *)
Theorem main_flags_only_validation (inv : Invocation) :
  (vaultName inv = [] ->
   main_flags_only filepath_Join json_Unmarshal w inv
   = ([], Fatal (str "vault name must be specified with --vault"))) /\
  (vaultName inv <> [] -> vaultPath inv = [] ->
   main_flags_only filepath_Join json_Unmarshal w inv
   = ([], Fatal (str "vault path must be specified with --path"))) /\
  (vaultName inv <> [] -> vaultPath inv <> [] ->
   main_flags_only filepath_Join json_Unmarshal w inv
   = search_and_print filepath_Join json_Unmarshal w FlagsOnly inv
       (vaultName inv) (vaultPath inv)) /\
  forall name, EvReadFile name ∉ (main_flags_only filepath_Join json_Unmarshal w inv).1.
Proof.
  destruct (vaultName inv) as [|c name] eqn:Hname.
  { assert (main_flags_only filepath_Join json_Unmarshal w inv
            = ([], Fatal (str "vault name must be specified with --vault"))) as ->
      by (unfold main_flags_only; rewrite Hname; reflexivity).
    split; [reflexivity|]. split; [contradiction|]. split; [contradiction|].
    intros file H. inversion H. }
  destruct (vaultPath inv) as [|d path] eqn:Hpath.
  { assert (main_flags_only filepath_Join json_Unmarshal w inv
            = ([], Fatal (str "vault path must be specified with --path"))) as ->
      by (unfold main_flags_only; rewrite Hname, Hpath; reflexivity).
    split; [discriminate|]. split; [reflexivity|]. split; [contradiction|].
    intros file H. inversion H. }
  assert (main_flags_only filepath_Join json_Unmarshal w inv
          = search_and_print filepath_Join json_Unmarshal w FlagsOnly inv
              (c :: name) (d :: path)) as ->.
  { unfold main_flags_only. rewrite Hname, Hpath.
    rewrite !len_not_0 by discriminate. rewrite !and_then_Done. reflexivity. }
  split; [discriminate|]. split; [discriminate|]. split; [reflexivity|].
  intros file. rewrite search_and_print_trace.
  destruct (Args inv); [intros H; inversion H|].
  destruct (expandHome filepath_Join w (d :: path)) as [directory|];
    [|intros H; inversion H].
  destruct (Chdir w directory).
  - intros [H|[H|H]%elem_of_cons]%elem_of_cons;
      [discriminate H | discriminate H | inversion H].
  - intros [H|H]%elem_of_cons; [discriminate H | inversion H].
Qed.

(** X16. [expandHome] never panics: a name that starts with ["~/"] becomes
    [filepath.Join] of the home directory and what follows the two bytes,
    every other name (also ["~"] alone and ["~user/..."]) is returned as it
    is. *)
Theorem expandHome_cases (filename : gostring) :
  (forall rest, filename = str "~/" ++ rest ->
     expandHome filepath_Join w filename
     = Some (filepath_Join (UserHomeDir w) rest)) /\
  (~ str "~/" `prefix_of` filename ->
   expandHome filepath_Join w filename = Some filename).
Proof.
  unfold expandHome. split.
  - intros rest ->.
    rewrite (proj2 (strings_HasPrefix_spec _ _)) by (exists rest; reflexivity).
    change 2 with (Z.of_nat 2).
    rewrite slice_from_Some by (cbn [app length str]; cbn; lia).
    reflexivity.
  - intros Hpre.
    rewrite (proj2 (strings_HasPrefix_false _ _)) by exact Hpre. reflexivity.
Qed.

End Runs.

(** *** The sample runs *)

Lemma search_runs_in_vault_witness :
  exists directory,
    expandHome sample_Join (sample_world (print0 [str "plan.txt"]) None)
      (str "/vaults/work") = Some directory /\
    Chdir (sample_world (print0 [str "plan.txt"]) None) directory = true /\
    Args (sample_invocation false "work" "/vaults/work" ["plan"%string]) <> [] /\
    fd_argv FlagsOnly (str "plan")
    = (if grepMode (sample_invocation false "work" "/vaults/work" ["plan"%string])
       then rg_argv FlagsOnly
              (strings_Join
                 (Args (sample_invocation false "work" "/vaults/work" ["plan"%string]))
                 (str " "))
       else fd_argv FlagsOnly
              (strings_Join
                 (Args (sample_invocation false "work" "/vaults/work" ["plan"%string]))
                 (str " "))) /\
    (search_and_print sample_Join sample_Unmarshal
       (sample_world (print0 [str "plan.txt"]) None) FlagsOnly
       (sample_invocation false "work" "/vaults/work" ["plan"%string])
       (str "work") (str "/vaults/work")).1
    = [EvChdir directory; EvExec (fd_argv FlagsOnly (str "plan"))].
Proof.
  apply (search_runs_in_vault sample_Join sample_Unmarshal
           (sample_world (print0 [str "plan.txt"]) None) FlagsOnly
           (sample_invocation false "work" "/vaults/work" ["plan"%string])
           (str "work") (str "/vaults/work") (fd_argv FlagsOnly (str "plan"))).
  vm_compute. apply list_elem_of_further, list_elem_of_here.
Defined.

Lemma search_without_directory_witness :
  search_and_print sample_Join sample_Unmarshal (sample_world [] None) WithRegistry
    (sample_invocation true "work" "~/nowhere" ["plan"%string])
    (str "work") (str "~/nowhere")
  = ([EvChdir (str "/Users/me/nowhere")],
     Fatal (str "no such directory /Users/me/nowhere")).
Proof.
  apply (search_without_directory sample_Join sample_Unmarshal (sample_world [] None)
           WithRegistry (sample_invocation true "work" "~/nowhere" ["plan"%string])
           (str "work") (str "~/nowhere") (str "/Users/me/nowhere")).
  - discriminate.
  - reflexivity.
  - reflexivity.
Defined.

Lemma search_command_error_witness :
  findMatchingFiles (failing_world (print0 [str "plan.txt"]) (str "exit status 2"))
    WithRegistry (str "plan") (str "/vaults/work") (str "work")
  = ([EvChdir (str "/vaults/work"); EvExec (fd_argv WithRegistry (str "plan"))],
     Fatal (str "exit status 2")) /\
  grepMatchingFiles sample_Unmarshal
    (failing_world (print0 [str "plan.txt"]) (str "exit status 2"))
    WithRegistry (str "plan") (str "/vaults/work") (str "work")
  = ([EvChdir (str "/vaults/work"); EvExec (rg_argv WithRegistry (str "plan"))],
     grepMatchingFiles_shape sample_Unmarshal (str "plan") (str "work")
       (print0 [str "plan.txt"])).
Proof.
  pose proof (search_command_error sample_Unmarshal
                (failing_world (print0 [str "plan.txt"]) (str "exit status 2"))
                WithRegistry (str "plan") (str "/vaults/work") (str "work")
                (print0 [str "plan.txt"]) (str "exit status 2") eq_refl)
    as [Hfind Hgrep].
  split; [apply Hfind | apply Hgrep]; reflexivity.
Defined.

Lemma filename_search_prints_json_witness :
  exists text,
    search_and_print sample_Join sample_Unmarshal
      (sample_world (print0 [str "R&D/Q&A <draft>.md"; str "todo.txt"]) None)
      FlagsOnly (sample_invocation false "work" "/vaults/work" ["*.md"%string])
      (str "work") (str "/vaults/work")
    = ([EvChdir (str "/vaults/work"); EvExec (fd_argv FlagsOnly (str "*.md"))],
       Done text) /\
    json_valid text = true.
Proof.
  apply (filename_search_prints_json sample_Join sample_Unmarshal
           (sample_world (print0 [str "R&D/Q&A <draft>.md"; str "todo.txt"]) None)
           FlagsOnly (sample_invocation false "work" "/vaults/work" ["*.md"%string])
           (str "work") (str "/vaults/work") (str "/vaults/work")
           (print0 [str "R&D/Q&A <draft>.md"; str "todo.txt"])).
  - reflexivity.
  - discriminate.
  - reflexivity.
  - reflexivity.
  - reflexivity.
  - vm_compute. discriminate.
  - no_backslash.
  - no_backslash.
Defined.

Lemma content_search_prints_json_witness :
  exists text,
    search_and_print sample_Join sample_Unmarshal (sample_world sample_stream None)
      WithRegistry (sample_invocation true "work" "/vaults/work" ["cats"%string])
      (str "work") (str "/vaults/work")
    = ([EvChdir (str "/vaults/work"); EvExec (rg_argv WithRegistry (str "cats"))],
       Done text) /\
    json_valid text = true.
Proof.
  apply (content_search_prints_json sample_Join sample_Unmarshal
           (sample_world sample_stream None) WithRegistry
           (sample_invocation true "work" "/vaults/work" ["cats"%string])
           (str "work") (str "/vaults/work") (str "/vaults/work")
           [ {| Rg_Type := str "match"; Data_Path_Text := str "notes/cats.md";
                Data_Lines_Text := str "all the facts we know about cats" |};
             {| Rg_Type := str "match"; Data_Path_Text := str "notes/cats.md";
                Data_Lines_Text := str "more about cats" |};
             {| Rg_Type := str "match"; Data_Path_Text := str "pets.md";
                Data_Lines_Text := str "dogs, cats and a parrot" |} ]).
  - reflexivity.
  - discriminate.
  - reflexivity.
  - reflexivity.
  - vm_compute. reflexivity.
  - repeat (apply List.Forall_cons; [split; vm_compute; congruence|]).
    apply List.Forall_nil.
  - repeat (apply List.Forall_cons; [split; no_backslash|]).
    apply List.Forall_nil.
  - no_backslash.
Defined.

Lemma grep_without_messages_witness :
  search_and_print sample_Join sample_Unmarshal
    (sample_world (str "rg: no match") None) FlagsOnly
    (sample_invocation true "work" "/vaults/work" ["zebra"%string])
    (str "work") (str "/vaults/work")
  = ([EvChdir (str "/vaults/work"); EvExec (rg_argv FlagsOnly (str "zebra"))],
     Done null_document).
Proof.
  apply (grep_without_messages sample_Join sample_Unmarshal
           (sample_world (str "rg: no match") None) FlagsOnly
           (sample_invocation true "work" "/vaults/work" ["zebra"%string])
           (str "work") (str "/vaults/work") (str "/vaults/work")).
  - reflexivity.
  - discriminate.
  - reflexivity.
  - reflexivity.
  - apply List.Forall_cons; [reflexivity | apply List.Forall_nil].
Defined.

Lemma open_registry_one_open id vault :
  Vaults open_registry !! id = Some vault -> Open vault = true -> id = str "b2".
Proof.
  unfold open_registry. cbn [Vaults]. intros Hid Hopen.
  apply lookup_insert_Some in Hid as [[_ <-]|[_ Hid]]; [discriminate Hopen|].
  apply lookup_singleton_Some in Hid as [<- _]. reflexivity.
Qed.

Lemma getDefaults_open_vault_witness :
  getDefaults open_config (sample_world [] (Some (str "{}"))) sample_registry
  = ([EvReadFile sample_registry], Done (str "b2", str "/vaults/work")).
Proof.
  destruct (getDefaults_open_vault open_config (sample_world [] (Some (str "{}")))
              sample_registry (str "{}") open_registry eq_refl eq_refl
              (Permutation_refl _))
    as (vaultId & path & Hrun & _ & Hone).
  destruct (Hone (str "b2")
              {| Path := str "/vaults/work"; Ts := 2; Open := true |}
              ltac:(vm_compute; reflexivity) eq_refl
              (fun id vault Hid Hopen => open_registry_one_open id vault Hid Hopen))
    as [-> ->].
  exact Hrun.
Defined.

Lemma main_registry_unusable_witness :
  main sample_Join sample_Unmarshal open_config (sample_world [] None)
    (sample_invocation false "work" "/vaults/work" ["plan"%string])
  = ([EvReadFile sample_registry], Fatal (str "could not open " ++ sample_registry)) /\
  main sample_Join sample_Unmarshal (fun _ => None)
    (sample_world [] (Some (str "{vaults")))
    (sample_invocation false "work" "/vaults/work" ["plan"%string])
  = ([EvReadFile sample_registry], Fatal (str "Could not parse {vaults")).
Proof.
  split.
  - apply (proj1 (main_registry_unusable sample_Join sample_Unmarshal open_config
                    (sample_world [] None)
                    (sample_invocation false "work" "/vaults/work" ["plan"%string])
                    sample_registry eq_refl)).
    reflexivity.
  - apply (proj2 (main_registry_unusable sample_Join sample_Unmarshal (fun _ => None)
                    (sample_world [] (Some (str "{vaults")))
                    (sample_invocation false "work" "/vaults/work" ["plan"%string])
                    sample_registry eq_refl)); reflexivity.
Defined.

Lemma main_flags_before_registry_witness :
  let w := sample_world (print0 [str "plan.txt"]) (Some (str "{}")) in
  let inv := sample_invocation false "" "~/notes" ["plan"%string] in
  main sample_Join sample_Unmarshal open_config w inv
  = (EvReadFile sample_registry
       :: (search_and_print sample_Join sample_Unmarshal w WithRegistry inv
             (str "b2") (str "~/notes")).1,
     (search_and_print sample_Join sample_Unmarshal w WithRegistry inv
        (str "b2") (str "~/notes")).2).
Proof.
  cbv zeta.
  apply (main_flags_before_registry sample_Join sample_Unmarshal open_config
           (sample_world (print0 [str "plan.txt"]) (Some (str "{}")))
           (sample_invocation false "" "~/notes" ["plan"%string])
           sample_registry (str "b2", str "/vaults/work")).
  - reflexivity.
  - vm_compute. reflexivity.
Defined.

Lemma usage_without_search_term_witness :
  main_flags_only sample_Join sample_Unmarshal (sample_world [] None)
    (sample_invocation false "work" "/vaults/work" [])
  = ([], Fatal (str "Usage: osearch [--grep] --vault vaultname --path vaultpath searchterm")) /\
  main sample_Join sample_Unmarshal open_config (sample_world [] (Some (str "{}")))
    (sample_invocation false "work" "/vaults/work" [])
  = ([EvReadFile sample_registry],
     Fatal (str "Usage: osearch [--grep] --vault vaultname --path vaultpath searchterm")).
Proof.
  split.
  - apply (proj1 (proj2 (usage_without_search_term sample_Join sample_Unmarshal
                           open_config (sample_world [] None)
                           (sample_invocation false "work" "/vaults/work" [])
                           eq_refl))); discriminate.
  - apply (proj2 (proj2 (usage_without_search_term sample_Join sample_Unmarshal
                           open_config (sample_world [] (Some (str "{}")))
                           (sample_invocation false "work" "/vaults/work" [])
                           eq_refl)) sample_registry (str "b2", str "/vaults/work")).
    + reflexivity.
    + vm_compute. reflexivity.
Defined.

Lemma main_flags_only_validation_witness :
  main_flags_only sample_Join sample_Unmarshal (sample_world [] None)
    (sample_invocation false "" "" [])
  = ([], Fatal (str "vault name must be specified with --vault")) /\
  main_flags_only sample_Join sample_Unmarshal (sample_world [] None)
    (sample_invocation false "work" "" ["plan"%string])
  = ([], Fatal (str "vault path must be specified with --path")).
Proof.
  split.
  - apply (proj1 (main_flags_only_validation sample_Join sample_Unmarshal
                    (sample_world [] None) (sample_invocation false "" "" []))).
    reflexivity.
  - apply (proj1 (proj2 (main_flags_only_validation sample_Join sample_Unmarshal
                           (sample_world [] None)
                           (sample_invocation false "work" "" ["plan"%string]))));
      [discriminate | reflexivity].
Defined.

Lemma expandHome_cases_witness :
  expandHome sample_Join (sample_world [] None) (str "~/vaults/work")
  = Some (str "/Users/me/vaults/work") /\
  expandHome sample_Join (sample_world [] None) (str "~") = Some (str "~").
Proof.
  split.
  - apply (proj1 (expandHome_cases sample_Join (sample_world [] None)
                    (str "~/vaults/work")) (str "vaults/work")).
    reflexivity.
  - apply (proj2 (expandHome_cases sample_Join (sample_world [] None) (str "~"))).
    intros [k Hk]. discriminate Hk.
Defined.

(** ** Truncation for any window *)

(** X17. When the term lies further than [n] bytes into the line,
    [fruncate] cuts something off and leaves at least [n] and fewer than
    [n + m] bytes of the line before the term: exactly [n] bytes when it
    cuts at [index - n], and otherwise it cuts just behind a space that is
    not the first byte of the line. *)
Theorem fruncate_context (s p : gostring) (n m : Z) (i : nat) :
  go_string s -> 0 <= n -> 0 <= m <= max_int ->
  strings_Index s p = Z.of_nat i -> n < Z.of_nat i ->
  exists k : nat,
    fruncate s p n m = Some (drop k s) /\
    (0 < k)%nat /\
    (Z.of_nat i - Z.of_nat k = n \/
     (n <= Z.of_nat i - Z.of_nat k < n + m /\
      (1 < k)%nat /\ s !! (k - 1)%nat = Some " "%char)).
Proof.
  intros Hgo Hn Hm Hidx Hlt.
  pose proof (fruncate_far s p n m i Hgo Hn Hm Hidx Hlt) as Hf. cbv zeta in Hf.
  pose proof (strings_Index_range s p) as Hr. rewrite Hidx in Hr. unfold len in Hr.
  set (cut := (i - Z.to_nat n)%nat) in *.
  assert (cut <= length s)%nat as Hcut by (unfold cut; lia).
  destruct ((0 <? strings_LastIndex (take cut s) (str " ")) &&
            (Z.of_nat cut - m <=? strings_LastIndex (take cut s) (str " "))) eqn:Hc.
  - apply andb_true_iff in Hc as [Hpos Hmin].
    apply Z.ltb_lt in Hpos. apply Z.leb_le in Hmin.
    set (b := Z.to_nat (strings_LastIndex (take cut s) (str " "))).
    assert (strings_LastIndex (take cut s) (str " ") = Z.of_nat b) as Hb
      by (unfold b; lia).
    pose proof (proj1 (strings_LastIndex_take s " "%char cut b Hcut) Hb)
      as (Hbc & Hspace & _).
    exists (S b). split; [|split; [lia|]].
    + rewrite Hf, Hb. f_equal. f_equal. lia.
    + right. rewrite Hb in Hmin. split; [unfold cut in *; lia|].
      split; [lia|]. replace (S b - 1)%nat with b by lia. exact Hspace.
  - exists cut. split; [exact Hf|]. unfold cut. split; [lia|]. left. lia.
Qed.

Lemma fruncate_context_witness :
  exists k : nat,
    fruncate (str "alpha beta gamma delta epsilon") (str "epsilon") 10 5
    = Some (drop k (str "alpha beta gamma delta epsilon")) /\
    (0 < k)%nat /\
    (23 - Z.of_nat k = 10 \/
     (10 <= 23 - Z.of_nat k < 10 + 5 /\
      (1 < k)%nat /\
      str "alpha beta gamma delta epsilon" !! (k - 1)%nat = Some " "%char)).
Proof.
  apply (fruncate_context (str "alpha beta gamma delta epsilon") (str "epsilon")
           10 5 23).
  - vm_compute. congruence.
  - lia.
  - unfold max_int. lia.
  - reflexivity.
  - lia.
Defined.

(** X18. A negative [n] is outside what [fruncate] can take: when the term
    does not occur and [n < -1], the line is sliced at [-1 - n], which is a
    run-time panic on every line shorter than that. ([main] only ever
    passes 10 and 5.) *)
Theorem fruncate_negative_window (s p : gostring) (n m : Z) :
  strings_Index s p = -1 ->
  min_int <= n < -1 ->
  len s < -1 - n ->
  fruncate s p n m = None.
Proof.
  intros Hidx Hn Hlen. unfold fruncate. rewrite Hidx.
  rewrite (proj2 (Z.ltb_lt n (-1))) by lia.
  unfold int_sub. rewrite (wrap_in_int (-1 - n))
    by (unfold in_int, min_int, max_int in *; lia).
  unfold slice.
  rewrite (proj2 (Z.leb_gt (-1 - n) (len s))) by lia.
  rewrite andb_false_r. reflexivity.
Qed.

Lemma fruncate_negative_window_witness :
  fruncate (str "short") (str "zebra") (-10) 5 = None.
Proof.
  apply fruncate_negative_window.
  - reflexivity.
  - unfold min_int. lia.
  - vm_compute. reflexivity.
Defined.

(** ** Titles of files in directories *)

Lemma strip_separators_head c r :
  c <> "/"%char -> strip_separators (c :: r) = c :: r.
Proof. intros Hc. cbn [strip_separators]. rewrite decide_False by exact Hc. reflexivity. Qed.

Lemma until_separator_app name rest :
  "/"%char ∉ name -> until_separator (name ++ "/"%char :: rest) = name.
Proof.
  induction name as [|c name IH]; intros Hfree.
  - cbn [app until_separator]. rewrite decide_True by reflexivity. reflexivity.
  - cbn [app until_separator].
    rewrite decide_False by (intros ->; apply Hfree, list_elem_of_here).
    rewrite IH by (intros Hin; apply Hfree, list_elem_of_further, Hin).
    reflexivity.
Qed.

Lemma until_separator_free name :
  "/"%char ∉ name -> until_separator name = name.
Proof.
  induction name as [|c name IH]; intros Hfree; [reflexivity|].
  cbn [until_separator].
  rewrite decide_False by (intros ->; apply Hfree, list_elem_of_here).
  rewrite IH by (intros Hin; apply Hfree, list_elem_of_further, Hin).
  reflexivity.
Qed.

(** [filepath.Base] of a file in a directory, and of a bare file name. *)
Lemma filepath_Base_element dir name :
  name <> [] -> "/"%char ∉ name ->
  filepath_Base (dir ++ "/"%char :: name) = name /\ filepath_Base name = name.
Proof.
  intros Hne Hfree.
  assert ("/"%char ∉ reverse name) as Hrev by (rewrite elem_of_reverse; exact Hfree).
  destruct (reverse name) as [|c rev] eqn:Hrn.
  { apply (f_equal reverse) in Hrn. rewrite reverse_involutive in Hrn.
    contradiction. }
  assert (c <> "/"%char) as Hc by (intros ->; apply Hrev, list_elem_of_here).
  assert (reverse (c :: rev) = name) as Hname
    by (rewrite <- Hrn; apply reverse_involutive).
  split.
  - unfold filepath_Base.
    destruct (dir ++ "/"%char :: name) as [|d path] eqn:Hpath;
      [destruct dir; discriminate|].
    rewrite <- Hpath. rewrite reverse_app, reverse_cons, Hrn.
    rewrite <- app_assoc. cbn [app].
    rewrite strip_separators_head by exact Hc.
    change (c :: rev ++ "/"%char :: reverse dir)
      with ((c :: rev) ++ "/"%char :: reverse dir).
    rewrite until_separator_app by exact Hrev.
    rewrite Hname. destruct name; [contradiction | reflexivity].
  - unfold filepath_Base. destruct name as [|d name']; [contradiction|].
    rewrite Hrn, strip_separators_head by exact Hc.
    rewrite until_separator_free by exact Hrev.
    rewrite Hname. reflexivity.
Qed.

(** X19. The title of an item does not depend on where the file lies: for
    a file name [name] (not empty, without a separator) in any directory,
    the title built from the path [dir/name] is the title built from
    [name], so the name without one trailing [.md]. Files of the same name
    in different directories get the same title. *)
Theorem title_ignores_directories (dir name : gostring) :
  name <> [] -> "/"%char ∉ name ->
  withoutMd (filepath_Base (dir ++ str "/" ++ name)) = withoutMd name /\
  withoutMd (filepath_Base name) = withoutMd name.
Proof.
  intros Hne Hfree. change (str "/" ++ name) with ("/"%char :: name).
  destruct (filepath_Base_element dir name Hne Hfree) as [-> ->].
  split; reflexivity.
Qed.

Lemma title_ignores_directories_witness :
  withoutMd (filepath_Base (str "projects/2024" ++ str "/" ++ str "Plan.md"))
  = withoutMd (str "Plan.md") /\
  withoutMd (filepath_Base (str "Plan.md")) = withoutMd (str "Plan.md").
Proof.
  apply title_ignores_directories.
  - discriminate.
  - intros Hin. vm_compute in Hin.
    repeat (apply elem_of_cons in Hin as [Hin|Hin]; [discriminate Hin|]).
    inversion Hin.
Defined.

(** ** Targets *)

(** X20. Within a vault, different paths never get the same URL, although
    escaping rewrites some bytes and leaves others: the URL of a path
    determines the path. *)
Theorem asObsidianUrl_distinct (path path' vault : gostring) :
  path <> path' -> asObsidianUrl path vault <> asObsidianUrl path' vault.
Proof. intros Hne Heq. apply Hne, (asObsidianUrl_inj _ _ _ Heq). Qed.

Lemma asObsidianUrl_distinct_witness :
  asObsidianUrl (str "a b.md") (str "work")
  <> asObsidianUrl (str "a%20b.md") (str "work").
Proof. apply asObsidianUrl_distinct. discriminate. Defined.

(** ** The replacement, once more *)

Lemma unamp_free s : free_of amp_escape s -> unamp s = s.
Proof.
  induction s as [|c s IH]; intros Hfree; [reflexivity|].
  rewrite replace_from_0, (free_of_head _ _ _ Hfree).
  f_equal. apply IH. exact (free_of_tail _ _ _ Hfree).
Qed.

(** X21. The replacement [main] applies to the serialised text does all
    its work in one pass: applied to its own result it changes nothing, and
    on a text without the escaped ampersand it changes nothing in the first
    place. *)
Theorem strings_Replace_idempotent (s : gostring) :
  strings_Replace (strings_Replace s (backslash :: str "u0026") (str "&"))
    (backslash :: str "u0026") (str "&")
  = strings_Replace s (backslash :: str "u0026") (str "&") /\
  (free_of (backslash :: str "u0026") s ->
   strings_Replace s (backslash :: str "u0026") (str "&") = s).
Proof.
  unfold strings_Replace. change (backslash :: str "u0026") with amp_escape.
  split; [apply unamp_free, replace_from_free | apply unamp_free].
Qed.

Lemma strings_Replace_idempotent_witness :
  strings_Replace (str "R&D <draft>") (backslash :: str "u0026") (str "&")
  = str "R&D <draft>".
Proof.
  apply (proj2 (strings_Replace_idempotent (str "R&D <draft>"))).
  apply free_of_no_backslash. no_backslash.
Defined.

(** ** No run panics *)

Lemma and_then_outcome {A B} (m : prog A) (k : A -> prog B) :
  (and_then m k).2
  = match m.2 with Done a => (k a).2 | Fatal msg => Fatal msg | Panic => Panic end.
Proof. destruct m as [t [a| |]]; reflexivity. Qed.

Lemma expandHome_total filepath_Join w filename :
  exists directory, expandHome filepath_Join w filename = Some directory.
Proof.
  unfold expandHome.
  destruct (strings_HasPrefix filename (str "~/")) eqn:Hpre; [|eexists; reflexivity].
  apply strings_HasPrefix_spec in Hpre as [rest ->].
  change 2 with (Z.of_nat 2).
  rewrite slice_from_Some by (cbn [app length str]; cbn; lia).
  eexists. reflexivity.
Qed.

(** The texts that reach the program are Go strings: what the decoder puts
    into a record, and what a command prints. *)
Section NoPanic.

Variable filepath_Join : gostring -> gostring -> gostring.
Variable json_Unmarshal : gostring -> RipGrepResult -> option RipGrepResult.
Variable json_Unmarshal_config : gostring -> option ObsidianConfig.
Variable w : World.

Hypothesis decoded_texts :
  forall line r r', json_Unmarshal line r = Some r' -> go_record r'.
Hypothesis printed_texts :
  forall directory argv, go_string (Output w directory argv).1.

Lemma grep_step_no_panic searchTerm vault line st :
  grep_step json_Unmarshal searchTerm vault line st <> Panic.
Proof.
  unfold grep_step.
  destruct (negb (strings_HasPrefix line (str "{"))); [discriminate|].
  destruct (json_Unmarshal line (rgr st)) as [r|] eqn:Hr; [|discriminate].
  destruct (bool_decide (Rg_Type r = str "match")); [|discriminate].
  destruct (alreadyFound st !! Data_Path_Text r); [discriminate|].
  destruct (decoded_texts _ _ _ Hr) as [Hpath Hlines].
  destruct (withoutMd_total _ (go_string_filepath_Base _ Hpath)) as [title ->].
  destruct (fruncate_total _ searchTerm Hlines) as [subtitle ->].
  discriminate.
Qed.

Lemma grep_loop_no_panic searchTerm vault lines st :
  grep_loop json_Unmarshal searchTerm vault lines st <> Panic.
Proof.
  revert st. induction lines as [|line lines IH]; intros st; [discriminate|].
  rewrite grep_loop_cons.
  pose proof (grep_step_no_panic searchTerm vault line st) as Hstep.
  destruct (grep_step json_Unmarshal searchTerm vault line st) as [st'| |];
    [apply IH | discriminate | contradiction].
Qed.

Lemma search_and_print_no_panic v inv vaultName vaultPath :
  (search_and_print filepath_Join json_Unmarshal w v inv vaultName vaultPath).2
  <> Panic.
Proof.
  destruct (Args inv) as [|arg args] eqn:Hargs.
  { unfold search_and_print. rewrite Hargs. discriminate. }
  destruct (expandHome_total filepath_Join w vaultPath) as [directory Hhome].
  rewrite (search_and_print_search filepath_Join json_Unmarshal w v inv _ _ directory)
    by first [rewrite Hargs; discriminate | exact Hhome].
  rewrite and_then_outcome.
  destruct (grepMode inv).
  - unfold grepMatchingFiles, chdir. rewrite !and_then_outcome. cbn [fst snd].
    destruct (Chdir w directory); [|discriminate]. cbn [pure snd].
    unfold grepMatchingFiles_shape.
    pose proof (grep_loop_no_panic (strings_Join (Args inv) (str " ")) vaultName
                  (strings_Split
                     (Output w directory
                        (rg_argv v (strings_Join (Args inv) (str " ")))).1 "010"%char)
                  grep_init) as Hloop.
    destruct (grep_loop _ _ _ _ _) as [st| |]; [discriminate..|contradiction].
  - unfold findMatchingFiles, chdir. rewrite !and_then_outcome. cbn [fst snd].
    destruct (Chdir w directory); [|discriminate].
    pose proof (printed_texts directory
                  (fd_argv v (strings_Join (Args inv) (str " ")))) as Hgo.
    destruct (Output w directory _) as [out [err|]]; [discriminate|].
    cbn [fst snd pure] in *.
    destruct (findMatchingFiles_shape_items out vaultName Hgo) as (items & -> & _).
    discriminate.
Qed.

(** X22. No run of either variant panics: whatever the command line, the
    registry, the file system and the commands answer, the run ends by
    returning or in [log.Fatal]. No slice in [expandHome], [withoutMd] and
    [fruncate] is out of range and no store in the two loops of
    [findMatchingFiles] is out of bounds. *)
Theorem run_never_panics (inv : Invocation) :
  (main_flags_only filepath_Join json_Unmarshal w inv).2 <> Panic /\
  (main filepath_Join json_Unmarshal json_Unmarshal_config w inv).2 <> Panic.
Proof.
  split.
  - unfold main_flags_only. rewrite !and_then_outcome. cbn [pure snd].
    destruct (len (vaultName inv) =? 0); [discriminate|].
    destruct (len (vaultPath inv) =? 0); [discriminate|].
    apply search_and_print_no_panic.
  - unfold main.
    destruct (expandHome_total filepath_Join w ObsidianConfigFile) as [config ->].
    cbn [run_time]. rewrite and_then_Done, and_then_outcome.
    unfold getDefaults. rewrite !and_then_outcome. cbn [pure fst snd].
    destruct (ReadFile w config) as [content|]; [|discriminate].
    destruct (json_Unmarshal_config content) as [result|]; [|discriminate].
    apply search_and_print_no_panic.
Qed.
End NoPanic.

Lemma sample_Unmarshal_go_record line r r' :
  sample_Unmarshal line r = Some r' -> go_record r'.
Proof.
  unfold sample_Unmarshal.
  destruct (List.find _ sample_messages) as [m|] eqn:Hfind; [|discriminate].
  intros [= <-]. apply find_some in Hfind as [Hin _].
  repeat (destruct Hin as [<-|Hin]; [split; vm_compute; congruence|]).
  contradiction.
Qed.

Lemma run_never_panics_witness :
  (main_flags_only sample_Join sample_Unmarshal (sample_world sample_stream None)
     (sample_invocation true "work" "/vaults/work" ["cats"%string])).2 <> Panic /\
  (main sample_Join sample_Unmarshal open_config
     (sample_world sample_stream (Some (str "{}")))
     (sample_invocation true "" "" ["cats"%string])).2 <> Panic.
Proof.
  assert (forall config (directory : gostring) (argv : list gostring),
            go_string (Output (sample_world sample_stream config) directory argv).1)
    as Hprinted by (intros; vm_compute; congruence).
  split.
  - exact (proj1 (run_never_panics sample_Join sample_Unmarshal open_config
                    (sample_world sample_stream None)
                    sample_Unmarshal_go_record (Hprinted None)
                    (sample_invocation true "work" "/vaults/work" ["cats"%string]))).
  - exact (proj2 (run_never_panics sample_Join sample_Unmarshal open_config
                    (sample_world sample_stream (Some (str "{}")))
                    sample_Unmarshal_go_record (Hprinted (Some (str "{}")))
                    (sample_invocation true "" "" ["cats"%string]))).
Defined.

(** ** Content mode reads the messages only *)

Lemma grep_loop_filter json_Unmarshal searchTerm vault lines st :
  grep_loop json_Unmarshal searchTerm vault lines st
  = grep_loop json_Unmarshal searchTerm vault
      (filter (fun line => strings_HasPrefix line (str "{") = true) lines) st.
Proof.
  revert st. induction lines as [|line lines IH]; intros st; [reflexivity|].
  rewrite filter_cons.
  destruct (decide (strings_HasPrefix line (str "{") = true)) as [Hpre|Hpre].
  - rewrite !grep_loop_cons.
    destruct (grep_step json_Unmarshal searchTerm vault line st); cbn; auto.
  - rewrite grep_loop_cons, grep_step_skip by (apply not_true_is_false, Hpre).
    apply IH.
Qed.

(** X23. The result of content mode depends only on the lines of the
    output that start with ['{'], in their order: two outputs with the same
    such lines give the same result, whatever else the command prints
    between them. *)
Theorem grep_reads_messages_only
    (json_Unmarshal : gostring -> RipGrepResult -> option RipGrepResult)
    (searchTerm vault out out' : gostring) :
  filter (fun line => strings_HasPrefix line (str "{") = true)
    (strings_Split out newline)
  = filter (fun line => strings_HasPrefix line (str "{") = true)
      (strings_Split out' newline) ->
  grepMatchingFiles_shape json_Unmarshal searchTerm vault out
  = grepMatchingFiles_shape json_Unmarshal searchTerm vault out'.
Proof.
  intros Hsame. unfold grepMatchingFiles_shape. change "010"%char with newline.
  rewrite (grep_loop_filter _ _ _ (strings_Split out newline)).
  rewrite (grep_loop_filter _ _ _ (strings_Split out' newline)).
  rewrite Hsame. reflexivity.
Qed.

Lemma grep_reads_messages_only_witness :
  grepMatchingFiles_shape sample_Unmarshal (str "cats") (str "work") sample_stream
  = grepMatchingFiles_shape sample_Unmarshal (str "cats") (str "work")
      (newline :: str "  rg: another warning" ++ newline :: sample_stream).
Proof.
  apply grep_reads_messages_only. vm_compute. reflexivity.
Defined.
